(** * epub2cbz: the EPUB content-model resolution pipeline

    A shallow embedding of the conversion code of epub2cbz (package main, in
    the revision that parses the pages with golang.org/x/net/html):
    [createComicInfo], [getFirst], [containsJapanese], [hasMetadata],
    [findAndOpenFile], [processFile], [extractImagesFromXHTML],
    [normalizeImageName] and [addImageToZip], with the selection of files and
    the output paths of [processDirectory], together with the parts of the
    Go standard library they call (strings, strconv, fmt, path/filepath, the
    decoding of UTF-8 by [range]).

    Go strings are byte strings: they are [string] here (one [ascii] per
    byte), and the algorithms that index them work on [list ascii]. The
    lengths and the counters of the conversion are [nat]. path/filepath is
    the one of the platforms whose [Separator] is '/' (linux, darwin).

    What the conversion takes from outside is explicit: the decoders and the
    parser it calls on the contents of entries are the fields of [Lib], the
    file system of a run is a [World]. [processFile] returns the error, or
    the entries of the archive it has written. *)

From Stdlib Require Import String Ascii List ZArith Lia Bool.
From stdpp Require Import base option list gmap strings.

Local Open Scope string_scope.
Local Open Scope list_scope.
Local Open Scope nat_scope.

(** ** Go strings as byte sequences *)

Abbreviation bytes := list_ascii_of_string.
Abbreviation str := string_of_list_ascii.

Definition byte_eqb (a b : ascii) : bool := Ascii.eqb a b.

(** ** Package strings *)

Module strings.

(** [strip p s] is [Some r] when [s = p ++ r]. *)
Fixpoint strip (p s : list ascii) : option (list ascii) :=
  match p, s with
  | [], _ => Some s
  | _ :: _, [] => None
  | a :: p', b :: s' => if byte_eqb a b then strip p' s' else None
  end.

(** func HasPrefix(s, prefix string) bool *)
Definition HasPrefix (s prefix : string) : bool :=
  match strip (bytes prefix) (bytes s) with Some _ => true | None => false end.

(** func TrimPrefix(s, prefix string) string:
    [if HasPrefix(s, prefix) { return s[len(prefix):] }; return s] *)
Definition TrimPrefix (s prefix : string) : string :=
  match strip (bytes prefix) (bytes s) with
  | Some r => str r
  | None => s
  end.

(** func HasSuffix(s, suffix string) bool:
    [len(s) >= len(suffix) && s[len(s)-len(suffix):] == suffix] *)
Definition HasSuffix (s suffix : string) : bool :=
  match strip (rev (bytes suffix)) (rev (bytes s)) with Some _ => true | None => false end.

(** func TrimSuffix(s, suffix string) string:
    [if HasSuffix(s, suffix) { return s[:len(s)-len(suffix)] }; return s] *)
Definition TrimSuffix (s suffix : string) : string :=
  match strip (rev (bytes suffix)) (rev (bytes s)) with
  | Some r => str (rev r)
  | None => s
  end.

(** The byte loop of [ToLower]: ['A' <= c && c <= 'Z'] gives [c + 'a' - 'A']. *)
Definition lower_byte (c : ascii) : ascii :=
  let n := nat_of_ascii c in
  if (65 <=? n) && (n <=? 90) then ascii_of_nat (n + 32) else c.

(** [c < utf8.RuneSelf] for every byte. *)
Definition isASCII (s : list ascii) : bool := forallb (fun c => nat_of_ascii c <? 128) s.

(** func ToLower(s string) string: byte by byte on an ASCII-only string,
    else [Map(unicode.ToLower, s)], which [unicodeLower] stands for. *)
Definition ToLower (unicodeLower : string -> string) (s : string) : string :=
  if isASCII (bytes s) then str (map lower_byte (bytes s)) else unicodeLower s.

End strings.

(** ** Package path/filepath (Separator = '/') *)

Module filepath.

Definition Separator : ascii := "/"%char.
Definition dot : ascii := "."%char.

(** os.IsPathSeparator *)
Definition IsPathSeparator (c : ascii) : bool := byte_eqb c Separator.

(** The output buffer [lazybuf] of [Clean] is kept as the list of the bytes
    written so far, last byte first: [out.w] is its length, [out.append c]
    is [c :: out], [out.w--] drops the head. *)

(** The backtracking of a [..] element:
    [out.w--; for out.w > dotdot && !IsPathSeparator(out.index(out.w)) { out.w-- }].
    [out.index(out.w)] is the byte that was dropped last. *)
Fixpoint backtrack (dotdot : nat) (out : list ascii) : list ascii :=
  match out with
  | [] => []
  | c :: out' =>
      if (dotdot <? length out') && negb (IsPathSeparator c)
      then backtrack dotdot out'
      else out'
  end.

(** [span_elem p] splits [p] at its first separator: the copy loop
    [for ; r < n && !IsPathSeparator(path[r]); r++ { out.append(path[r]) }]. *)
Fixpoint span_elem (p : list ascii) : list ascii * list ascii :=
  match p with
  | [] => ([], [])
  | c :: p' =>
      if IsPathSeparator c then ([], p)
      else let '(e, r) := span_elem p' in (c :: e, r)
  end.

Definition at_elem_end (p : list ascii) : bool :=
  match p with
  | [] => true
  | c :: _ => IsPathSeparator c
  end.

(** The main loop [for r < n { switch ... }] of [Clean]; [path] is
    [path[r:]]. Every iteration consumes at least one byte, so
    [length path] iterations are enough ([clean_loop_fuel]). *)
Fixpoint clean_loop (fuel : nat) (rooted : bool) (path out : list ascii)
    (dotdot : nat) : list ascii :=
  match fuel with
  | 0 => out
  | S fuel' =>
      match path with
      | [] => out
      | c :: rest =>
          if IsPathSeparator c then
            (* empty path element *)
            clean_loop fuel' rooted rest out dotdot
          else if byte_eqb c dot && at_elem_end rest then
            (* . element *)
            clean_loop fuel' rooted rest out dotdot
          else if byte_eqb c dot
                  && match rest with
                     | d :: rest2 => byte_eqb d dot && at_elem_end rest2
                     | [] => false
                     end then
            (* .. element: remove to last separator *)
            let rest2 := tl rest in
            if dotdot <? length out then
              (* can backtrack *)
              clean_loop fuel' rooted rest2 (backtrack dotdot out) dotdot
            else if negb rooted then
              (* cannot backtrack, but not rooted, so append .. element *)
              let out1 := if 0 <? length out then Separator :: out else out in
              let out2 := dot :: dot :: out1 in
              clean_loop fuel' rooted rest2 out2 (length out2)
            else
              clean_loop fuel' rooted rest2 out dotdot
          else
            (* real path element: add slash if needed, copy element *)
            let out1 :=
              if (rooted && negb (length out =? 1))
                 || (negb rooted && negb (length out =? 0))
              then Separator :: out else out in
            let '(e, rest') := span_elem path in
            clean_loop fuel' rooted rest' (rev e ++ out1) dotdot
      end
  end.

Definition clean_bytes (path : list ascii) : list ascii :=
  match path with
  | [] => [dot]
  | c :: rest =>
      let rooted := IsPathSeparator c in
      let out :=
        if rooted
        then clean_loop (length path) rooted rest [Separator] 1
        else clean_loop (length path) rooted path [] 0 in
      (* Turn empty string into "." *)
      rev (if length out =? 0 then [dot] else out)
  end.

(** func Clean(path string) string *)
Definition Clean (path : string) : string := str (clean_bytes (bytes path)).

(** [path[0 : i+1]] for the index [i] of the last separator of [path]
    (the empty string when there is none), on the reversed path:
    [i := len(path) - 1; for i >= 0 && !IsPathSeparator(path[i]) { i-- }]. *)
Fixpoint drop_last_elem (rpath : list ascii) : list ascii :=
  match rpath with
  | [] => []
  | c :: r => if IsPathSeparator c then rpath else drop_last_elem r
  end.

(** func Dir(path string) string (the volume name is empty) *)
Definition Dir (path : string) : string :=
  str (clean_bytes (rev (drop_last_elem (rev (bytes path))))).

(** strings.Join(elems, string(Separator)) *)
Fixpoint join_sep (elems : list string) : list ascii :=
  match elems with
  | [] => []
  | [e] => bytes e
  | e :: es => bytes e ++ Separator :: join_sep es
  end.

(** func Join(elem ...string) string:
    [for i, e := range elem { if e != "" { return Clean(strings.Join(elem[i:], "/")) } }; return ""] *)
Fixpoint Join (elem : list string) : string :=
  match elem with
  | [] => ""
  | e :: es =>
      if String.eqb e "" then Join es
      else str (clean_bytes (join_sep elem))
  end.

(** The scan of [Ext] from the end of the path; [acc] is [path[i+1:]]:
    [for i := len(path) - 1; i >= 0 && !IsPathSeparator(path[i]); i-- {
       if path[i] == '.' { return path[i:] } }; return ""]. *)
Fixpoint ext_scan (rpath acc : list ascii) : list ascii :=
  match rpath with
  | [] => []
  | c :: r =>
      if IsPathSeparator c then []
      else if byte_eqb c dot then c :: acc
      else ext_scan r (c :: acc)
  end.

(** func Ext(path string) string *)
Definition Ext (path : string) : string := str (ext_scan (rev (bytes path)) []).

(** Strip trailing slashes:
    [for len(path) > 0 && IsPathSeparator(path[len(path)-1]) { path = path[0 : len(path)-1] }]. *)
Fixpoint strip_trailing (rpath : list ascii) : list ascii :=
  match rpath with
  | [] => []
  | c :: r => if IsPathSeparator c then strip_trailing r else rpath
  end.

(** Find the last element; [acc] is [path[i+1:]]:
    [i := len(path) - 1; for i >= 0 && !IsPathSeparator(path[i]) { i-- };
     if i >= 0 { path = path[i+1:] }]. *)
Fixpoint last_elem (rpath acc : list ascii) : list ascii :=
  match rpath with
  | [] => acc
  | c :: r => if IsPathSeparator c then acc else last_elem r (c :: acc)
  end.

(** func Base(path string) string *)
Definition Base (path : string) : string :=
  if String.eqb path "" then "."
  else
    let e := last_elem (strip_trailing (rev (bytes path))) [] in
    (* If empty now, it had only slashes. *)
    match e with
    | [] => str [Separator]
    | _ => str e
    end.

(** func ToSlash(path string) string:
    [if Separator == '/' { return path }; return strings.ReplaceAll(path, string(Separator), "/")] *)
Definition ToSlash (path : string) : string := path.

End filepath.

(** ** Package strconv and the verb [%0*d] of fmt *)

Module strconv.

Definition digit (d : nat) : ascii := ascii_of_nat (48 + d).

(** The digits of [u], least significant first (formatBits, base 10):
    [for u >= 10 { q := u / 10; a[i] = digit(u - q*10); u = q }; a[i] = digit(u)].
    [u] iterations are enough for [u]. *)
Fixpoint digits_rev (fuel u : nat) : list ascii :=
  match fuel with
  | 0 => [digit u]
  | S f =>
      if 10 <=? u then digit (u mod 10) :: digits_rev f (u / 10)
      else [digit u]
  end.

(** func Itoa(i int) string, for the lengths and counters of the
    conversion, which are never negative. *)
Definition Itoa (i : nat) : string := str (rev (digits_rev i i)).

(** The digit loop of Atoi: [ch -= '0'; if ch > 9 { syntax error }; n = n*10 + int(ch)]. *)
Fixpoint atoi_digits (ds : list ascii) (n : Z) : option Z :=
  match ds with
  | [] => Some n
  | ch :: ds' =>
      let c := nat_of_ascii ch in
      if (48 <=? c) && (c <=? 57)
      then atoi_digits ds' (n * 10 + Z.of_nat (c - 48))%Z
      else None
  end.

(** func Atoi(s string) (int, error), with a 64-bit int: an optional
    sign, then decimal digits; a value out of range is an error. *)
Definition Atoi (s : string) : option Z :=
  match bytes s with
  | [] => None
  | c :: r =>
      let neg := byte_eqb c "-"%char in
      let ds := if neg || byte_eqb c "+"%char then r else c :: r in
      match ds with
      | [] => None
      | _ =>
          match atoi_digits ds 0%Z with
          | None => None
          | Some n =>
              let v := if neg then (- n)%Z else n in
              if ((- 2 ^ 63 <=? v) && (v <? 2 ^ 63))%Z then Some v else None
          end
      end
  end.

End strconv.

Module fmt.

(** [%0*d] of a non-negative integer: its digits, padded with zeros on
    the left up to [width]. *)
Definition pad0 (width : nat) (ds : list ascii) : list ascii :=
  replicate (width - length ds) "0"%char ++ ds.

(** fmt.Sprintf("page%0*d%s", width, index, ext) *)
Definition Sprintf_page (width index : nat) (ext : string) : string :=
  "page" +:+ str (pad0 width (bytes (strconv.Itoa index))) +:+ ext.

End fmt.

(** ** UTF-8 decoding, as the [range] clause over a string does it *)

Module utf8.

Definition RuneError : Z := 0xFFFD.

Definition byteval (c : ascii) : Z := Z.of_nat (nat_of_ascii c).

(** The table [first] and the [acceptRanges] it points to: an ASCII byte,
    an invalid first byte, or the size of the sequence with the accepted
    range of its second byte. *)
Inductive firstInfo := AS | XX | SZ (size : nat) (lo hi : Z).

Definition first (s0 : Z) : firstInfo :=
  (if s0 <? 0x80 then AS
   else if s0 <? 0xC2 then XX
   else if s0 <? 0xE0 then SZ 2 0x80 0xBF
   else if s0 =? 0xE0 then SZ 3 0xA0 0xBF
   else if s0 <? 0xED then SZ 3 0x80 0xBF
   else if s0 =? 0xED then SZ 3 0x80 0x9F
   else if s0 <? 0xF0 then SZ 3 0x80 0xBF
   else if s0 =? 0xF0 then SZ 4 0x90 0xBF
   else if s0 <? 0xF4 then SZ 4 0x80 0xBF
   else if s0 =? 0xF4 then SZ 4 0x80 0x8F
   else XX)%Z.

Definition locb : Z := 0x80.
Definition hicb : Z := 0xBF.
Definition maskx : Z := 0x3F.
Definition mask2 : Z := 0x1F.
Definition mask3 : Z := 0x0F.
Definition mask4 : Z := 0x07.

Definition cont (s : Z) : bool := ((locb <=? s) && (s <=? hicb))%Z.

(** func DecodeRuneInString(s string) (rune, int), on a non-empty string
    [s0 :: r]: the rune and its width; an invalid or short sequence is
    (RuneError, 1). *)
Definition DecodeRune (s0 : ascii) (r : list ascii) : Z * nat :=
  let x0 := byteval s0 in
  match first x0 with
  | AS => (x0, 1)
  | XX => (RuneError, 1)
  | SZ sz lo hi =>
      if S (length r) <? sz then (RuneError, 1)
      else
        match r with
        | [] => (RuneError, 1)
        | s1 :: r1 =>
            let x1 := byteval s1 in
            if ((x1 <? lo) || (hi <? x1))%Z then (RuneError, 1)
            else if sz <=? 2 then
              (Z.lor (Z.shiftl (Z.land x0 mask2) 6) (Z.land x1 maskx), 2)
            else
              match r1 with
              | [] => (RuneError, 1)
              | s2 :: r2 =>
                  let x2 := byteval s2 in
                  if negb (cont x2) then (RuneError, 1)
                  else if sz <=? 3 then
                    (Z.lor (Z.lor (Z.shiftl (Z.land x0 mask3) 12)
                                  (Z.shiftl (Z.land x1 maskx) 6))
                           (Z.land x2 maskx), 3)
                  else
                    match r2 with
                    | [] => (RuneError, 1)
                    | s3 :: _ =>
                        let x3 := byteval s3 in
                        if negb (cont x3) then (RuneError, 1)
                        else
                          (Z.lor (Z.lor (Z.lor (Z.shiftl (Z.land x0 mask4) 18)
                                               (Z.shiftl (Z.land x1 maskx) 12))
                                        (Z.shiftl (Z.land x2 maskx) 6))
                                 (Z.land x3 maskx), 4)
                    end
              end
        end
  end.

(** The runes that [for _, r := range s] yields, in order. Every step
    consumes the width of the rune it decodes, at least one byte, so
    [length s] steps are enough. *)
Fixpoint range_loop (fuel : nat) (s : list ascii) : list Z :=
  match fuel with
  | 0 => []
  | S f =>
      match s with
      | [] => []
      | s0 :: r =>
          let '(rune, width) := DecodeRune s0 r in
          rune :: range_loop f (drop width s)
      end
  end.

Definition runes (s : string) : list Z := range_loop (String.length s) (bytes s).

End utf8.

(** ** golang.org/x/net/html: the parsed tree *)

Module html.

Inductive NodeType :=
  ErrorNode | TextNode | DocumentNode | ElementNode | CommentNode | DoctypeNode | RawNode.

Definition NodeType_eqb (a b : NodeType) : bool :=
  match a, b with
  | ErrorNode, ErrorNode | TextNode, TextNode | DocumentNode, DocumentNode
  | ElementNode, ElementNode | CommentNode, CommentNode
  | DoctypeNode, DoctypeNode | RawNode, RawNode => true
  | _, _ => false
  end.

Record Attribute := { Namespace : string; Key : string; Val : string }.

(** A node with its children from [FirstChild] along [NextSibling]. *)
#[local] Unset Elimination Schemes.
Inductive Node :=
  mkNode (Type_ : NodeType) (Data : string) (Attr : list Attribute) (children : list Node).
#[local] Set Elimination Schemes.

End html.

(** ** archive/zip and io: the input archive and the output archive *)

Module zip.

(** What reading an opened entry gives: [data], then end of file or, when
    [failed], a read error. *)
Record stream := { data : string; failed : bool }.

(** An entry of [zipReader.File]; [Open] is [None] when [f.Open()]
    returns an error. *)
Record File := { Name : string; Open : option stream }.

(** An entry written to the output archive. *)
Record Entry := { entry_name : string; entry_data : string }.

End zip.

Module io.

(** func ReadAll(r Reader) ([]byte, error) *)
Definition ReadAll (r : zip.stream) : option string :=
  if zip.failed r then None else Some (zip.data r).

End io.

(** ** Package main: the data *)

Record Container := { FullPath : string }.

Record Item := { ID : string; Href : string }.

Record Itemref := { IDRef : string }.

Record Metadata := {
  Identifier : list string;
  Title : list string;
  Language : list string;
  Creator : list string;
  Publisher : list string;
  Date : list string;
  Rights : list string;
  Series : list string;
  SeriesID : list string;
  Number : list string
}.

Record Package := {
  Metadata_ : Metadata;
  Manifest_Items : list Item;
  Spine_Itemrefs : list Itemref
}.

(** The fields of ComicInfo that [createComicInfo] sets; every other field
    of the struct keeps its zero value. *)
Record ComicInfo := {
  ci_Title : string;
  ci_Series : string;
  ci_Number : string;
  ci_Notes : string;
  ci_Year : Z;
  ci_Writer : string;
  ci_Penciller : string;
  ci_Publisher : string;
  ci_LanguageISO : string;
  ci_BlackAndWhite : string;
  ci_Manga : string;
  ci_AgeRating : string
}.

(** The errors [processFile] returns, by their messages. *)
Inductive error :=
  | ErrExtension      (* input file must have .epub extension *)
  | ErrOpenEpub       (* error opening EPUB file *)
  | ErrFindContainer  (* error finding container.xml *)
  | ErrDecodeContainer (* error decoding container.xml *)
  | ErrNoOPF          (* vol.opf file not found in container *)
  | ErrFindOPF        (* error finding vol.opf *)
  | ErrDecodeOPF      (* error decoding vol.opf *)
  | ErrNoPages        (* no pages found in spine *)
  | ErrCreateZip.     (* error creating ZIP file *)

Inductive result (A : Type) :=
  | Ok (a : A)
  | Err (e : error).
Arguments Ok {A} a.
Arguments Err {A} e.

#[global] Instance result_bind : MBind result := fun A B k r =>
  match r with
  | Ok a => k a
  | Err e => Err e
  end.

Definition orErr {A} (o : option A) (e : error) : result A :=
  match o with
  | Some a => Ok a
  | None => Err e
  end.

Definition check (b : bool) (e : error) : result unit :=
  if b then Ok tt else Err e.

(** The library functions the conversion calls on the contents of entries:
    the two [xml.NewDecoder(r).Decode] calls, [html.Parse] and
    [xml.MarshalIndent(comicInfo, "", "  ")]; [None] is a returned error. *)
Record Lib := {
  decodeContainer : zip.stream -> option Container;
  decodePackage : zip.stream -> option Package;
  html_Parse : string -> option html.Node;
  xml_MarshalIndent : ComicInfo -> option string
}.

(** The file system of one run: [zip.OpenReader] on a path ([None] is an
    error), whether [os.Create] succeeds on a path, and whether
    [zipw.Create] succeeds for a name on the archive written so far. *)
Record World := {
  zip_OpenReader : string -> option (list zip.File);
  os_Create : string -> bool;
  zipw_Create : list zip.Entry -> string -> bool
}.

(** ** Package main: the metadata mapper *)

(** func getFirst(items []string) string *)
Definition getFirst (items : list string) : string :=
  match items with
  | x :: _ => x
  | [] => ""
  end.

(** The test of [containsJapanese] on one rune. *)
Definition japanese_rune (r : Z) : bool :=
  ((0x3040 <=? r) && (r <=? 0x309F)       (* Hiragana *)
   || (0x30A0 <=? r) && (r <=? 0x30FF)    (* Katakana *)
   || (0x4E00 <=? r) && (r <=? 0x9FBF))%Z (* Kanji *).

Fixpoint containsJapanese_loop (rs : list Z) : bool :=
  match rs with
  | [] => false
  | r :: rs' => if japanese_rune r then true else containsJapanese_loop rs'
  end.

(** func containsJapanese(s string) bool *)
Definition containsJapanese (s : string) : bool :=
  containsJapanese_loop (utf8.runes s).

(** func createComicInfo(metadata Metadata) *ComicInfo *)
Definition createComicInfo (metadata : Metadata) : ComicInfo :=
  let series := getFirst (Series metadata) in
  (* Extract year from date if possible *)
  let year :=
    match Date metadata with
    | dateStr :: _ =>
        if 4 <=? String.length dateStr then
          match strconv.Atoi (substring 0 4 dateStr) with
          | Some year => year
          | None => 0%Z
          end
        else 0%Z
    | [] => 0%Z
    end in
  (* Set Manga to Yes if series is in Japanese (simplified heuristic) *)
  let manga :=
    if negb (String.eqb series "") then
      if containsJapanese series then "Yes" else "No"
    else "Unknown" in
  (* Map creator to writer (or penciller if appropriate) *)
  let creator := getFirst (Creator metadata) in
  {| ci_Title := getFirst (Title metadata);
     ci_Series := series;
     ci_Number := getFirst (Number metadata);
     ci_Notes := "Generated from EPUB metadata";
     ci_Year := year;
     ci_Writer := creator;
     ci_Penciller := creator;
     ci_Publisher := getFirst (Publisher metadata);
     ci_LanguageISO := getFirst (Language metadata);
     ci_BlackAndWhite := "Unknown";
     ci_Manga := manga;
     ci_AgeRating := "Unknown" |}.

(** func hasMetadata(metadata Metadata) bool *)
Definition hasMetadata (metadata : Metadata) : bool :=
  (0 <? length (Title metadata))
  || (0 <? length (Creator metadata))
  || (0 <? length (Publisher metadata))
  || (0 <? length (Series metadata))
  || (0 <? length (Date metadata))
  || (0 <? length (Language metadata))
  || (0 <? length (Identifier metadata))
  || (0 <? length (Number metadata)).

(** ** Package main: the conversion *)

(** func findAndOpenFile(zipReader, fileName) (io.ReadCloser, error): the
    first entry of that name, opened. *)
Fixpoint findAndOpenFile (files : list zip.File) (fileName : string) : option zip.stream :=
  match files with
  | [] => None
  | f :: fs =>
      if String.eqb (zip.Name f) fileName then zip.Open f
      else findAndOpenFile fs fileName
  end.

(** The loop over [n.Attr] of an img element in [extractImagesFromXHTML]. *)
Fixpoint img_attr_loop (pageHref : string) (attrs : list html.Attribute)
    (srcs : list string) : list string :=
  match attrs with
  | [] => srcs
  | a :: attrs' =>
      if String.eqb (html.Key a) "src" then
        let imgPath := filepath.Join [filepath.Dir pageHref; html.Val a] in
        let imgPath := filepath.ToSlash imgPath in
        let imgPath := strings.TrimPrefix imgPath "/" in
        srcs ++ [imgPath]
      else img_attr_loop pageHref attrs' srcs
  end.

(** The closure [f] of [extractImagesFromXHTML]; [srcs] is the captured
    variable it appends to. *)
Fixpoint walk (pageHref : string) (n : html.Node) (srcs : list string) : list string :=
  match n with
  | html.mkNode ty data attr cs =>
      let srcs :=
        if html.NodeType_eqb ty html.ElementNode && String.eqb data "img"
        then img_attr_loop pageHref attr srcs
        else srcs in
      (fix children (cs : list html.Node) (srcs : list string) : list string :=
         match cs with
         | [] => srcs
         | c :: cs' => children cs' (walk pageHref c srcs)
         end) cs srcs
  end.

(** func extractImagesFromXHTML(htmlContent, pageHref string, srcs []string) []string *)
Definition extractImagesFromXHTML (lib : Lib) (htmlContent pageHref : string)
    (srcs : list string) : list string :=
  match html_Parse lib htmlContent with
  | None => srcs
  | Some doc => walk pageHref doc srcs
  end.

(** func normalizeImageName(originalName string, index int, totalFiles int) string *)
Definition normalizeImageName (originalName : string) (index totalFiles : nat) : string :=
  (* Extract file extension *)
  let ext := filepath.Ext originalName in
  (* Calculate number of digits needed for total *)
  let totalDigits := String.length (strconv.Itoa totalFiles) in
  (* Create new name with prefix "page" + padded index *)
  fmt.Sprintf_page totalDigits index ext.

(** func addImageToZip(zipw, zipReader, imgPath string, imageIndex int, total int);
    [zipw] is the output archive so far. The bytes [io.Copy] read before a
    read error stay in the entry. *)
Fixpoint addImageToZip (w : World) (zipw : list zip.Entry) (files : list zip.File)
    (imgPath : string) (imageIndex total : nat) : list zip.Entry :=
  match files with
  | [] => zipw (* Image not found in EPUB *)
  | f :: fs =>
      if String.eqb (zip.Name f) imgPath then
        match zip.Open f with
        | None => zipw
        | Some srcFile =>
            let name := filepath.Base (normalizeImageName imgPath imageIndex total) in
            if zipw_Create w zipw name
            then zipw ++ [ {| zip.entry_name := name; zip.entry_data := zip.data srcFile |} ]
            else zipw
        end
      else addImageToZip w zipw fs imgPath imageIndex total
  end.

(** [for _, item := range pkg.Manifest.Items { pageMap[item.ID] = item.Href }] *)
Fixpoint manifest_loop (items : list Item) (pageMap : gmap string string) : gmap string string :=
  match items with
  | [] => pageMap
  | item :: items' => manifest_loop items' (<[ID item := Href item]> pageMap)
  end.

(** [for _, ref := range pkg.Spine.Itemrefs { href, exists := pageMap[ref.IDRef]; if exists { ... } }] *)
Fixpoint spine_loop (pageMap : gmap string string) (volOPFPath : string)
    (refs : list Itemref) (pages : list string) : list string :=
  match refs with
  | [] => pages
  | ref :: refs' =>
      match pageMap !! IDRef ref with
      | Some href =>
          (* Convert relative path to absolute path based on volOPFPath *)
          let absPath := filepath.Join [filepath.Dir volOPFPath; href] in
          (* Normalize path separators to forward slashes *)
          let absPath := filepath.ToSlash absPath in
          let absPath := strings.TrimPrefix absPath "/" in
          spine_loop pageMap volOPFPath refs' (pages ++ [absPath])
      | None => spine_loop pageMap volOPFPath refs' pages
      end
  end.

(** The inner loop [for _, f := range zipReader.File { if f.Name == pageHref { ... } }]
    for one page: an entry that fails to open or to read is passed
    ([continue]), the first one that is read ends the loop ([break]). *)
Fixpoint page_loop (lib : Lib) (files : list zip.File) (pageHref : string)
    (imgSrcs : list string) : list string :=
  match files with
  | [] => imgSrcs
  | f :: fs =>
      if String.eqb (zip.Name f) pageHref then
        match zip.Open f with
        | None => page_loop lib fs pageHref imgSrcs
        | Some file =>
            match io.ReadAll file with
            | None => page_loop lib fs pageHref imgSrcs
            | Some content => extractImagesFromXHTML lib content pageHref imgSrcs
            end
        end
      else page_loop lib fs pageHref imgSrcs
  end.

(** [for _, pageHref := range pages { ... }] *)
Fixpoint pages_loop (lib : Lib) (files : list zip.File) (pages imgSrcs : list string)
    : list string :=
  match pages with
  | [] => imgSrcs
  | pageHref :: pages' => pages_loop lib files pages' (page_loop lib files pageHref imgSrcs)
  end.

(** [for _, src := range imgSrcs { addImageToZip(zipw, zipReader, src, imageIndex, len(imgSrcs)); imageIndex++ }],
    [srcs] being the rest of [imgSrcs] and [total] its whole length. *)
Fixpoint images_loop (w : World) (files : list zip.File) (srcs : list string)
    (imageIndex total : nat) (zipw : list zip.Entry) : list zip.Entry :=
  match srcs with
  | [] => zipw
  | src :: srcs' =>
      images_loop w files srcs' (S imageIndex) total
        (addImageToZip w zipw files src imageIndex total)
  end.

(** xml.Header *)
Definition xml_Header : string :=
  "<?xml version=" +:+ String "034" "1.0" +:+ String "034" " encoding="
  +:+ String "034" "UTF-8" +:+ String "034" "?>" +:+ String "010" "".

(** Generate and add ComicInfo.xml to the ZIP if metadata exists; a failed
    [Write] of the content is only logged. *)
Definition add_ComicInfo (lib : Lib) (w : World) (metadata : Metadata)
    (zipw : list zip.Entry) : list zip.Entry :=
  if hasMetadata metadata then
    let comicInfo := createComicInfo metadata in
    match xml_MarshalIndent lib comicInfo with
    | None => zipw
    | Some comicInfoXML =>
        (* Add XML declaration to the beginning of the XML *)
        let comicInfoContent := xml_Header +:+ comicInfoXML in
        if zipw_Create w zipw "ComicInfo.xml"
        then zipw ++ [ {| zip.entry_name := "ComicInfo.xml";
                          zip.entry_data := comicInfoContent |} ]
        else zipw
    end
  else zipw.

(** [outputPath = epubPath[:len(epubPath)-len(".epub")] + ".cbz"] when no
    output path is given. *)
Definition output_path (epubPath outputPath : string) : string :=
  if String.eqb outputPath ""
  then substring 0 (String.length epubPath - String.length ".epub") epubPath +:+ ".cbz"
  else outputPath.

(** func processFile(epubPath string, outputPath string) error.
    [Err e] is the returned error, before anything is written; [Ok zipw] is
    a nil error, with the entries of the archive written at the output path. *)
Definition processFile (lib : Lib) (w : World) (epubPath outputPath : string)
    : result (list zip.Entry) :=
  (* Validate input file *)
  check (String.eqb (filepath.Ext epubPath) ".epub") ErrExtension ;;
  (* Generate output path if not provided *)
  let outputPath := output_path epubPath outputPath in
  (* Open the EPUB file *)
  files ← orErr (zip_OpenReader w epubPath) ErrOpenEpub ;
  (* 1. Find the vol.opf file *)
  containerFile ← orErr (findAndOpenFile files "META-INF/container.xml") ErrFindContainer ;
  container ← orErr (decodeContainer lib containerFile) ErrDecodeContainer ;
  let volOPFPath := FullPath container in
  check (negb (String.eqb volOPFPath "")) ErrNoOPF ;;
  (* 2. Read vol.opf to get the metadata and pages *)
  opfFile ← orErr (findAndOpenFile files volOPFPath) ErrFindOPF ;
  pkg ← orErr (decodePackage lib opfFile) ErrDecodeOPF ;
  let metadata := Metadata_ pkg in
  (* Find hrefs of pages via spine *)
  let pageMap := manifest_loop (Manifest_Items pkg) ∅ in
  let pages := spine_loop pageMap volOPFPath (Spine_Itemrefs pkg) [] in
  check (negb (length pages =? 0)) ErrNoPages ;;
  (* 3. Open each page and extract images *)
  check (os_Create w outputPath) ErrCreateZip ;;
  let imgSrcs := pages_loop lib files pages [] in
  let zipw := images_loop w files imgSrcs 0 (length imgSrcs) [] in
  let zipw := add_ComicInfo lib w metadata zipw in
  Ok zipw.

(** ** Package main: the batch runner *)

(** An entry of a directory, as [os.ReadDir] lists it or as
    [filepath.Walk] visits it: its name or path, and [IsDir()]. *)
Record DirEntry := { de_Name : string; de_IsDir : bool }.

(** What [processDirectory] takes from the file system and from the
    library: [strings.Map(unicode.ToLower, _)], [filepath.Rel] ([None] is an
    error) and whether [os.MkdirAll] succeeds. *)
Record DirLib := {
  unicodeLower : string -> string;
  filepath_Rel : string -> string -> option string;
  os_MkdirAll : string -> bool
}.

(** The callback of [filepath.Walk] over the visited entries, [de_Name]
    being the path:
    [if !info.IsDir() && strings.HasSuffix(strings.ToLower(path), ".epub") { epubFiles = append(epubFiles, path) }] *)
Fixpoint walk_loop (dl : DirLib) (visited : list DirEntry) (epubFiles : list string)
    : list string :=
  match visited with
  | [] => epubFiles
  | info :: visited' =>
      if negb (de_IsDir info)
         && strings.HasSuffix (strings.ToLower (unicodeLower dl) (de_Name info)) ".epub"
      then walk_loop dl visited' (epubFiles ++ [de_Name info])
      else walk_loop dl visited' epubFiles
  end.

(** The loop over the entries of the top-level directory:
    [if !entry.IsDir() && strings.HasSuffix(strings.ToLower(entry.Name()), ".epub") {
       epubFiles = append(epubFiles, filepath.Join(sourceDir, entry.Name())) }] *)
Fixpoint readdir_loop (dl : DirLib) (sourceDir : string) (entries : list DirEntry)
    (epubFiles : list string) : list string :=
  match entries with
  | [] => epubFiles
  | entry :: entries' =>
      if negb (de_IsDir entry)
         && strings.HasSuffix (strings.ToLower (unicodeLower dl) (de_Name entry)) ".epub"
      then readdir_loop dl sourceDir entries'
             (epubFiles ++ [filepath.Join [sourceDir; de_Name entry]])
      else readdir_loop dl sourceDir entries' epubFiles
  end.

(** The [finalOutputPath] that the goroutine of [processDirectory] computes
    for [path]; [None] when it returns before calling [processFile]. *)
Definition final_output_path (dl : DirLib) (sourceDir outputDir : string) (recursive : bool)
    (path : string) : option string :=
  if negb (String.eqb outputDir "") then
    (* Generate output path preserving directory structure if recursive *)
    if recursive then
      match filepath_Rel dl sourceDir path with
      | None => None
      | Some relPath =>
          (* Create corresponding output directory structure *)
          let outputDirPath := filepath.Join [outputDir; filepath.Dir relPath] in
          if negb (os_MkdirAll dl outputDirPath) then None
          else
            let baseName := strings.TrimSuffix (filepath.Base path) ".epub" in
            Some (filepath.Join [outputDirPath; baseName +:+ ".cbz"])
      end
    else
      (* Just put output in the output directory without subdirectory structure *)
      let baseName := strings.TrimSuffix (filepath.Base path) ".epub" in
      Some (filepath.Join [outputDir; baseName +:+ ".cbz"])
  else
    (* Use default naming in source directory *)
    Some "".

(** The body of the goroutine for one file: the result of [processFile],
    when it is called. *)
Definition directory_job (lib : Lib) (w : World) (dl : DirLib) (sourceDir outputDir : string)
    (recursive : bool) (path : string) : option (result (list zip.Entry)) :=
  match final_output_path dl sourceDir outputDir recursive path with
  | None => None
  | Some finalOutputPath => Some (processFile lib w path finalOutputPath)
  end.

(** ** A small archive to run the conversion on

    The decoders of [Fixture.lib] are tables from the documents below to the
    values the Go decoders give for them. *)

Module Fixture.

Definition lookup_doc {A} (table : list (string * A)) (text : string) : option A :=
  match List.find (fun e => String.eqb (fst e) text) table with
  | Some e => Some (snd e)
  | None => None
  end.

Definition decode_with {A} (table : list (string * A)) (r : zip.stream) : option A :=
  if zip.failed r then None else lookup_doc table (zip.data r).

Definition elem (name : string) (attrs : list (string * string))
    (children : list html.Node) : html.Node :=
  html.mkNode html.ElementNode name
    (map (fun a => {| html.Namespace := ""; html.Key := fst a; html.Val := snd a |}) attrs)
    children.

(** The tree of a document whose body holds the given elements. *)
Definition document (body : list html.Node) : html.Node :=
  html.mkNode html.DocumentNode "" []
    [elem "html" [] [elem "head" [] []; elem "body" [] body]].

Definition img (src : string) : html.Node := elem "img" [("src", src)] [].

Definition container_xml : string :=
  "<container><rootfiles><rootfile full-path='OEBPS/content.opf'/></rootfiles></container>".

Definition no_metadata : Metadata :=
  {| Identifier := []; Title := []; Language := []; Creator := []; Publisher := [];
     Date := []; Rights := []; Series := []; SeriesID := []; Number := [] |}.

Definition series_metadata (series : list string) : Metadata :=
  {| Identifier := []; Title := []; Language := []; Creator := []; Publisher := [];
     Date := []; Rights := []; Series := series; SeriesID := []; Number := [] |}.

Definition item (id href : string) : Item := {| ID := id; Href := href |}.
Definition itemref (id : string) : Itemref := {| IDRef := id |}.

(** Two pages in the spine, no metadata. *)
Definition opf_two_pages : string :=
  "<package><manifest><item id='p1' href='p1.xhtml'/><item id='p2' href='p2.xhtml'/></manifest><spine><itemref idref='p1'/><itemref idref='p2'/></spine></package>".

Definition package_two_pages : Package :=
  {| Metadata_ := no_metadata;
     Manifest_Items := [item "p1" "p1.xhtml"; item "p2" "p2.xhtml"];
     Spine_Itemrefs := [itemref "p1"; itemref "p2"] |}.

(** Three spine entries, the second one without a manifest item, and a
    series title. *)
Definition opf_dangling : string :=
  "<package><metadata xmlns:dc='http://purl.org/dc/elements/1.1/'><dc:series>One</dc:series></metadata><manifest><item id='p1' href='p1.xhtml'/><item id='p2' href='p2.xhtml'/></manifest><spine><itemref idref='p1'/><itemref idref='gone'/><itemref idref='p2'/></spine></package>".

Definition package_dangling : Package :=
  {| Metadata_ := series_metadata ["One"];
     Manifest_Items := [item "p1" "p1.xhtml"; item "p2" "p2.xhtml"];
     Spine_Itemrefs := [itemref "p1"; itemref "gone"; itemref "p2"] |}.

(** A spine whose only entry has no manifest item. *)
Definition opf_all_dangling : string :=
  "<package><manifest><item id='p1' href='p1.xhtml'/></manifest><spine><itemref idref='gone'/></spine></package>".

Definition package_all_dangling : Package :=
  {| Metadata_ := no_metadata;
     Manifest_Items := [item "p1" "p1.xhtml"];
     Spine_Itemrefs := [itemref "gone"] |}.

Definition page_two_images : string :=
  "<html><body><img src='images/a.jpg'/><img src='images/b.jpg'/></body></html>".
Definition page_one_image : string :=
  "<html><body><div><img src='images/c.PNG'/></div></body></html>".
Definition page_lost_image : string :=
  "<html><body><img src='images/lost.jpg'/></body></html>".

(** A stand-in for the serializer: the examples look at the presence of
    the entry only. *)
Definition marshal (c : ComicInfo) : option string :=
  Some ("<ComicInfo><Series>" +:+ ci_Series c +:+ "</Series><Manga>"
        +:+ ci_Manga c +:+ "</Manga></ComicInfo>").

Definition lib : Lib :=
  {| decodeContainer := decode_with [(container_xml, {| FullPath := "OEBPS/content.opf" |})];
     decodePackage :=
       decode_with [(opf_two_pages, package_two_pages);
                    (opf_dangling, package_dangling);
                    (opf_all_dangling, package_all_dangling)];
     html_Parse :=
       lookup_doc
         [(page_two_images, document [img "images/a.jpg"; img "images/b.jpg"]);
          (page_one_image, document [elem "div" [] [img "images/c.PNG"]]);
          (page_lost_image, document [img "images/lost.jpg"])];
     xml_MarshalIndent := marshal |}.

Definition file (name content : string) : zip.File :=
  {| zip.Name := name; zip.Open := Some {| zip.data := content; zip.failed := false |} |}.

(** The archive at [book.epub], with the given package document and first
    page. *)
Definition archive (opf page1 : string) : list zip.File :=
  [ file "mimetype" "application/epub+zip";
    file "META-INF/container.xml" container_xml;
    file "OEBPS/content.opf" opf;
    file "OEBPS/p1.xhtml" page1;
    file "OEBPS/p2.xhtml" page_one_image;
    file "OEBPS/images/a.jpg" "A";
    file "OEBPS/images/b.jpg" "B";
    file "OEBPS/images/c.PNG" "C" ].

(** A file system that holds [files] at [book.epub] and accepts every
    write. *)
Definition world (files : list zip.File) : World :=
  {| zip_OpenReader := fun path => if String.eqb path "book.epub" then Some files else None;
     os_Create := fun _ => true;
     zipw_Create := fun _ _ => true |}.

(** The archive whose first page holds two images, and the one whose
    first page refers to an image that the archive does not hold. *)
Definition two_images : list zip.File := archive opf_two_pages page_two_images.
Definition lost_image : list zip.File := archive opf_dangling page_lost_image.

(** The file system after a first run: the output file exists, and no
    other file can be created. *)
Definition world_again (files : list zip.File) : World :=
  {| zip_OpenReader :=
       fun path =>
         if String.eqb path "book.epub" then Some files
         else if String.eqb path "book.cbz" then Some [] else None;
     os_Create := fun path => String.eqb path "book.cbz";
     zipw_Create := fun _ _ => true |}.

Definition convert (opf page1 : string) : result (list zip.Entry) :=
  processFile lib (world (archive opf page1)) "book.epub" "".

End Fixture.

(** ** More archives *)

Module Samples.

(** One page, and the identifier as the only metadata. *)
Definition opf_identifier_only : string :=
  "<package><metadata xmlns:dc='http://purl.org/dc/elements/1.1/'><dc:identifier>urn:isbn:0</dc:identifier></metadata><manifest><item id='p1' href='p1.xhtml'/></manifest><spine><itemref idref='p1'/></spine></package>".

Definition package_identifier_only : Package :=
  {| Metadata_ :=
       {| Identifier := ["urn:isbn:0"]; Title := []; Language := []; Creator := [];
          Publisher := []; Date := []; Rights := []; Series := []; SeriesID := [];
          Number := [] |};
     Manifest_Items := [Fixture.item "p1" "p1.xhtml"];
     Spine_Itemrefs := [Fixture.itemref "p1"] |}.

Definition lib : Lib :=
  {| decodeContainer :=
       Fixture.decode_with [(Fixture.container_xml, {| FullPath := "OEBPS/content.opf" |})];
     decodePackage :=
       Fixture.decode_with [(opf_identifier_only, package_identifier_only);
                            (Fixture.opf_two_pages, Fixture.package_two_pages)];
     html_Parse :=
       Fixture.lookup_doc
         [(Fixture.page_one_image,
           Fixture.document [Fixture.elem "div" [] [Fixture.img "images/c.PNG"]]);
          (Fixture.page_two_images,
           Fixture.document [Fixture.img "images/a.jpg"; Fixture.img "images/b.jpg"])];
     xml_MarshalIndent := Fixture.marshal |}.

(** An archive of the given package document and further entries. *)
Definition book (opf : string) (entries : list zip.File) : list zip.File :=
  Fixture.file "META-INF/container.xml" Fixture.container_xml
  :: Fixture.file "OEBPS/content.opf" opf :: entries.

(** An entry that does not open, and one whose reading fails. *)
Definition locked (name : string) : zip.File := {| zip.Name := name; zip.Open := None |}.
Definition damaged (name partial : string) : zip.File :=
  {| zip.Name := name; zip.Open := Some {| zip.data := partial; zip.failed := true |} |}.

Definition one_page : list zip.File :=
  book opf_identifier_only
    [Fixture.file "OEBPS/p1.xhtml" Fixture.page_one_image;
     Fixture.file "OEBPS/images/c.PNG" "C"].

(** A file system in which every directory can be made, seen from a base
    directory that the paths start with. *)
Definition dirlib : DirLib :=
  {| unicodeLower := fun s => s;
     filepath_Rel := fun basepath targpath =>
       Some (strings.TrimPrefix targpath (basepath +:+ "/"));
     os_MkdirAll := fun _ => true |}.

End Samples.

(** ** The files that the batch runner selects *)

(** [!entry.IsDir() && strings.HasSuffix(strings.ToLower(name), ".epub")] *)
Definition selected (dl : DirLib) (entry : DirEntry) : bool :=
  negb (de_IsDir entry)
  && strings.HasSuffix (strings.ToLower (unicodeLower dl) (de_Name entry)) ".epub".

(** ** What the claims speak of *)

(** No two adjacent separators in a path. *)
Fixpoint no_double_sep (l : list ascii) : bool :=
  match l with
  | a :: l' =>
      match l' with
      | b :: _ => negb (filepath.IsPathSeparator a && filepath.IsPathSeparator b)
      | [] => true
      end && no_double_sep l'
  | [] => true
  end.

(** A reference [ref] found in the document at [docPath], resolved against
    the directory of that document, with forward slashes and without a
    leading slash. *)
Definition resolve_against (docPath ref : string) : string :=
  strings.TrimPrefix (filepath.ToSlash (filepath.Join [filepath.Dir docPath; ref])) "/".

(** Induction on a tree, with the property known of every child. *)
Fixpoint Node_forall_ind (P : html.Node -> Prop)
    (step : forall ty data attr cs, Forall P cs -> P (html.mkNode ty data attr cs))
    (n : html.Node) : P n :=
  match n with
  | html.mkNode ty data attr cs =>
      step ty data attr cs
        ((fix all (cs : list html.Node) : Forall P cs :=
            match cs with
            | [] => @List.Forall_nil _ P
            | c :: cs' => @List.Forall_cons _ P c cs' (Node_forall_ind P step c) (all cs')
            end) cs)
  end.

(** The nodes of a tree in document order: a node, then the nodes of its
    children from the first to the last (pre-order). *)
Fixpoint preorder (n : html.Node) : list html.Node :=
  match n with
  | html.mkNode _ _ _ cs =>
      n :: (fix each (cs : list html.Node) : list html.Node :=
              match cs with
              | [] => []
              | c :: cs' => preorder c ++ each cs'
              end) cs
  end.

Definition node_attrs (n : html.Node) : list html.Attribute :=
  match n with html.mkNode _ _ attr _ => attr end.

(** An image element: an element whose local name is img. *)
Definition is_img (n : html.Node) : bool :=
  match n with
  | html.mkNode ty data _ _ => html.NodeType_eqb ty html.ElementNode && String.eqb data "img"
  end.

(** The value of the first src attribute, if there is one. *)
Fixpoint first_src (attrs : list html.Attribute) : option string :=
  match attrs with
  | [] => None
  | a :: attrs' => if String.eqb (html.Key a) "src" then Some (html.Val a) else first_src attrs'
  end.

(** The source of an image element that has a src attribute. *)
Definition img_src (n : html.Node) : option string :=
  if is_img n then first_src (node_attrs n) else None.

(** The sources of the image elements of a document, in document order. *)
Definition img_srcs (doc : html.Node) : list string := omap img_src (preorder doc).

(** A plain name of a file or of a directory: not empty, without
    separator, neither [.] nor [..]. *)
Definition plain_name (n : string) : bool :=
  negb (String.eqb n "") && negb (String.eqb n ".") && negb (String.eqb n "..")
  && forallb (fun c => negb (filepath.IsPathSeparator c)) (bytes n).

(** No separator among these bytes. *)
Definition no_sep (l : list ascii) : Prop := Forall (fun c => filepath.IsPathSeparator c = false) l.

(** A plain name, on bytes. *)
Definition plain (n : list ascii) : Prop :=
  n <> [] /\ no_sep n /\ n <> [filepath.dot] /\ n <> [filepath.dot; filepath.dot].

(** Names joined by slashes. *)
Fixpoint join_bytes (ns : list (list ascii)) : list ascii :=
  match ns with
  | [] => []
  | n :: ns' =>
      match ns' with
      | [] => n
      | _ :: _ => n ++ filepath.Separator :: join_bytes ns'
      end
  end.

(** The invariants of the loop of [filepath.Clean]. *)

(** The last byte written is not a separator, unless the buffer is the
    root. *)
Definition end_ok (rooted : bool) (out : list ascii) : Prop :=
  match out with
  | [] => True
  | c :: r => filepath.IsPathSeparator c = false \/ (rooted = true /\ r = [])
  end.

(** The invariant of the loop of [Clean] that backtracking needs. *)
Definition clean_pre (rooted : bool) (out : list ascii) (dotdot : nat) : Prop :=
  no_double_sep out = true
  /\ dotdot <= length out
  /\ end_ok rooted (drop (length out - dotdot) out).

Definition clean_inv (rooted : bool) (out : list ascii) (dotdot : nat) : Prop :=
  clean_pre rooted out dotdot /\ end_ok rooted out.

(** The references that the image elements of the document at [pageHref]
    give, in document order. *)
Definition img_refs (pageHref : string) (doc : html.Node) : list string :=
  map (resolve_against pageHref) (img_srcs doc).

(** The manifest declares an item of that id. *)
Definition in_manifest (items : list Item) (id : string) : bool :=
  existsb (fun item => String.eqb (ID item) id) items.

(** The resolved page paths of a spine: one for every item-ref whose id the
    manifest resolves, in the order of the spine. *)
Definition resolved_pages (pageMap : gmap string string) (volOPFPath : string)
    (refs : list Itemref) : list string :=
  omap (fun ref => resolve_against volOPFPath <$> pageMap !! IDRef ref) refs.

(** The content of the page document at [pageHref]: that of the first
    entry of this name that opens and reads. *)
Fixpoint page_content (files : list zip.File) (pageHref : string) : option string :=
  match files with
  | [] => None
  | f :: fs =>
      if String.eqb (zip.Name f) pageHref then
        match zip.Open f ≫= io.ReadAll with
        | Some content => Some content
        | None => page_content fs pageHref
        end
      else page_content fs pageHref
  end.

(** The tree of the page document at [pageHref], when it is read and parsed. *)
Definition page_doc (lib : Lib) (files : list zip.File) (pageHref : string)
    : option html.Node :=
  page_content files pageHref ≫= html_Parse lib.

(** The image references of one page. *)
Definition page_refs (lib : Lib) (files : list zip.File) (pageHref : string) : list string :=
  match page_doc lib files pageHref with
  | Some doc => img_refs pageHref doc
  | None => []
  end.

(** What is read of an image: the stream of the first entry of that name. *)
Definition image_stream (files : list zip.File) (imgPath : string) : option zip.stream :=
  findAndOpenFile files imgPath.

(** The entry written for the reference [src] at position [j] of [total]
    collected references, if its image is found and opens. *)
Definition image_entry (files : list zip.File) (total : nat) (j : nat) (src : string)
    : option zip.Entry :=
  r ← image_stream files src;
  Some {| zip.entry_name := filepath.Base (normalizeImageName src j total);
          zip.entry_data := zip.data r |}.

(** A list with the positions of its elements, counted from [start]. *)
Definition indexed {A} (start : nat) (l : list A) : list (nat * A) :=
  zip (seq start (length l)) l.

(** The output archive accepts every entry. *)
Definition accepts_entries (w : World) : Prop :=
  forall zipw name, zipw_Create w zipw name = true.

(** The name of the page at [index] of [N]: [page], the decimal digits of
    the index after as many zeros as they are short of the digits of [N],
    and the extension. *)
Definition page_name (N index : nat) (ext : string) : string :=
  let w := String.length (strconv.Itoa N) in
  let digits := strconv.Itoa index in
  "page" +:+ str (replicate (w - String.length digits) "0"%char) +:+ digits +:+ ext.

(** The image of a reference is found in the archive and opens. *)
Definition image_available (files : list zip.File) (src : string) : bool :=
  match image_stream files src with
  | Some _ => true
  | None => false
  end.

(** At least one of the recognized bibliographic fields has an occurrence
    in the package document. *)
Definition recognized_field_present (m : Metadata) : Prop :=
  Title m <> [] \/ Creator m <> [] \/ Publisher m <> [] \/ Series m <> []
  \/ Date m <> [] \/ Language m <> [] \/ Identifier m <> [] \/ Number m <> [].

(** The three ranges of code points: Hiragana, Katakana, CJK ideographs. *)
Definition in_japanese_ranges (r : Z) : Prop :=
  (0x3040 <= r <= 0x309F \/ 0x30A0 <= r <= 0x30FF \/ 0x4E00 <= r <= 0x9FBF)%Z.

(** The steps of [processFile] up to the decoded package document: the
    entries of the archive, the path of the package document, the package. *)
Definition load_package (lib : Lib) (w : World) (epubPath : string)
    : result (list zip.File * string * Package) :=
  check (String.eqb (filepath.Ext epubPath) ".epub") ErrExtension ;;
  files ← orErr (zip_OpenReader w epubPath) ErrOpenEpub ;
  containerFile ← orErr (findAndOpenFile files "META-INF/container.xml") ErrFindContainer ;
  container ← orErr (decodeContainer lib containerFile) ErrDecodeContainer ;
  check (negb (String.eqb (FullPath container) "")) ErrNoOPF ;;
  opfFile ← orErr (findAndOpenFile files (FullPath container)) ErrFindOPF ;
  pkg ← orErr (decodePackage lib opfFile) ErrDecodeOPF ;
  Ok (files, FullPath container, pkg).

(** The [pages] of [processFile]. *)
Definition spine_pages (volOPFPath : string) (pkg : Package) : list string :=
  spine_loop (manifest_loop (Manifest_Items pkg) ∅) volOPFPath (Spine_Itemrefs pkg) [].

(** The [imgSrcs] of [processFile]. *)
Definition collected_refs (lib : Lib) (files : list zip.File) (volOPFPath : string)
    (pkg : Package) : list string :=
  pages_loop lib files (spine_pages volOPFPath pkg) [].

(** The page-image entries of an output archive: all but the metadata entry. *)
Definition page_entries (out : list zip.Entry) : list zip.Entry :=
  List.filter (fun e => negb (String.eqb (zip.entry_name e) "ComicInfo.xml")) out.

(** The metadata entries of an output archive. *)
Definition metadata_entries (out : list zip.Entry) : list zip.Entry :=
  List.filter (fun e => String.eqb (zip.entry_name e) "ComicInfo.xml") out.

(** The names of the entries of a successful conversion. *)
Definition entry_names (r : result (list zip.Entry)) : list string :=
  match r with
  | Ok out => map zip.entry_name out
  | Err _ => []
  end.

(** *** The claims on one image per page, as the specification words them *)

(** The first image element of the page with a non-empty source. *)
Definition first_image_ref (pageHref : string) (doc : html.Node) : option string :=
  resolve_against pageHref <$>
    head (List.filter (fun v => negb (String.eqb v "")) (img_srcs doc)).

(** A spine entry counts when its id resolves in the manifest, its page
    document is read, and the page holds at least one image element. *)
Definition spine_entry_counts (lib : Lib) (files : list zip.File) (volOPFPath : string)
    (pkg : Package) (ref : Itemref) : bool :=
  match manifest_loop (Manifest_Items pkg) ∅ !! IDRef ref with
  | Some href =>
      match page_doc lib files (resolve_against volOPFPath href) with
      | Some doc => existsb is_img (preorder doc)
      | None => false
      end
  | None => false
  end.

Definition counted_spine_entries (lib : Lib) (files : list zip.File) (volOPFPath : string)
    (pkg : Package) : list Itemref :=
  List.filter (spine_entry_counts lib files volOPFPath pkg) (Spine_Itemrefs pkg).

(** The data of the image of a spine entry: that of the first image of its
    page. *)
Definition spine_entry_image (lib : Lib) (files : list zip.File) (volOPFPath : string)
    (pkg : Package) (ref : Itemref) : option string :=
  href ← manifest_loop (Manifest_Items pkg) ∅ !! IDRef ref;
  doc ← page_doc lib files (resolve_against volOPFPath href);
  src ← first_image_ref (resolve_against volOPFPath href) doc;
  zip.data <$> image_stream files src.

(** *** The metadata mapper *)

(** A decimal digit. *)
Definition is_digit (c : ascii) : Prop := 48 <= nat_of_ascii c <= 57.

(** The record of a package document without title, series, number,
    publisher, language, creator and date. *)
Definition blank_record : ComicInfo :=
  {| ci_Title := ""; ci_Series := ""; ci_Number := "";
     ci_Notes := "Generated from EPUB metadata"; ci_Year := 0;
     ci_Writer := ""; ci_Penciller := ""; ci_Publisher := ""; ci_LanguageISO := "";
     ci_BlackAndWhite := "Unknown"; ci_Manga := "Unknown"; ci_AgeRating := "Unknown" |}.

(** *** Characters and their UTF-8 bytes *)

(** A byte from E3 to E9: the first byte of the UTF-8 form of the code
    points from 3000 to 9FFF. *)
Definition east_asian_lead (c : ascii) : Prop :=
  (0xE3 <= utf8.byteval c <= 0xE9)%Z.

Definition byte_of_Z (z : Z) : ascii := ascii_of_nat (Z.to_nat z).

(** The three bytes of the UTF-8 form of a code point from 800 to FFFF. *)
Definition encode3 (c : Z) : list ascii :=
  [ byte_of_Z (Z.lor 0xE0 (Z.shiftr c 12));
    byte_of_Z (Z.lor 0x80 (Z.land (Z.shiftr c 6) 0x3F));
    byte_of_Z (Z.lor 0x80 (Z.land c 0x3F)) ].

(** [P] holds of the [2 ^ k] integers from [lo] on. *)
Fixpoint all_from (k : nat) (lo : Z) (P : Z -> bool) : bool :=
  match k with
  | 0 => P lo
  | S k' => all_from k' lo P && all_from k' (lo + 2 ^ Z.of_nat k') P
  end.

(** Decoding the three bytes of a code point of the three ranges gives it
    back. *)
Definition decodes_back (c : Z) : bool :=
  negb (japanese_rune c)
  || match encode3 c with
     | [e0; e1; e2] =>
         match utf8.first (utf8.byteval e0), utf8.DecodeRune e0 [e1; e2] with
         | utf8.SZ 3 _ _, (r, 3) => (r =? c)%Z
         | _, _ => false
         end
     | _ => false
     end.

(** *** The names of the images, as the specification words them *)

(** The names that the specification gives the images written from sources
    of these extensions: each after its position among the images written,
    padded to the digits of their number. *)
Definition names_by_emitted_count (exts : list string) : list string :=
  map (fun p => page_name (length exts) (fst p) (snd p)) (indexed 0 exts).

(** The collected references whose image is written, with their positions
    in the collected sequence. *)
Definition written_refs (files : list zip.File) (imgSrcs : list string) : list (nat * string) :=
  List.filter (fun p => image_available files (snd p)) (indexed 0 imgSrcs).

(** *** Paths, read lexically *)

(** The elements of a path: what stands between its separators. *)
Fixpoint elements (p : list ascii) : list (list ascii) :=
  match p with
  | [] => [[]]
  | c :: p' =>
      if filepath.IsPathSeparator c then [] :: elements p'
      else
        match elements p' with
        | e :: es => (c :: e) :: es
        | [] => [[c]]
        end
  end.

(** A place below or above a starting directory: [k] directories up, then
    down through names, the last of them first. *)
Definition place : Type := nat * list (list ascii).

(** Going on from a place by one element: an empty element and [.] stay,
    [..] leaves the last name, or goes one directory up where there is no
    name left, except from the root; a name goes down. *)
Definition lexical_step (rooted : bool) (st : place) (e : list ascii) : place :=
  if String.eqb (str e) "" || String.eqb (str e) "." then st
  else if String.eqb (str e) ".." then
    match snd st with
    | _ :: names => (fst st, names)
    | [] => if rooted then st else (S (fst st), [])
    end
  else (fst st, e :: snd st).

Definition lexical (rooted : bool) (es : list (list ascii)) (st : place) : place :=
  fold_left (lexical_step rooted) es st.

(** The path to a place, without the slash of the root. *)
Definition place_path (st : place) : list ascii :=
  join_bytes (repeat [filepath.dot; filepath.dot] (fst st) ++ rev (snd st)).

Definition is_rooted (p : list ascii) : bool :=
  match p with
  | c :: _ => filepath.IsPathSeparator c
  | [] => false
  end.

(** The reference [ref] of a document at [docPath], read from the
    directory of the document: the elements of the path of the document
    without the last, then the elements of the reference. *)
Definition resolved (docPath ref : string) : string :=
  let rooted := is_rooted (bytes docPath) in
  let st := lexical rooted
              (removelast (elements (bytes docPath)) ++ elements (bytes ref)) (0, []) in
  match place_path st with
  | [] => if rooted then "" else "."
  | _ :: _ => str (place_path st)
  end.

(** No backslash is left in a path. *)
Definition forward_slashes_only (s : string) : bool :=
  forallb (fun c => negb (byte_eqb c (ascii_of_nat 92))) (bytes s).

(** *** The buffer of [filepath.Clean] at a place *)

(** The names of a place are plain, and there is no way up from the root. *)
Definition valid_place (rooted : bool) (st : place) : Prop :=
  Forall plain (snd st) /\ (rooted = true -> fst st = 0).

Definition root_slash (rooted : bool) : list ascii :=
  if rooted then [filepath.Separator] else [].

Definition place_elements (st : place) : list (list ascii) :=
  repeat [filepath.dot; filepath.dot] (fst st) ++ rev (snd st).

Definition buffer_of (rooted : bool) (st : place) : list ascii :=
  rev (root_slash rooted ++ place_path st).

Definition dotdot_of (rooted : bool) (st : place) : nat :=
  length (root_slash rooted ++ join_bytes (repeat [filepath.dot; filepath.dot] (fst st))).

(** What [Clean] returns for a place. *)
Definition cleaned (rooted : bool) (st : place) : list ascii :=
  match root_slash rooted ++ place_path st with
  | [] => [filepath.dot]
  | c :: r => c :: r
  end.

(** *** Texts and their characters *)

(** A Unicode scalar value: a code point that is no surrogate. *)
Definition scalar_value (c : Z) : Prop :=
  (0 <= c < 0xD800 \/ 0xE000 <= c <= 0x10FFFF)%Z.

(** The UTF-8 form of a scalar value (RFC 3629): one to four bytes. *)
Definition utf8_bytes (c : Z) : list ascii :=
  (if c <? 0x80 then [byte_of_Z c]
   else if c <? 0x800 then
     [byte_of_Z (0xC0 + c / 64); byte_of_Z (0x80 + c mod 64)]
   else if c <? 0x10000 then
     [byte_of_Z (0xE0 + c / 4096); byte_of_Z (0x80 + (c / 64) mod 64);
      byte_of_Z (0x80 + c mod 64)]
   else
     [byte_of_Z (0xF0 + c / 262144); byte_of_Z (0x80 + (c / 4096) mod 64);
      byte_of_Z (0x80 + (c / 64) mod 64); byte_of_Z (0x80 + c mod 64)])%Z.

(** The text of these characters. *)
Definition utf8_text (cs : list Z) : string := str (concat (map utf8_bytes cs)).

(** *** The text of a year *)

(** A decimal digit, as a test. *)
Definition digit_byte (c : ascii) : bool :=
  (48 <=? nat_of_ascii c) && (nat_of_ascii c <=? 57).

(** The text of a number: digits, at least one, after at most one sign. *)
Definition decimal_text (l : list ascii) : bool :=
  match l with
  | [] => false
  | c :: r =>
      if byte_eqb c "-" || byte_eqb c "+"
      then negb (length r =? 0) && forallb digit_byte r
      else forallb digit_byte l
  end.

(** * Theorems *)

(** ** Strings and their bytes *)

Lemma bytes_app (a b : string) : bytes (a +:+ b) = bytes a ++ bytes b.
Proof. induction a as [|c a IH]; [reflexivity|]. simpl. rewrite IH. reflexivity. Qed.

Lemma str_app (a b : list ascii) : str (a ++ b) = str a +:+ str b.
Proof. induction a as [|c a IH]; [reflexivity|]. simpl. rewrite IH. reflexivity. Qed.

Lemma length_bytes (s : string) : length (bytes s) = String.length s.
Proof. induction s as [|c s IH]; [reflexivity|]. simpl. rewrite IH. reflexivity. Qed.

Lemma bytes_str (l : list ascii) : bytes (str l) = l.
Proof. apply list_ascii_of_string_of_list_ascii. Qed.

Lemma str_bytes (s : string) : str (bytes s) = s.
Proof. apply string_of_list_ascii_of_string. Qed.

Lemma append_assoc (a b c : string) : (a +:+ b) +:+ c = a +:+ b +:+ c.
Proof.
  rewrite <- (str_bytes ((a +:+ b) +:+ c)), !bytes_app, <- app_assoc.
  now rewrite !str_app, !str_bytes.
Qed.

(** ** strconv.Itoa: the decimal digits *)

Section Digits.

Import strconv.

Lemma digits_rev_fuel fuel : forall u k,
  u <= fuel -> digits_rev (fuel + k) u = digits_rev fuel u.
Proof.
  induction fuel as [|fuel IH]; intros u k Hu.
  - assert (u = 0) as -> by lia. now destruct k.
  - cbn [Nat.add digits_rev]. destruct (Nat.leb_spec 10 u) as [H10|H10]; [|reflexivity].
    f_equal. apply IH.
    assert (u / 10 < u) by (apply Nat.div_lt; lia). lia.
Qed.

Lemma digits_rev_length_pos fuel u : 1 <= length (digits_rev fuel u).
Proof. destruct fuel; cbn [digits_rev]; [|destruct (10 <=? u)]; cbn [length]; lia. Qed.

Lemma digits_rev_length_mono fuel : forall a b,
  a <= b -> b <= fuel ->
  length (digits_rev fuel a) <= length (digits_rev fuel b).
Proof.
  induction fuel as [|fuel IH]; intros a b Hab Hb; [cbn; lia|].
  cbn [digits_rev].
  destruct (Nat.leb_spec 10 a) as [Ha|Ha]; destruct (Nat.leb_spec 10 b) as [Hb'|Hb'];
    cbn [length]; try lia.
  apply le_n_S. apply IH.
  - apply Nat.Div0.div_le_mono. exact Hab.
  - assert (b / 10 < b) by (apply Nat.div_lt; lia). lia.
Qed.

(** A number written with [L] digits lies below [10 ^ L], and from
    [10 ^ (L - 1)] on when it is not zero. *)
Lemma digits_rev_bounds fuel : forall u,
  u <= fuel ->
  u < 10 ^ length (digits_rev fuel u)
  /\ (0 < u -> 10 ^ (length (digits_rev fuel u) - 1) <= u).
Proof.
  induction fuel as [|fuel IH]; intros u Hu.
  - assert (u = 0) as -> by lia. cbn. lia.
  - cbn [digits_rev]. destruct (Nat.leb_spec 10 u) as [H10|H10].
    + assert (Hdiv : u / 10 < u) by (apply Nat.div_lt; lia).
      assert (Hq : 1 <= u / 10) by (apply Nat.div_le_lower_bound; lia).
      destruct (IH (u / 10)) as [Hlt Hge]; [lia|].
      specialize (Hge ltac:(lia)).
      pose proof (Nat.div_mod_eq u 10) as Hdm.
      pose proof (Nat.mod_upper_bound u 10 ltac:(lia)) as Hmod.
      pose proof (digits_rev_length_pos fuel (u / 10)) as Hpos.
      cbn [length]. set (L := length (digits_rev fuel (u / 10))) in *.
      replace (S L - 1) with (S (L - 1)) by lia.
      rewrite !Nat.pow_succ_r'. lia.
    + cbn. lia.
Qed.

Lemma Itoa_length u : String.length (Itoa u) = length (digits_rev u u).
Proof. unfold Itoa. now rewrite <- length_bytes, bytes_str, length_rev. Qed.

Lemma Itoa_length_mono a b : a <= b -> String.length (Itoa a) <= String.length (Itoa b).
Proof.
  intros Hab. rewrite !Itoa_length.
  replace (digits_rev a a) with (digits_rev b a).
  - now apply digits_rev_length_mono.
  - replace b with (a + (b - a)) by lia. now apply digits_rev_fuel.
Qed.

Lemma Itoa_length_bounds u :
  0 < u -> 10 ^ (String.length (Itoa u) - 1) <= u < 10 ^ String.length (Itoa u).
Proof.
  intros Hu. rewrite Itoa_length.
  destruct (digits_rev_bounds u u (le_n u)) as [Hlt Hge]. auto.
Qed.

Lemma atoi_digits_app ds1 : forall ds2 n,
  atoi_digits (ds1 ++ ds2) n = atoi_digits ds1 n ≫= atoi_digits ds2.
Proof.
  induction ds1 as [|ch ds1 IH]; intros ds2 n; [reflexivity|].
  cbn [app atoi_digits]. destruct (_ && _); [apply IH | reflexivity].
Qed.

Lemma atoi_digit d n :
  d < 10 -> atoi_digits [digit d] n = Some (n * 10 + Z.of_nat d)%Z.
Proof.
  intros Hd. unfold digit. cbn [atoi_digits].
  rewrite nat_ascii_embedding by lia.
  destruct (Nat.leb_spec 48 (48 + d)); [|lia].
  destruct (Nat.leb_spec (48 + d) 57); [|lia].
  cbn [andb]. replace (48 + d - 48) with d by lia. reflexivity.
Qed.

(** The digits of [Itoa] read back as the number. *)
Lemma atoi_digits_rev fuel : forall u,
  u <= fuel -> atoi_digits (rev (digits_rev fuel u)) 0 = Some (Z.of_nat u).
Proof.
  induction fuel as [|fuel IH]; intros u Hu; cbn [digits_rev].
  - assert (u = 0) as -> by lia. reflexivity.
  - destruct (Nat.leb_spec 10 u) as [H10|H10].
    + cbn [rev]. rewrite atoi_digits_app, IH.
      * cbn [mbind option_bind]. rewrite atoi_digit by (apply Nat.mod_upper_bound; lia).
        f_equal. pose proof (Nat.div_mod_eq u 10). lia.
      * assert (u / 10 < u) by (apply Nat.div_lt; lia). lia.
    + cbn [rev app]. rewrite atoi_digit by exact H10. reflexivity.
Qed.

Lemma atoi_digits_Itoa u : atoi_digits (bytes (Itoa u)) 0 = Some (Z.of_nat u).
Proof. unfold Itoa. rewrite bytes_str. now apply atoi_digits_rev. Qed.

End Digits.

(** ** path/filepath *)

Section CleanInvariant.

Import filepath.

Lemma no_double_sep_tail a l : no_double_sep (a :: l) = true -> no_double_sep l = true.
Proof. cbn [no_double_sep]. intros H. apply andb_true_iff in H. tauto. Qed.

Lemma no_double_sep_cons a l :
  no_double_sep l = true ->
  (IsPathSeparator a = false \/ match l with [] => True | b :: _ => IsPathSeparator b = false end) ->
  no_double_sep (a :: l) = true.
Proof.
  intros Hl Hh. cbn [no_double_sep]. rewrite Hl, andb_true_r.
  destruct l as [|b l]; [reflexivity|].
  destruct Hh as [-> | ->]; [reflexivity | now rewrite andb_false_r].
Qed.

Lemma no_double_sep_app_no_sep e l :
  no_sep e -> no_double_sep l = true -> no_double_sep (e ++ l) = true.
Proof.
  induction 1 as [|c e Hc He IH]; intros Hl; [exact Hl|].
  cbn [app]. apply no_double_sep_cons; [now apply IH | now left].
Qed.

Lemma backtrack_inv rooted out dotdot :
  clean_pre rooted out dotdot -> dotdot < length out ->
  clean_inv rooted (backtrack dotdot out) dotdot.
Proof.
  induction out as [|c out IH]; intros (Hnd & Hle & Hpre) Hlt; cbn [length] in *; [lia|].
  assert (Hdrop : drop (S (length out) - dotdot) (c :: out) = drop (length out - dotdot) out).
  { replace (S (length out) - dotdot) with (S (length out - dotdot)) by lia. reflexivity. }
  rewrite Hdrop in Hpre.
  cbn [backtrack].
  destruct (Nat.ltb_spec dotdot (length out)) as [Hlt'|Hge]; cbn [andb].
  - destruct (IsPathSeparator c) eqn:Hc; cbn [negb].
    + repeat split; eauto using no_double_sep_tail; try lia.
      destruct out as [|b out]; [exact I|]. left.
      cbn [no_double_sep] in Hnd. rewrite Hc in Hnd. cbn in Hnd.
      apply andb_true_iff in Hnd as [Hb _]. now apply negb_true_iff in Hb.
    + apply IH; [|lia]. repeat split; eauto using no_double_sep_tail; lia.
  - assert (dotdot = length out) as -> by lia.
    rewrite Nat.sub_diag in Hpre. cbn [drop] in Hpre.
    repeat split; eauto using no_double_sep_tail.
    now rewrite Nat.sub_diag.
Qed.

Lemma span_elem_spec p e r :
  span_elem p = (e, r) ->
  p = e ++ r /\ no_sep e /\ at_elem_end r = true.
Proof.
  revert e r. induction p as [|c p IH]; intros e r H; cbn [span_elem] in H.
  - injection H as <- <-. repeat split. constructor.
  - destruct (IsPathSeparator c) eqn:Hc.
    + injection H as <- <-. repeat split; [constructor | exact Hc].
    + destruct (span_elem p) as [e' r'] eqn:Hs. injection H as <- <-.
      destruct (IH _ _ eq_refl) as (-> & He & Hr).
      repeat split; [now constructor | exact Hr].
Qed.

Lemma span_elem_head c p :
  IsPathSeparator c = false ->
  exists e r, span_elem (c :: p) = (c :: e, r) /\ span_elem p = (e, r).
Proof.
  intros Hc. cbn [span_elem]. rewrite Hc.
  destruct (span_elem p) as [e r]. eauto.
Qed.

Lemma no_sep_rev e : no_sep e -> no_sep (rev e).
Proof. apply List.Forall_rev. Qed.

Lemma end_ok_drop_app rooted extra out dotdot :
  dotdot <= length out ->
  end_ok rooted (drop (length out - dotdot) out) ->
  end_ok rooted (drop (length (extra ++ out) - dotdot) (extra ++ out)).
Proof.
  intros Hle H. rewrite length_app.
  replace (length extra + length out - dotdot) with (length extra + (length out - dotdot)) by lia.
  now rewrite drop_app_add.
Qed.

(** Appending a real path element keeps the invariant. *)
Lemma append_elem_inv rooted out dotdot c e :
  clean_inv rooted out dotdot ->
  no_sep (c :: e) ->
  let out1 :=
    if (rooted && negb (length out =? 1)) || (negb rooted && negb (length out =? 0))
    then Separator :: out else out in
  clean_inv rooted (rev (c :: e) ++ out1) dotdot.
Proof.
  intros [(Hnd & Hle & Hpre) Hend] He out1.
  assert (Hout1 : no_double_sep out1 = true).
  { subst out1. destruct (_ || _) eqn:Hcond; [|exact Hnd].
    apply no_double_sep_cons; [exact Hnd|]. right.
    destruct out as [|b out]; [exact I|].
    destruct Hend as [Hb | [-> ->]]; [exact Hb|]. discriminate Hcond. }
  assert (Hex : exists extra, rev (c :: e) ++ out1 = extra ++ out /\
                              exists x xs, rev (c :: e) ++ out1 = x :: xs /\ IsPathSeparator x = false).
  { assert (Hrev : exists x xs, rev (c :: e) = x :: xs /\ IsPathSeparator x = false).
    { apply no_sep_rev in He. destruct (rev (c :: e)) as [|x xs] eqn:Hr.
      - apply (f_equal (@length _)) in Hr. rewrite length_rev in Hr. discriminate Hr.
      - exists x, xs. split; [reflexivity|]. now inversion He. }
    destruct Hrev as (x & xs & Hr & Hx).
    subst out1. destruct (_ || _).
    - exists (rev (c :: e) ++ [Separator]). rewrite <- app_assoc. split; [reflexivity|].
      exists x, (xs ++ Separator :: out). now rewrite Hr.
    - exists (rev (c :: e)). split; [reflexivity|].
      exists x, (xs ++ out). now rewrite Hr. }
  destruct Hex as (extra & Hextra & x & xs & Hx & Hxsep).
  repeat split.
  - apply no_double_sep_app_no_sep; [now apply no_sep_rev | exact Hout1].
  - rewrite Hextra, length_app. lia.
  - rewrite Hextra. now apply end_ok_drop_app.
  - rewrite Hx. now left.
Qed.

Lemma clean_loop_no_double_sep rooted fuel : forall path out dotdot,
  clean_inv rooted out dotdot ->
  no_double_sep (clean_loop fuel rooted path out dotdot) = true.
Proof.
  induction fuel as [|fuel IH]; intros path out dotdot Hinv; cbn [clean_loop].
  { apply Hinv. }
  destruct path as [|c rest]; [apply Hinv|].
  destruct (IsPathSeparator c) eqn:Hc; [now apply IH|].
  destruct (byte_eqb c dot && at_elem_end rest); [now apply IH|].
  destruct (byte_eqb c dot && _).
  - destruct (Nat.ltb_spec dotdot (length out)) as [Hlt|Hge].
    + apply IH. apply backtrack_inv; [apply Hinv | exact Hlt].
    + destruct rooted; cbn [negb]; [now apply IH|].
      apply IH. destruct Hinv as [(Hnd & Hle & Hpre) Hend].
      assert (Hout1 : no_double_sep (if 0 <? length out then Separator :: out else out) = true).
      { destruct (0 <? length out); [|exact Hnd].
        apply no_double_sep_cons; [exact Hnd|]. right.
        destruct out as [|b out]; [exact I|].
        destruct Hend as [Hb | [Hr _]]; [exact Hb | discriminate Hr]. }
      repeat split.
      * apply no_double_sep_cons; [|now left].
        apply no_double_sep_cons; [exact Hout1 | now left].
      * lia.
      * rewrite Nat.sub_diag. cbn [drop end_ok]. now left.
      * now left.
  - destruct (span_elem_head c rest Hc) as (e & r & -> & Hs).
    apply IH. apply append_elem_inv; [exact Hinv|].
    constructor; [exact Hc|]. now apply span_elem_spec in Hs.
Qed.

Lemma no_double_sep_snoc l a :
  no_double_sep (l ++ [a]) =
  no_double_sep l
  && negb (match l with [] => false | _ => IsPathSeparator (List.last l a) end
           && IsPathSeparator a).
Proof.
  induction l as [|x l IH]; [reflexivity|].
  cbn [app]. destruct l as [|y l].
  - cbn. now rewrite !andb_true_r.
  - change (no_double_sep (x :: (y :: l) ++ [a]))
      with (negb (IsPathSeparator x && IsPathSeparator y) && no_double_sep ((y :: l) ++ [a])).
    rewrite IH.
    change (no_double_sep (x :: y :: l))
      with (negb (IsPathSeparator x && IsPathSeparator y) && no_double_sep (y :: l)).
    change (List.last (x :: y :: l) a) with (List.last (y :: l) a).
    now rewrite andb_assoc.
Qed.

Lemma no_double_sep_rev l : no_double_sep (rev l) = no_double_sep l.
Proof.
  induction l as [|a l IH]; [reflexivity|].
  cbn [rev]. rewrite no_double_sep_snoc, IH. cbn [no_double_sep].
  destruct l as [|b l]; [reflexivity|].
  rewrite andb_comm. f_equal. f_equal.
  assert (Hlast : List.last (rev (b :: l)) a = b).
  { cbn [rev]. now rewrite List.last_last. }
  rewrite Hlast.
  destruct (rev (b :: l)) eqn:Hr; [|apply andb_comm].
  apply (f_equal (@length _)) in Hr. rewrite length_rev in Hr. discriminate Hr.
Qed.

(** The result of [Clean] has no two adjacent separators. *)
Lemma clean_bytes_no_double_sep path : no_double_sep (clean_bytes path) = true.
Proof.
  unfold clean_bytes. destruct path as [|c rest]; [reflexivity|].
  rewrite no_double_sep_rev.
  match goal with |- context [if IsPathSeparator c then ?a else ?b] =>
    assert (Hout : no_double_sep (if IsPathSeparator c then a else b) = true) end.
  { destruct (IsPathSeparator c) eqn:Hc.
    - apply clean_loop_no_double_sep. repeat split; cbn; auto.
    - apply clean_loop_no_double_sep. repeat split; cbn; auto. }
  destruct (length _ =? 0); [reflexivity | exact Hout].
Qed.

(** [length path] iterations are enough for the loop of [Clean]. *)
Lemma clean_loop_fuel rooted fuel : forall path out dotdot k,
  length path <= fuel ->
  clean_loop (fuel + k) rooted path out dotdot = clean_loop fuel rooted path out dotdot.
Proof.
  induction fuel as [|fuel IH]; intros path out dotdot k Hlen.
  { destruct path; [|cbn in Hlen; lia]. now destruct k. }
  cbn [Nat.add clean_loop].
  destruct path as [|c rest]; [reflexivity|]. cbn [length] in Hlen.
  destruct (IsPathSeparator c) eqn:Hc; [apply IH; lia|].
  destruct (byte_eqb c dot && at_elem_end rest); [apply IH; lia|].
  destruct (byte_eqb c dot && _).
  - assert (length (tl rest) <= fuel) by (destruct rest; cbn in *; lia).
    repeat match goal with |- context [if ?b then _ else _] => destruct b end;
      now apply IH.
  - destruct (span_elem_head c rest Hc) as (e & r & -> & Hs).
    apply IH. apply span_elem_spec in Hs as (-> & _). rewrite length_app in Hlen. lia.
Qed.

End CleanInvariant.

(** ** The page image extractor *)

Section Extractor.

Variable pageHref : string.

Lemma img_attr_loop_spec attrs srcs :
  img_attr_loop pageHref attrs srcs =
  srcs ++ match first_src attrs with
          | Some v => [resolve_against pageHref v]
          | None => []
          end.
Proof.
  induction attrs as [|a attrs IH]; cbn [img_attr_loop first_src].
  - now rewrite app_nil_r.
  - destruct (String.eqb (html.Key a) "src"); [reflexivity | exact IH].
Qed.

Lemma img_refs_node ty data attr cs :
  img_refs pageHref (html.mkNode ty data attr cs) =
  match img_src (html.mkNode ty data attr cs) with
  | Some v => [resolve_against pageHref v]
  | None => []
  end ++ concat (map (img_refs pageHref) cs).
Proof.
  unfold img_refs, img_srcs. cbn [preorder omap list_omap].
  set (each := fix each (cs : list html.Node) : list html.Node :=
                 match cs with [] => [] | c :: cs' => preorder c ++ each cs' end).
  assert (Heach : map (resolve_against pageHref) (omap img_src (each cs)) =
                  concat (map (fun n => map (resolve_against pageHref) (omap img_src (preorder n))) cs)).
  { induction cs as [|c cs IH]; [reflexivity|].
    cbn [each map concat]. fold each. now rewrite omap_app, map_app, IH. }
  fold (@omap list _ _ _ img_src (each cs)).
  destruct (img_src _); cbn [map app]; now rewrite Heach.
Qed.

(** The closure [f] appends the references of the image elements of the
    tree it walks, in document order. *)
Lemma walk_spec n : forall srcs, walk pageHref n srcs = srcs ++ img_refs pageHref n.
Proof.
  induction n as [ty data attr cs IH] using Node_forall_ind. intros srcs.
  rewrite img_refs_node. cbn [walk].
  set (children := fix children (cs : list html.Node) (srcs : list string) : list string :=
                     match cs with [] => srcs | c :: cs' => children cs' (walk pageHref c srcs) end).
  assert (Hchildren : forall acc, children cs acc = acc ++ concat (map (img_refs pageHref) cs)).
  { induction IH as [|c cs Hc _ IHcs]; intros acc; unfold children; cbn [map concat].
    - now rewrite app_nil_r.
    - fold children. now rewrite IHcs, Hc, <- app_assoc. }
  rewrite Hchildren. unfold img_src. cbn [is_img node_attrs].
  destruct (html.NodeType_eqb ty html.ElementNode && String.eqb data "img").
  - rewrite img_attr_loop_spec. now rewrite <- app_assoc.
  - reflexivity.
Qed.

End Extractor.

(** ** The names of the output entries *)

Section Names.

Import filepath.

Lemma ext_scan_no_sep rpath : forall acc, no_sep acc -> no_sep (ext_scan rpath acc).
Proof.
  induction rpath as [|c r IH]; intros acc Hacc; cbn [ext_scan]; [constructor|].
  destruct (IsPathSeparator c) eqn:Hc; [constructor|].
  destruct (byte_eqb c dot); [now constructor|].
  apply IH. now constructor.
Qed.

Lemma Ext_no_sep name : no_sep (bytes (Ext name)).
Proof. unfold Ext. rewrite bytes_str. apply ext_scan_no_sep. constructor. Qed.

Lemma last_elem_no_sep rpath : forall acc,
  no_sep rpath -> last_elem rpath acc = rev rpath ++ acc.
Proof.
  induction rpath as [|c r IH]; intros acc H; [reflexivity|].
  inversion H as [|? ? Hc Hr]; subst. cbn [last_elem rev]. rewrite Hc, IH by exact Hr.
  now rewrite <- app_assoc.
Qed.

(** [Base] leaves a name without separators as it is. *)
Lemma Base_no_sep l : l <> [] -> no_sep l -> Base (str l) = str l.
Proof.
  intros Hne Hl. unfold Base.
  destruct (String.eqb_spec (str l) "") as [He|_].
  { apply (f_equal bytes) in He. rewrite bytes_str in He. contradiction. }
  rewrite bytes_str.
  assert (Hstrip : strip_trailing (rev l) = rev l).
  { pose proof (no_sep_rev l Hl) as Hr. destruct (rev l) as [|c r]; [reflexivity|].
    inversion Hr as [|? ? Hc _]; subst. cbn [strip_trailing]. now rewrite Hc. }
  rewrite Hstrip, last_elem_no_sep by now apply no_sep_rev.
  rewrite rev_involutive, app_nil_r. destruct l; [contradiction | reflexivity].
Qed.

Lemma digit_no_sep d : d < 10 -> IsPathSeparator (strconv.digit d) = false.
Proof. intros H. do 10 (destruct d as [|d]; [reflexivity|]). lia. Qed.

Lemma digits_rev_no_sep fuel : forall u, u <= fuel -> no_sep (strconv.digits_rev fuel u).
Proof.
  induction fuel as [|fuel IH]; intros u Hu; cbn [strconv.digits_rev].
  - assert (u = 0) as -> by lia. repeat constructor.
  - destruct (Nat.leb_spec 10 u) as [H|H].
    + constructor.
      * apply digit_no_sep. apply Nat.mod_upper_bound. lia.
      * apply IH. assert (u / 10 < u) by (apply Nat.div_lt; lia). lia.
    + repeat constructor. now apply digit_no_sep.
Qed.

Lemma Itoa_no_sep u : no_sep (bytes (strconv.Itoa u)).
Proof.
  unfold strconv.Itoa. rewrite bytes_str. apply no_sep_rev.
  now apply digits_rev_no_sep.
Qed.

Lemma pad0_no_sep width ds : no_sep ds -> no_sep (fmt.pad0 width ds).
Proof.
  intros H. unfold fmt.pad0. apply Forall_app. split; [|exact H].
  apply Forall_forall. intros c Hc. apply elem_of_replicate in Hc as [-> _]. reflexivity.
Qed.

Lemma Sprintf_page_bytes width index ext :
  bytes (fmt.Sprintf_page width index ext) =
  bytes "page" ++ fmt.pad0 width (bytes (strconv.Itoa index)) ++ bytes ext.
Proof. unfold fmt.Sprintf_page. now rewrite !bytes_app, bytes_str. Qed.

(** The name of an image entry holds no separator: [Base] keeps it. *)
Lemma Base_normalizeImageName originalName index total :
  Base (normalizeImageName originalName index total) =
  normalizeImageName originalName index total.
Proof.
  unfold normalizeImageName.
  rewrite <- (str_bytes (fmt.Sprintf_page _ _ _)).
  apply Base_no_sep.
  - rewrite Sprintf_page_bytes. discriminate.
  - rewrite Sprintf_page_bytes. apply Forall_app. split; [repeat constructor|].
    apply Forall_app. split; [apply pad0_no_sep, Itoa_no_sep | apply Ext_no_sep].
Qed.

(** The name that is written is the padded name of the page. *)
Lemma normalizeImageName_page_name originalName index N :
  Base (normalizeImageName originalName index N) = page_name N index (Ext originalName).
Proof.
  rewrite Base_normalizeImageName.
  unfold normalizeImageName, page_name, fmt.Sprintf_page, fmt.pad0.
  now rewrite length_bytes, str_app, str_bytes, append_assoc.
Qed.

(** The number of a page name has as many characters as [N] has digits. *)
Lemma page_name_width N index :
  index <= N ->
  String.length (page_name N index "")
  = String.length "page" + String.length (strconv.Itoa N).
Proof.
  intros Hle. pose proof (Itoa_length_mono index N Hle) as Hmono.
  unfold page_name. rewrite <- !length_bytes, !bytes_app, !length_app, bytes_str.
  rewrite length_replicate, !length_bytes. cbn [String.length]. lia.
Qed.

(** The name of an image entry is never that of the metadata entry. *)
Lemma normalizeImageName_not_ComicInfo originalName index total :
  String.eqb (normalizeImageName originalName index total) "ComicInfo.xml" = false.
Proof. reflexivity. Qed.

End Names.

(** ** The loops of [processFile] *)

Section Loops.

Variable lib : Lib.
Variable w : World.
Variable files : list zip.File.

Lemma manifest_loop_None items : forall (m : gmap string string) id,
  manifest_loop items m !! id = None <-> in_manifest items id = false /\ m !! id = None.
Proof.
  induction items as [|item items IH]; intros m id; cbn [manifest_loop in_manifest existsb].
  - tauto.
  - rewrite IH. fold (in_manifest items id). rewrite orb_false_iff, lookup_insert_None.
    rewrite String.eqb_neq. tauto.
Qed.

(** A later item of the same id overrides an earlier one. *)
Lemma manifest_loop_last items item (m : gmap string string) :
  manifest_loop (items ++ [item]) m !! ID item = Some (Href item).
Proof.
  revert m. induction items as [|i items IH]; intros m; cbn [app manifest_loop].
  - apply lookup_insert_eq.
  - apply IH.
Qed.

Lemma spine_loop_spec pageMap volOPFPath refs : forall pages,
  spine_loop pageMap volOPFPath refs pages = pages ++ resolved_pages pageMap volOPFPath refs.
Proof.
  unfold resolved_pages.
  induction refs as [|ref refs IH]; intros pages; cbn [spine_loop omap list_omap].
  - now rewrite app_nil_r.
  - destruct (pageMap !! IDRef ref) as [href|]; cbn [fmap option_fmap option_map].
    + rewrite IH, <- app_assoc. reflexivity.
    + apply IH.
Qed.

Lemma extractImagesFromXHTML_spec htmlContent pageHref srcs :
  extractImagesFromXHTML lib htmlContent pageHref srcs =
  srcs ++ match html_Parse lib htmlContent with
          | Some doc => img_refs pageHref doc
          | None => []
          end.
Proof.
  unfold extractImagesFromXHTML. destruct (html_Parse lib htmlContent).
  - apply walk_spec.
  - now rewrite app_nil_r.
Qed.

Lemma page_loop_spec pageHref srcs :
  page_loop lib files pageHref srcs = srcs ++ page_refs lib files pageHref.
Proof.
  unfold page_refs, page_doc.
  induction files as [|f fs IH]; cbn [page_loop page_content].
  - now rewrite app_nil_r.
  - destruct (String.eqb (zip.Name f) pageHref); [|exact IH].
    destruct (zip.Open f) as [file|]; cbn [mbind option_bind]; [|exact IH].
    destruct (io.ReadAll file) as [content|]; [|exact IH].
    apply extractImagesFromXHTML_spec.
Qed.

Lemma pages_loop_spec pages : forall srcs,
  pages_loop lib files pages srcs = srcs ++ concat (map (page_refs lib files) pages).
Proof.
  induction pages as [|p pages IH]; intros srcs; cbn [pages_loop map concat].
  - now rewrite app_nil_r.
  - now rewrite IH, page_loop_spec, <- app_assoc.
Qed.

Hypothesis accepted : accepts_entries w.

Lemma addImageToZip_spec zipw imgPath imageIndex total :
  addImageToZip w zipw files imgPath imageIndex total =
  zipw ++ option_list (image_entry files total imageIndex imgPath).
Proof.
  unfold image_entry, image_stream.
  induction files as [|f fs IH]; cbn [addImageToZip findAndOpenFile].
  - cbn. now rewrite app_nil_r.
  - destruct (String.eqb (zip.Name f) imgPath); [|exact IH].
    destruct (zip.Open f) as [srcFile|]; cbn [mbind option_bind option_list].
    + now rewrite accepted.
    + now rewrite app_nil_r.
Qed.

Lemma images_loop_spec total srcs : forall imageIndex zipw,
  images_loop w files srcs imageIndex total zipw =
  zipw ++ omap (fun p => image_entry files total (fst p) (snd p)) (indexed imageIndex srcs).
Proof.
  unfold indexed.
  induction srcs as [|src srcs IH]; intros imageIndex zipw;
    cbn [images_loop length seq zip zip_with omap list_omap fst snd].
  - now rewrite app_nil_r.
  - rewrite IH, addImageToZip_spec, <- app_assoc. f_equal.
    destruct (image_entry files total imageIndex src); reflexivity.
Qed.

End Loops.

(** [processFile] loads the package, refuses an empty list of pages, creates
    the output file and writes the archive. *)
Lemma processFile_unfold lib w epubPath outputPath :
  processFile lib w epubPath outputPath =
  match load_package lib w epubPath with
  | Err e => Err e
  | Ok (files, volOPFPath, pkg) =>
      if length (spine_pages volOPFPath pkg) =? 0 then Err ErrNoPages
      else if negb (os_Create w (output_path epubPath outputPath)) then Err ErrCreateZip
      else
        let imgSrcs := collected_refs lib files volOPFPath pkg in
        Ok (add_ComicInfo lib w (Metadata_ pkg)
              (images_loop w files imgSrcs 0 (length imgSrcs) []))
  end.
Proof.
  unfold processFile, load_package, spine_pages, collected_refs, spine_pages.
  destruct (String.eqb (filepath.Ext epubPath) ".epub"); [|reflexivity].
  cbn [check mbind result_bind].
  destruct (zip_OpenReader w epubPath) as [files|]; [|reflexivity].
  cbn [orErr mbind result_bind].
  destruct (findAndOpenFile files "META-INF/container.xml") as [cf|]; [|reflexivity].
  cbn [orErr mbind result_bind].
  destruct (decodeContainer lib cf) as [container|]; [|reflexivity].
  cbn [orErr mbind result_bind].
  destruct (String.eqb (FullPath container) ""); [reflexivity|].
  cbn [negb check mbind result_bind].
  destruct (findAndOpenFile files (FullPath container)) as [opf|]; [|reflexivity].
  cbn [orErr mbind result_bind].
  destruct (decodePackage lib opf) as [pkg|]; [|reflexivity].
  cbn [orErr mbind result_bind].
  destruct (length _ =? 0); [reflexivity|].
  cbn [negb check mbind result_bind].
  destruct (os_Create w _); reflexivity.
Qed.

(** ** C1 and C7: the references of a page *)

(** C1, as the specification words it, fails: a page with two image
    elements contributes two references, not the first one alone. *)
Lemma first_image_only_counterexample :
  let doc := Fixture.document [Fixture.img "images/a.jpg"; Fixture.img "images/b.jpg"] in
  html_Parse Fixture.lib Fixture.page_two_images = Some doc
  /\ extractImagesFromXHTML Fixture.lib Fixture.page_two_images "OEBPS/p1.xhtml" []
     = ["OEBPS/images/a.jpg"; "OEBPS/images/b.jpg"]
  /\ first_image_ref "OEBPS/p1.xhtml" doc = Some "OEBPS/images/a.jpg"
  /\ extractImagesFromXHTML Fixture.lib Fixture.page_two_images "OEBPS/p1.xhtml" []
     <> option_list (first_image_ref "OEBPS/p1.xhtml" doc).
Proof. repeat split. discriminate. Qed.

(** C1, amended: every image element of the page that has a src attribute
    contributes one reference, the value of its first src attribute (empty
    or not) resolved against the directory of the page, in pre-order document
    order; an image element without src contributes none, and nothing is
    contributed when the page is not parsed. *)
Theorem extractImagesFromXHTML_every_image (lib : Lib) (htmlContent pageHref : string)
    (srcs : list string) (doc : html.Node) :
  html_Parse lib htmlContent = Some doc ->
  extractImagesFromXHTML lib htmlContent pageHref srcs
  = srcs ++ map (resolve_against pageHref) (omap img_src (preorder doc)).
Proof.
  intros Hparse. rewrite extractImagesFromXHTML_spec, Hparse. reflexivity.
Qed.

Lemma extractImagesFromXHTML_every_image_witness :
  html_Parse Fixture.lib Fixture.page_one_image
    = Some (Fixture.document [Fixture.elem "div" [] [Fixture.img "images/c.PNG"]])
  /\ extractImagesFromXHTML Fixture.lib Fixture.page_one_image "OEBPS/p2.xhtml" ["x"]
     = ["x"; "OEBPS/images/c.PNG"].
Proof.
  split; [reflexivity|].
  rewrite (extractImagesFromXHTML_every_image Fixture.lib Fixture.page_one_image
             "OEBPS/p2.xhtml" ["x"] _ eq_refl).
  reflexivity.
Defined.

(** An empty src attribute contributes the directory of the page, and only
    the first src attribute of an element is looked at. *)
Example empty_src_contributes :
  walk "OEBPS/text/p1.xhtml"
    (Fixture.document [Fixture.elem "img" [("alt", "x"); ("src", ""); ("src", "b.jpg")] []]) []
  = ["OEBPS/text"].
Proof. reflexivity. Qed.

Section Resolution.

Lemma TrimPrefix_slash_no_leading l :
  no_double_sep l = true ->
  strings.HasPrefix (strings.TrimPrefix (str l) "/") "/" = false
  /\ no_double_sep (bytes (strings.TrimPrefix (str l) "/")) = true.
Proof.
  intros Hl. unfold strings.TrimPrefix, strings.HasPrefix. rewrite bytes_str.
  change (bytes "/") with [filepath.Separator].
  destruct l as [|a l]; [split; reflexivity|].
  cbn [strings.strip]. fold (filepath.IsPathSeparator a).
  unfold byte_eqb. rewrite Ascii.eqb_sym. fold (byte_eqb a filepath.Separator).
  fold (filepath.IsPathSeparator a).
  destruct (filepath.IsPathSeparator a) eqn:Ha.
  - rewrite bytes_str. split; [|now apply no_double_sep_tail in Hl].
    destruct l as [|b l]; [reflexivity|]. cbn [strings.strip].
    unfold byte_eqb. rewrite Ascii.eqb_sym. fold (byte_eqb b filepath.Separator).
    fold (filepath.IsPathSeparator b).
    cbn [no_double_sep] in Hl. rewrite Ha in Hl. cbn [andb] in Hl.
    destruct (filepath.IsPathSeparator b); [discriminate Hl | reflexivity].
  - rewrite bytes_str. cbn [strings.strip].
    unfold byte_eqb. rewrite Ascii.eqb_sym. fold (byte_eqb a filepath.Separator).
    fold (filepath.IsPathSeparator a). rewrite Ha. split; [reflexivity | exact Hl].
Qed.

(** A resolved path never starts with a slash and holds no empty element. *)
Lemma resolve_against_normal docPath ref :
  strings.HasPrefix (resolve_against docPath ref) "/" = false
  /\ no_double_sep (bytes (resolve_against docPath ref)) = true.
Proof.
  unfold resolve_against, filepath.ToSlash. cbn [filepath.Join].
  destruct (String.eqb (filepath.Dir docPath) "").
  - destruct (String.eqb ref ""); [split; reflexivity|].
    apply TrimPrefix_slash_no_leading, clean_bytes_no_double_sep.
  - apply TrimPrefix_slash_no_leading, clean_bytes_no_double_sep.
Qed.

End Resolution.

(** *** Paths of plain names *)

Section PlainPaths.

Import filepath.

Lemma span_elem_app n p :
  no_sep n -> at_elem_end p = true -> span_elem (n ++ p) = (n, p).
Proof.
  induction 1 as [|c n Hc Hn IH]; intros Hp; cbn [app].
  - destruct p as [|c p]; [reflexivity|]. cbn [span_elem at_elem_end] in *. now rewrite Hp.
  - cbn [span_elem]. now rewrite Hc, IH.
Qed.

(** One iteration of the loop of [Clean] on a plain name. *)
Lemma clean_loop_name fuel n p out dotdot :
  plain n -> at_elem_end p = true ->
  clean_loop (S fuel) false (n ++ p) out dotdot
  = clean_loop fuel false p
      (rev n ++ (if length out =? 0 then out else Separator :: out)) dotdot.
Proof.
  intros (Hne & Hsep & Hdot & Hdotdot) Hp.
  destruct n as [|c n]; [contradiction|].
  pose proof (span_elem_app (c :: n) p Hsep Hp) as Hspan.
  inversion Hsep as [|? ? Hc Hn]; subst.
  cbn [app clean_loop]. rewrite Hc.
  assert (Hcond2 : byte_eqb c dot && at_elem_end (n ++ p) = false).
  { destruct (byte_eqb c dot) eqn:Hcd; [|reflexivity].
    apply Ascii.eqb_eq in Hcd. subst c.
    destruct n as [|d n]; [contradiction|].
    inversion Hn; subst. assumption. }
  rewrite Hcond2.
  assert (Hcond3 : byte_eqb c dot
                   && match n ++ p with
                      | d :: rest2 => byte_eqb d dot && at_elem_end rest2
                      | [] => false
                      end = false).
  { destruct (byte_eqb c dot) eqn:Hcd; [|reflexivity].
    apply Ascii.eqb_eq in Hcd. subst c.
    destruct n as [|d n]; [contradiction|]. cbn [app andb].
    destruct (byte_eqb d dot) eqn:Hdd; [|reflexivity].
    apply Ascii.eqb_eq in Hdd. subst d.
    destruct n as [|e n]; [contradiction|].
    inversion Hn as [|? ? _ Hn']; subst. inversion Hn'; subst. assumption. }
  rewrite Hcond3. cbn [app] in Hspan. rewrite Hspan.
  cbn [andb negb orb]. now destruct (length out =? 0).
Qed.

Lemma clean_loop_separators fuel k out dotdot :
  clean_loop fuel false (repeat Separator k) out dotdot = out.
Proof.
  revert k. induction fuel as [|fuel IH]; intros k; [reflexivity|].
  destruct k as [|k]; [reflexivity|]. cbn [repeat clean_loop].
  change (IsPathSeparator Separator) with true. apply IH.
Qed.

Lemma join_bytes_head ns :
  Forall plain ns -> ns <> [] ->
  exists c t, join_bytes ns = c :: t /\ IsPathSeparator c = false.
Proof.
  intros Hns Hne. destruct ns as [|n ns]; [contradiction|].
  inversion Hns as [|? ? (Hn & Hsep & _) _]; subst.
  destruct n as [|c n]; [contradiction|]. inversion Hsep; subst.
  cbn [join_bytes]. destruct ns; cbn [app]; eauto.
Qed.

Lemma join_bytes_app ns1 ns2 :
  ns1 <> [] -> ns2 <> [] ->
  join_bytes (ns1 ++ ns2) = join_bytes ns1 ++ Separator :: join_bytes ns2.
Proof.
  intros H1 H2. induction ns1 as [|n ns1 IH]; [contradiction|].
  destruct ns1 as [|n' ns1].
  - destruct ns2; [contradiction | reflexivity].
  - change (join_bytes ((n :: n' :: ns1) ++ ns2))
      with (n ++ Separator :: join_bytes ((n' :: ns1) ++ ns2)).
    rewrite IH by discriminate.
    change (join_bytes (n :: n' :: ns1)) with (n ++ Separator :: join_bytes (n' :: ns1)).
    now rewrite <- app_assoc.
Qed.

(** The loop of [Clean] copies a path of plain names. *)
Lemma clean_loop_names ns :
  Forall plain ns -> ns <> [] ->
  forall fuel k out dotdot,
    length (join_bytes ns) + k <= fuel ->
    clean_loop fuel false (join_bytes ns ++ repeat Separator k) out dotdot
    = rev (join_bytes ns) ++ (if length out =? 0 then out else Separator :: out).
Proof.
  induction 1 as [|n ns Hn Hns IH]; intros Hne fuel k out dotdot Hfuel; [contradiction|].
  assert (Hlen : 1 <= length n).
  { destruct Hn as (Hn & _). destruct n; [contradiction | cbn; lia]. }
  destruct ns as [|n' ns].
  - cbn [join_bytes] in *. destruct fuel as [|fuel]; [lia|].
    rewrite clean_loop_name; [|exact Hn|now destruct k].
    apply clean_loop_separators.
  - change (join_bytes (n :: n' :: ns)) with (n ++ Separator :: join_bytes (n' :: ns)) in *.
    rewrite length_app in Hfuel. cbn [length] in Hfuel.
    destruct fuel as [|[|fuel]]; [lia | lia |].
    rewrite <- app_assoc. cbn [app].
    rewrite clean_loop_name; [|exact Hn|reflexivity].
    cbn [clean_loop]. change (IsPathSeparator Separator) with true. cbn iota.
    rewrite IH; [|discriminate|lia].
    rewrite length_app, length_rev.
    destruct (length n + _ =? 0) eqn:Hz; [apply Nat.eqb_eq in Hz; lia|].
    rewrite rev_app_distr. cbn [rev]. now rewrite <- !app_assoc.
Qed.

Lemma clean_loop_names_only ns fuel out dotdot :
  Forall plain ns -> ns <> [] -> length (join_bytes ns) <= fuel ->
  clean_loop fuel false (join_bytes ns) out dotdot
  = rev (join_bytes ns) ++ (if length out =? 0 then out else Separator :: out).
Proof.
  intros Hns Hne Hfuel.
  pose proof (clean_loop_names ns Hns Hne fuel 0 out dotdot) as Hl.
  cbn [repeat] in Hl. rewrite app_nil_r in Hl. apply Hl. lia.
Qed.

Lemma clean_bytes_names ns k :
  Forall plain ns -> ns <> [] ->
  clean_bytes (join_bytes ns ++ repeat Separator k) = join_bytes ns.
Proof.
  intros Hns Hne.
  destruct (join_bytes_head ns Hns Hne) as (c & t & Hj & Hc).
  unfold clean_bytes.
  destruct (join_bytes ns ++ repeat Separator k) as [|c' rest] eqn:Hpath.
  { rewrite Hj in Hpath. discriminate Hpath. }
  assert (c' = c) as -> by (rewrite Hj in Hpath; now injection Hpath).
  rewrite Hc, <- Hpath.
  rewrite clean_loop_names; [|exact Hns|exact Hne|rewrite length_app, repeat_length; lia].
  cbn [length Nat.eqb]. rewrite app_nil_r, length_rev, Hj. cbn [length Nat.eqb].
  now rewrite <- Hj, rev_involutive.
Qed.

Lemma clean_bytes_names_only ns :
  Forall plain ns -> ns <> [] -> clean_bytes (join_bytes ns) = join_bytes ns.
Proof.
  intros Hns Hne. pose proof (clean_bytes_names ns 0 Hns Hne) as Hc.
  cbn [repeat] in Hc. now rewrite app_nil_r in Hc.
Qed.

Lemma clean_bytes_dot_names ns :
  Forall plain ns -> ns <> [] ->
  clean_bytes (dot :: Separator :: join_bytes ns) = join_bytes ns.
Proof.
  intros Hns Hne.
  destruct (join_bytes_head ns Hns Hne) as (c & t & Hj & Hc).
  unfold clean_bytes. change (IsPathSeparator dot) with false. cbn iota.
  cbn [length clean_loop]. change (IsPathSeparator dot) with false.
  change (byte_eqb dot dot) with true. change (at_elem_end (Separator :: join_bytes ns)) with true.
  cbn [andb]. change (IsPathSeparator Separator) with true. cbn iota.
  rewrite clean_loop_names_only; [|exact Hns|exact Hne|lia].
  cbn [length Nat.eqb]. rewrite app_nil_r, length_rev, Hj. cbn [length Nat.eqb].
  now rewrite <- Hj, rev_involutive.
Qed.

Lemma drop_last_elem_no_sep r x :
  no_sep r -> drop_last_elem (r ++ x) = drop_last_elem x.
Proof.
  induction 1 as [|c r Hc Hr IH]; [reflexivity|]. cbn [app drop_last_elem]. now rewrite Hc.
Qed.

(** The directory of a path of plain names is the path of all but the last. *)
Lemma Dir_names dirs f :
  Forall plain dirs -> plain f ->
  Dir (str (join_bytes (dirs ++ [f])))
  = str (match dirs with [] => [dot] | _ :: _ => join_bytes dirs end).
Proof.
  intros Hdirs (Hf & Hsep & _). unfold Dir. rewrite bytes_str. f_equal.
  destruct dirs as [|d dirs].
  - cbn [app join_bytes]. rewrite <- (app_nil_r (rev f)).
    rewrite drop_last_elem_no_sep by now apply no_sep_rev. reflexivity.
  - rewrite join_bytes_app by discriminate. cbn [join_bytes].
    rewrite rev_app_distr. cbn [rev]. rewrite <- app_assoc. cbn [app].
    rewrite drop_last_elem_no_sep by now apply no_sep_rev.
    cbn [drop_last_elem]. change (IsPathSeparator Separator) with true. cbn iota.
    cbn [rev]. rewrite rev_involutive.
    apply (clean_bytes_names (d :: dirs) 1); [exact Hdirs | discriminate].
Qed.

Lemma TrimPrefix_slash_relative l c t :
  l = c :: t -> IsPathSeparator c = false -> strings.TrimPrefix (str l) "/" = str l.
Proof.
  intros -> Hc. unfold strings.TrimPrefix. rewrite bytes_str.
  change (bytes "/") with [Separator]. cbn [strings.strip].
  unfold byte_eqb. rewrite Ascii.eqb_sym. fold (byte_eqb c Separator).
  fold (IsPathSeparator c). now rewrite Hc.
Qed.

(** Resolving a reference of plain names against a document of plain names
    replaces the name of the document by the reference. *)
Lemma resolve_against_names dirs f hrefs :
  Forall plain dirs -> plain f -> Forall plain hrefs -> hrefs <> [] ->
  resolve_against (str (join_bytes (dirs ++ [f]))) (str (join_bytes hrefs))
  = str (join_bytes (dirs ++ hrefs)).
Proof.
  intros Hdirs Hf Hhrefs Hne. unfold resolve_against, ToSlash.
  rewrite Dir_names by assumption. cbn [Join].
  assert (Hall : Forall plain (dirs ++ hrefs)) by now apply Forall_app.
  assert (Hne' : dirs ++ hrefs <> []) by (destruct dirs; [exact Hne | discriminate]).
  destruct (join_bytes_head _ Hall Hne') as (c & t & Hj & Hc).
  destruct dirs as [|d dirs].
  - change (String.eqb (str [dot]) "") with false. cbn iota.
    cbn [join_sep]. rewrite !bytes_str. cbn [app].
    rewrite clean_bytes_dot_names by assumption.
    now apply (TrimPrefix_slash_relative _ c t).
  - destruct (join_bytes_head (d :: dirs) Hdirs ltac:(discriminate)) as (c' & t' & Hj' & _).
    destruct (String.eqb_spec (str (join_bytes (d :: dirs))) "") as [He|_].
    { apply (f_equal bytes) in He. rewrite bytes_str, Hj' in He. discriminate He. }
    cbn [join_sep]. rewrite !bytes_str, <- join_bytes_app by (discriminate || exact Hne).
    rewrite clean_bytes_names_only by assumption.
    now apply (TrimPrefix_slash_relative _ c t).
Qed.

Lemma bytes_concat ns : bytes (String.concat "/" ns) = join_bytes (map bytes ns).
Proof.
  induction ns as [|n ns IH]; [reflexivity|].
  destruct ns as [|n' ns]; [reflexivity|].
  change (String.concat "/" (n :: n' :: ns)) with (n +:+ "/" +:+ String.concat "/" (n' :: ns)).
  rewrite !bytes_app, IH. reflexivity.
Qed.

Lemma plain_name_plain n : plain_name n = true -> plain (bytes n).
Proof.
  unfold plain_name, plain. rewrite !andb_true_iff, !negb_true_iff, !String.eqb_neq.
  intros (((Hempty & Hdot) & Hdotdot) & Hsep).
  assert (Hinj : forall l, bytes n = l -> n = str l).
  { intros l <-. now rewrite str_bytes. }
  repeat split.
  - intros He. now apply Hinj in He.
  - apply Forall_forall. intros c Hc. apply list_elem_of_In in Hc.
    rewrite forallb_forall in Hsep. apply Hsep in Hc. now apply negb_true_iff in Hc.
  - intros He. now apply Hinj in He.
  - intros He. now apply Hinj in He.
Qed.

Lemma plain_names ns : forallb plain_name ns = true -> Forall plain (map bytes ns).
Proof.
  rewrite forallb_forall. intros H. apply Forall_fmap, Forall_forall.
  intros n Hn. apply plain_name_plain, H. now apply list_elem_of_In.
Qed.

(** The same, on strings: in the directory [dirs] of a document [f], the
    reference [hrefs] is [dirs/hrefs]. *)
Lemma resolve_against_plain dirs f hrefs :
  forallb plain_name (dirs ++ f :: hrefs) = true -> hrefs <> [] ->
  resolve_against (String.concat "/" (dirs ++ [f])) (String.concat "/" hrefs)
  = String.concat "/" (dirs ++ hrefs).
Proof.
  intros Hplain Hne. apply plain_names in Hplain.
  rewrite map_app in Hplain. cbn [map] in Hplain.
  apply Forall_app in Hplain as [Hdirs Hrest]. apply Forall_cons in Hrest as [Hf Hhrefs].
  rewrite <- (str_bytes (String.concat "/" (dirs ++ [f]))),
          <- (str_bytes (String.concat "/" hrefs)),
          <- (str_bytes (String.concat "/" (dirs ++ hrefs))).
  rewrite !bytes_concat, !map_app. cbn [map].
  apply resolve_against_names; try assumption.
  destruct hrefs; [contradiction | discriminate].
Qed.

End PlainPaths.

(** *** The resolved path is the path read lexically *)

Section Lexical.

Import filepath.

Lemma str_inj a b : str a = str b -> a = b.
Proof. intros H. apply (f_equal bytes) in H. now rewrite !bytes_str in H. Qed.

(** *** The elements of a path *)

Lemma elements_head p : exists e es, elements p = e :: es.
Proof.
  induction p as [|c p (e & es & IH)]; cbn [elements]; [eauto|].
  destruct (IsPathSeparator c); [eauto|]. rewrite IH. eauto.
Qed.

Lemma elements_no_sep l : no_sep l -> elements l = [l].
Proof.
  induction 1 as [|c l Hc Hl IH]; [reflexivity|]. cbn [elements]. now rewrite Hc, IH.
Qed.

Lemma elements_app a : forall b,
  elements (a ++ Separator :: b) = elements a ++ elements b.
Proof.
  induction a as [|c a IH]; intros b; cbn [app elements].
  - reflexivity.
  - rewrite IH. destruct (IsPathSeparator c); [reflexivity|].
    destruct (elements_head a) as (e & es & ->). reflexivity.
Qed.

Lemma elements_all_no_sep p : Forall no_sep (elements p).
Proof.
  induction p as [|c p IH]; cbn [elements].
  - repeat constructor.
  - destruct (IsPathSeparator c) eqn:Hc; [constructor; [constructor | exact IH]|].
    destruct (elements p) as [|e es]; [repeat constructor; exact Hc|].
    apply Forall_cons in IH as [He Hes]. constructor; [|exact Hes].
    constructor; assumption.
Qed.

Lemma at_elem_end_elements r :
  at_elem_end r = true -> exists es, elements r = [] :: es.
Proof.
  destruct r as [|c r]; cbn [at_elem_end elements]; [eauto|].
  intros ->. eauto.
Qed.

Lemma elements_elem e : forall r,
  no_sep e -> at_elem_end r = true -> elements (e ++ r) = e :: tl (elements r).
Proof.
  induction e as [|c e IH]; intros r He Hr; cbn [app].
  - destruct (at_elem_end_elements r Hr) as (es & ->). reflexivity.
  - inversion He as [|? ? Hc He']; subst. cbn [elements]. rewrite Hc, IH by assumption.
    reflexivity.
Qed.

(** *** Steps *)

Lemma lexical_step_empty rooted st : lexical_step rooted st [] = st.
Proof. reflexivity. Qed.

Lemma lexical_step_dot rooted st : lexical_step rooted st [dot] = st.
Proof. reflexivity. Qed.

Lemma lexical_step_dotdot rooted st :
  lexical_step rooted st [dot; dot]
  = match snd st with
    | _ :: names => (fst st, names)
    | [] => if rooted then st else (S (fst st), [])
    end.
Proof. reflexivity. Qed.

Lemma lexical_step_name rooted st e :
  plain e -> lexical_step rooted st e = (fst st, e :: snd st).
Proof.
  intros (Hne & _ & Hdot & Hdotdot). unfold lexical_step.
  destruct (String.eqb_spec (str e) "") as [He|_].
  { apply (str_inj e []) in He. contradiction. }
  destruct (String.eqb_spec (str e) ".") as [He|_].
  { apply (str_inj e [dot]) in He. contradiction. }
  destruct (String.eqb_spec (str e) "..") as [He|_].
  { apply (str_inj e [dot; dot]) in He. contradiction. }
  reflexivity.
Qed.

(** An element is empty, [.], [..] or a plain name. *)
Lemma element_cases e :
  no_sep e -> e = [] \/ e = [dot] \/ e = [dot; dot] \/ plain e.
Proof.
  intros He. destruct e as [|c e]; [now left|]. right.
  destruct (decide (c :: e = [dot])) as [->|H1]; [now left|]. right.
  destruct (decide (c :: e = [dot; dot])) as [->|H2]; [now left|]. right.
  repeat split; [discriminate | assumption..].
Qed.

(** The elements of what follows an element that the loop of [Clean] has
    read, and the steps over them. *)
Lemma lexical_elem rooted e r st :
  no_sep e -> at_elem_end r = true ->
  lexical rooted (elements (e ++ r)) st
  = lexical rooted (elements r) (lexical_step rooted st e).
Proof.
  intros He Hr. rewrite elements_elem by assumption.
  destruct (at_elem_end_elements r Hr) as (es & ->). reflexivity.
Qed.

(** *** Places *)

Lemma lexical_step_valid rooted st e :
  valid_place rooted st -> no_sep e -> valid_place rooted (lexical_step rooted st e).
Proof.
  intros [Hnames Hk] He.
  destruct (element_cases e He) as [->|[->|[->|Hplain]]]; [split; assumption..| |].
  - rewrite lexical_step_dotdot. destruct st as [k [|n names]]; cbn [fst snd] in *.
    + destruct rooted; split; cbn [fst snd]; auto. discriminate.
    + apply Forall_cons in Hnames as [_ Hnames]. split; assumption.
  - rewrite lexical_step_name by exact Hplain. split; cbn [fst snd]; [|exact Hk].
    constructor; assumption.
Qed.

Lemma lexical_valid rooted es : forall st,
  valid_place rooted st -> Forall no_sep es -> valid_place rooted (lexical rooted es st).
Proof.
  induction es as [|e es IH]; intros st Hst Hes; [exact Hst|].
  apply Forall_cons in Hes as [He Hes]. cbn [lexical fold_left].
  apply IH; [now apply lexical_step_valid | exact Hes].
Qed.

Lemma lexical_app rooted es1 es2 st :
  lexical rooted (es1 ++ es2) st = lexical rooted es2 (lexical rooted es1 st).
Proof. apply fold_left_app. Qed.

(** *** The buffer of [Clean] at a place *)

Lemma join_bytes_snoc q e :
  join_bytes (q ++ [e])
  = match q with [] => e | _ :: _ => join_bytes q ++ Separator :: e end.
Proof.
  destruct q as [|a q]; [reflexivity|].
  now rewrite join_bytes_app by discriminate.
Qed.

Lemma join_bytes_length_app a b :
  length (join_bytes a) <= length (join_bytes (a ++ b)).
Proof.
  destruct a as [|x a]; [cbn; lia|]. destruct b as [|y b]; [now rewrite app_nil_r|].
  rewrite join_bytes_app by discriminate. rewrite length_app. lia.
Qed.

Lemma join_bytes_nil q :
  Forall (fun e => e <> []) q -> join_bytes q = [] -> q = [].
Proof.
  intros Hq Hj. destruct q as [|e q]; [reflexivity|exfalso].
  apply Forall_cons in Hq as [He _]. cbn [join_bytes] in Hj.
  destruct q; [contradiction|]. destruct e; [contradiction | discriminate Hj].
Qed.

Lemma place_elements_nonempty rooted st :
  valid_place rooted st -> Forall (fun e => e <> []) (place_elements st).
Proof.
  intros [Hnames _]. apply Forall_app. split.
  - apply Forall_forall. intros e He. apply list_elem_of_In, repeat_spec in He. now subst.
  - apply List.Forall_rev. eapply Forall_impl; [exact Hnames|]. now intros e (He & _).
Qed.

Lemma place_path_nil rooted st :
  valid_place rooted st -> place_path st = [] -> st = (0, []).
Proof.
  intros Hst Hp. pose proof (place_elements_nonempty rooted st Hst) as Hne.
  apply join_bytes_nil in Hp; [|exact Hne].
  destruct st as [k names]. unfold place_elements in Hp. cbn [fst snd] in Hp.
  apply app_eq_nil in Hp as [Hk Hn].
  destruct k; [|discriminate Hk].
  apply (f_equal (@rev _)) in Hn. rewrite rev_involutive in Hn. now subst.
Qed.

(** Backtracking over the last name. *)
Lemma backtrack_to_root l : forall R dotdot,
  no_sep l -> l <> [] -> dotdot = length R -> backtrack dotdot (l ++ R) = R.
Proof.
  induction l as [|c l IH]; intros R dotdot Hl Hne Hdd; [contradiction|].
  inversion Hl as [|? ? Hc Hl']; subst. cbn [app backtrack]. rewrite Hc. cbn [negb].
  destruct l as [|d l].
  - cbn [app]. now rewrite Nat.ltb_irrefl.
  - destruct (Nat.ltb_spec (length R) (length ((d :: l) ++ R))) as [_|Hge].
    + cbn [andb]. apply IH; [assumption | discriminate | reflexivity].
    + rewrite length_app in Hge. cbn [length] in Hge. lia.
Qed.

Lemma backtrack_to_sep l : forall X dotdot,
  no_sep l -> l <> [] -> dotdot <= length X ->
  backtrack dotdot (l ++ Separator :: X) = X.
Proof.
  induction l as [|c l IH]; intros X dotdot Hl Hne Hdd; [contradiction|].
  inversion Hl as [|? ? Hc Hl']; subst. cbn [app backtrack]. rewrite Hc. cbn [negb].
  destruct (Nat.ltb_spec dotdot (length (l ++ Separator :: X))) as [_|Hge].
  - cbn [andb]. destruct l as [|d l].
    + cbn [app backtrack]. change (IsPathSeparator Separator) with true.
      cbn [negb]. now rewrite andb_false_r.
    + apply IH; [assumption | discriminate | assumption].
  - rewrite length_app in Hge. cbn [length] in Hge. lia.
Qed.

Lemma rev_root_slash rooted : rev (root_slash rooted) = root_slash rooted.
Proof. now destruct rooted. Qed.

Lemma length_root_slash rooted : length (root_slash rooted) = if rooted then 1 else 0.
Proof. now destruct rooted. Qed.

Lemma place_elements_push k names n :
  place_elements (k, n :: names) = place_elements (k, names) ++ [n].
Proof. unfold place_elements. cbn [fst snd rev]. now rewrite app_assoc. Qed.

(** The buffer after a name. *)
Lemma buffer_of_push rooted k names n :
  valid_place rooted (k, names) ->
  buffer_of rooted (k, n :: names)
  = rev n ++ (if (rooted && negb (length (buffer_of rooted (k, names)) =? 1))
                 || (negb rooted && negb (length (buffer_of rooted (k, names)) =? 0))
              then Separator :: buffer_of rooted (k, names)
              else buffer_of rooted (k, names)).
Proof.
  intros Hst. unfold buffer_of, place_path.
  fold (place_elements (k, n :: names)). fold (place_elements (k, names)).
  rewrite place_elements_push, join_bytes_snoc.
  rewrite !length_rev, !length_app, length_root_slash.
  pose proof (place_elements_nonempty rooted _ Hst) as Hne.
  destruct (place_elements (k, names)) as [|a q] eqn:Hq.
  - cbn [join_bytes length app]. rewrite rev_app_distr.
    destruct rooted; cbn [andb orb negb Nat.eqb Nat.add]; now rewrite ?app_nil_r.
  - assert (Hlen : 0 < length (join_bytes (a :: q))).
    { destruct (join_bytes (a :: q)) eqn:Hj; [|cbn; lia].
      apply join_bytes_nil in Hj; [discriminate Hj | exact Hne]. }
    rewrite !rev_app_distr. cbn [rev]. rewrite <- !app_assoc. cbn [app].
    destruct rooted; cbn [andb orb negb].
    + destruct (Nat.eqb_spec (1 + length (join_bytes (a :: q))) 1); [lia|]. reflexivity.
    + destruct (Nat.eqb_spec (0 + length (join_bytes (a :: q))) 0); [lia|]. reflexivity.
Qed.

(** The buffer before the last name: what backtracking leaves. *)
Lemma buffer_of_pop rooted k names n :
  valid_place rooted (k, n :: names) ->
  (dotdot_of rooted (k, n :: names) <? length (buffer_of rooted (k, n :: names))) = true
  /\ backtrack (dotdot_of rooted (k, n :: names)) (buffer_of rooted (k, n :: names))
     = buffer_of rooted (k, names).
Proof.
  intros [Hnames Hk]. cbn [snd] in Hnames. apply Forall_cons in Hnames as [Hn Hnames].
  assert (Hst : valid_place rooted (k, names)) by (split; assumption).
  pose proof (place_elements_nonempty rooted _ Hst) as Hne.
  destruct Hn as (Hn & Hsep & _).
  assert (Hlen : 0 < length n) by (destruct n; [contradiction | cbn; lia]).
  unfold buffer_of, dotdot_of, place_path.
  fold (place_elements (k, n :: names)). fold (place_elements (k, names)). cbn [fst].
  rewrite place_elements_push, join_bytes_snoc.
  pose proof (join_bytes_length_app (repeat [dot; dot] k) (rev names)) as Hmono.
  change (repeat [dot; dot] k ++ rev names) with (place_elements (k, names)) in Hmono.
  destruct (place_elements (k, names)) as [|a q] eqn:Hq.
  - assert (Hk0 : repeat [dot; dot] k = []).
    { unfold place_elements in Hq. cbn [fst snd] in Hq. now apply app_eq_nil in Hq. }
    rewrite Hk0. cbn [join_bytes]. rewrite !app_nil_r, rev_app_distr, rev_root_slash.
    split.
    + apply Nat.ltb_lt. rewrite length_app, length_rev. lia.
    + apply backtrack_to_root; [now apply no_sep_rev| |reflexivity].
      intros He. apply (f_equal (@length _)) in He. rewrite length_rev in He. cbn in He. lia.
  - rewrite !rev_app_distr. cbn [rev]. rewrite <- !app_assoc. cbn [app].
    split.
    + apply Nat.ltb_lt. rewrite !length_app. cbn [length].
      rewrite !length_app, !length_rev. lia.
    + apply backtrack_to_sep; [now apply no_sep_rev| |].
      * intros He. apply (f_equal (@length _)) in He. rewrite length_rev in He. cbn in He. lia.
      * rewrite !length_app, !length_rev. lia.
Qed.

(** At a place without names the buffer ends where backtracking stops. *)
Lemma buffer_of_up rooted k :
  length (buffer_of rooted (k, [])) = dotdot_of rooted (k, []).
Proof.
  unfold buffer_of, dotdot_of, place_path. cbn [fst snd rev].
  now rewrite app_nil_r, length_rev.
Qed.

(** The buffer after a [..] that cannot backtrack. *)
Lemma buffer_of_dotdot k :
  buffer_of false (S k, [])
  = dot :: dot :: (if 0 <? length (buffer_of false (k, []))
                   then Separator :: buffer_of false (k, [])
                   else buffer_of false (k, [])).
Proof.
  unfold buffer_of, place_path. cbn [fst snd rev root_slash app]. rewrite !app_nil_r.
  replace (repeat [dot; dot] (S k)) with (repeat [dot; dot] k ++ [[dot; dot]])
    by (symmetry; apply (repeat_cons k [dot; dot])).
  rewrite join_bytes_snoc. destruct k as [|k]; [reflexivity|].
  cbn [repeat]. rewrite rev_app_distr. cbn [rev app].
  destruct (Nat.ltb_spec 0 (length (rev (join_bytes ([dot; dot] :: repeat [dot; dot] k)))))
    as [_|Hz]; [reflexivity|].
  rewrite length_rev in Hz. destruct k; cbn in Hz; lia.
Qed.

Lemma dotdot_of_names rooted k names names' :
  dotdot_of rooted (k, names) = dotdot_of rooted (k, names').
Proof. reflexivity. Qed.

(** The loop of [Clean] goes through the elements of the path: its buffer
    is the path to the place that the elements read so far lead to. *)
Lemma clean_loop_lexical rooted fuel : forall p st,
  valid_place rooted st -> length p <= fuel ->
  clean_loop fuel rooted p (buffer_of rooted st) (dotdot_of rooted st)
  = buffer_of rooted (lexical rooted (elements p) st).
Proof.
  induction fuel as [|fuel IH]; intros p st Hst Hlen.
  { destruct p; [reflexivity | cbn in Hlen; lia]. }
  destruct p as [|c rest]; [reflexivity|]. cbn [length] in Hlen. cbn [clean_loop].
  destruct (IsPathSeparator c) eqn:Hc.
  { cbn [elements]. rewrite Hc. cbn [lexical fold_left]. rewrite lexical_step_empty.
    apply IH; [exact Hst | lia]. }
  destruct (byte_eqb c dot && at_elem_end rest) eqn:H1.
  { apply andb_true_iff in H1 as [Hd Hend]. apply Ascii.eqb_eq in Hd. subst c.
    change (dot :: rest) with ([dot] ++ rest).
    rewrite lexical_elem, lexical_step_dot by (assumption || (repeat constructor)).
    apply IH; [exact Hst | lia]. }
  lazymatch goal with |- (if ?b then _ else _) = _ => destruct b eqn:H2 end.
  { apply andb_true_iff in H2 as [Hd H2]. apply Ascii.eqb_eq in Hd. subst c.
    destruct rest as [|d rest2]; [cbn in H2; discriminate H2|].
    apply andb_true_iff in H2 as [Hd Hend]. apply Ascii.eqb_eq in Hd. subst d.
    change (dot :: dot :: rest2) with ([dot; dot] ++ rest2).
    rewrite lexical_elem, lexical_step_dotdot by (assumption || (repeat constructor)).
    cbn [tl]. cbn [length] in Hlen. destruct st as [k [|n names]]; cbn [fst snd].
    - rewrite <- buffer_of_up, Nat.ltb_irrefl.
      destruct rooted; cbn [negb].
      + rewrite buffer_of_up. apply IH; [exact Hst | lia].
      + match goal with |- context [clean_loop fuel false rest2 ?o (length ?o)] =>
          replace o with (buffer_of false (S k, [])) by apply buffer_of_dotdot
        end.
        rewrite buffer_of_up. apply IH; [|lia]. split; [constructor | discriminate].
    - destruct (buffer_of_pop rooted k names n Hst) as [-> ->].
      rewrite (dotdot_of_names rooted k (n :: names) names). apply IH; [|lia].
      destruct Hst as [Hn Hk]. cbn [snd] in Hn. apply Forall_cons in Hn as [_ Hn].
      split; assumption. }
  destruct (span_elem_head c rest Hc) as (e & r & Hspan & Hs). rewrite Hspan.
  apply span_elem_spec in Hs as (-> & He & Hr).
  assert (Hplain : plain (c :: e)).
  { repeat split; [discriminate | now constructor | |].
    - intros [= -> ->]. cbn [app] in H1. rewrite Hr in H1. discriminate H1.
    - intros [= -> He']. destruct e as [|d e]; [discriminate He'|].
      injection He' as -> ->. cbn [app] in H2. rewrite Hr in H2. discriminate H2. }
  change (c :: e ++ r) with ((c :: e) ++ r).
  rewrite lexical_elem, lexical_step_name by (assumption || now constructor).
  destruct st as [k names]. cbn [fst snd].
  rewrite <- buffer_of_push by exact Hst.
  rewrite (dotdot_of_names rooted k names ((c :: e) :: names)).
  apply IH.
  - destruct Hst as [Hn Hk]. split; [constructor; assumption | exact Hk].
  - rewrite length_app in Hlen. lia.
Qed.

(** [Clean], lexically: the path to the place that the elements of the path
    lead to, from the root if the path starts with a separator, and [.] for
    the place where a relative path started. *)
Lemma clean_bytes_lexical p :
  clean_bytes p
  = match root_slash (is_rooted p)
          ++ place_path (lexical (is_rooted p) (elements p) (0, [])) with
    | [] => [dot]
    | c :: r => c :: r
    end.
Proof.
  assert (Hfinal : forall out, rev (if length out =? 0 then [dot] else out)
                               = match rev out with [] => [dot] | c :: r => c :: r end).
  { intros out. destruct out as [|x out]; [reflexivity|]. cbn [length Nat.eqb].
    destruct (rev (x :: out)) eqn:Hr; [|reflexivity].
    apply (f_equal (@length _)) in Hr. rewrite length_rev in Hr. discriminate Hr. }
  assert (Hstart : forall rooted, valid_place rooted (0, []))
    by (split; [constructor | reflexivity]).
  unfold clean_bytes. destruct p as [|c rest]; [reflexivity|]. cbn [is_rooted].
  destruct (IsPathSeparator c) eqn:Hc; rewrite Hfinal.
  - change [Separator] with (buffer_of true (0, [])).
    change 1 with (dotdot_of true (0, [])) at 1.
    rewrite clean_loop_lexical by (auto; cbn [length]; lia).
    unfold buffer_of. rewrite rev_involutive. cbn [elements]. rewrite Hc. reflexivity.
  - change (@nil ascii) with (buffer_of false (0, [])) at 1.
    change 0 with (dotdot_of false (0, [])) at 1.
    rewrite clean_loop_lexical by auto.
    unfold buffer_of. rewrite rev_involutive. reflexivity.
Qed.

(** *** The directory of a path, and joining *)

Lemma IsPathSeparator_eq c : IsPathSeparator c = true -> c = Separator.
Proof. apply Ascii.eqb_eq. Qed.

(** A path is what [Dir] cleans, then a last element. *)
Lemma dir_prefix p :
  exists pre last,
    p = pre ++ last /\ no_sep last
    /\ rev (drop_last_elem (rev p)) = pre
    /\ (pre = [] \/ exists pre', pre = pre' ++ [Separator]).
Proof.
  induction p as [|c p IH] using rev_ind.
  - exists [], []. repeat split; [constructor | now left].
  - rewrite rev_app_distr. cbn [rev app drop_last_elem].
    destruct (IsPathSeparator c) eqn:Hc.
    + exists (p ++ [c]), []. rewrite app_nil_r. repeat split; [constructor| |].
      * cbn [rev]. now rewrite rev_involutive.
      * right. exists p. now rewrite (IsPathSeparator_eq c Hc).
    + destruct IH as (pre & last & Hp & Hlast & Hpre & Hcases).
      exists pre, (last ++ [c]). repeat split; [| |exact Hpre|exact Hcases].
      * now rewrite Hp at 1; rewrite <- app_assoc.
      * apply Forall_app. split; [exact Hlast | now repeat constructor].
Qed.

Lemma is_rooted_app a b : a <> [] -> is_rooted (a ++ b) = is_rooted a.
Proof. destruct a; [contradiction | reflexivity]. Qed.

Lemma is_rooted_no_sep l : no_sep l -> is_rooted l = false.
Proof. destruct 1; [reflexivity | assumption]. Qed.

(** What [Dir] cleans holds the elements of the path but the last. *)
Lemma lexical_dir p rooted st :
  lexical rooted (elements (rev (drop_last_elem (rev p)))) st
  = lexical rooted (removelast (elements p)) st
  /\ is_rooted (rev (drop_last_elem (rev p))) = is_rooted p.
Proof.
  destruct (dir_prefix p) as (pre & last & Hp & Hlast & -> & [->|(pre' & ->)]).
  - cbn [app] in Hp. subst p. rewrite (elements_no_sep last) by exact Hlast.
    split; [reflexivity|]. symmetry. now apply is_rooted_no_sep.
  - rewrite Hp, <- !app_assoc. cbn [app]. rewrite !elements_app.
    rewrite (elements_no_sep last) by exact Hlast. rewrite removelast_last.
    cbn [elements]. rewrite lexical_app. split; [reflexivity|].
    destruct pre'; reflexivity.
Qed.

(** *** Reading a cleaned path again *)

Lemma lexical_up k : forall j,
  lexical false (repeat [dot; dot] k) (j, []) = (j + k, []).
Proof.
  induction k as [|k IH]; intros j; cbn [repeat lexical fold_left].
  - now rewrite Nat.add_0_r.
  - rewrite lexical_step_dotdot. cbn [fst snd]. fold (lexical false (repeat [dot; dot] k) (S j, [])).
    rewrite IH. f_equal. lia.
Qed.

Lemma lexical_names rooted ns : forall k acc,
  Forall plain ns -> lexical rooted ns (k, acc) = (k, rev ns ++ acc).
Proof.
  induction ns as [|n ns IH]; intros k acc Hns; [reflexivity|].
  apply Forall_cons in Hns as [Hn Hns]. cbn [lexical fold_left].
  rewrite lexical_step_name by exact Hn. cbn [fst snd].
  fold (lexical rooted ns (k, n :: acc)). rewrite IH by exact Hns.
  cbn [rev]. now rewrite <- app_assoc.
Qed.

Lemma lexical_place_elements rooted st :
  valid_place rooted st -> lexical rooted (place_elements st) (0, []) = st.
Proof.
  intros [Hnames Hk]. destruct st as [k names]. cbn [fst snd] in *.
  unfold place_elements. cbn [fst snd]. rewrite lexical_app.
  assert (Hup : lexical rooted (repeat [dot; dot] k) (0, []) = (k, [])).
  { destruct rooted; [now rewrite Hk|]. apply lexical_up. }
  rewrite Hup, lexical_names by now apply List.Forall_rev.
  now rewrite rev_involutive, app_nil_r.
Qed.

Lemma elements_join q :
  q <> [] -> Forall no_sep q -> elements (join_bytes q) = q.
Proof.
  intros Hne Hq. induction Hq as [|e q He Hq IH]; [contradiction|].
  destruct q as [|e' q]; [now apply elements_no_sep|].
  change (join_bytes (e :: e' :: q)) with (e ++ Separator :: join_bytes (e' :: q)).
  rewrite elements_app, IH by discriminate. now rewrite elements_no_sep.
Qed.

Lemma place_elements_no_sep rooted st :
  valid_place rooted st -> Forall no_sep (place_elements st).
Proof.
  intros [Hnames _]. apply Forall_app. split.
  - apply Forall_forall. intros e He. apply list_elem_of_In, repeat_spec in He. subst.
    repeat constructor.
  - apply List.Forall_rev. eapply Forall_impl; [exact Hnames|]. now intros e (_ & He & _).
Qed.

Lemma join_bytes_not_rooted q :
  Forall no_sep q -> Forall (fun e => e <> []) q -> is_rooted (join_bytes q) = false.
Proof.
  intros Hs Hn. destruct q as [|e q]; [reflexivity|].
  apply Forall_cons in Hs as [He _]. apply Forall_cons in Hn as [Hne _].
  destruct e as [|c e]; [contradiction|]. inversion He; subst.
  cbn [join_bytes]. now destruct q.
Qed.

Lemma cleaned_reread rooted st :
  valid_place rooted st ->
  cleaned rooted st <> []
  /\ is_rooted (cleaned rooted st) = rooted
  /\ lexical rooted (elements (cleaned rooted st)) (0, []) = st.
Proof.
  intros Hst. unfold cleaned.
  pose proof (place_elements_no_sep rooted st Hst) as Hsep.
  pose proof (place_elements_nonempty rooted st Hst) as Hne.
  pose proof (lexical_place_elements rooted st Hst) as Hread.
  pose proof (place_path_nil rooted st Hst) as Hnil.
  pose proof (join_bytes_not_rooted _ Hsep Hne) as Hrel.
  unfold place_path in *. fold (place_elements st) in *.
  destruct (place_elements st) as [|e q] eqn:Hq.
  - cbn [join_bytes] in *. rewrite app_nil_r. rewrite Hnil by reflexivity.
    destruct rooted; repeat split; discriminate.
  - assert (Hel : elements (join_bytes (e :: q)) = e :: q)
      by (apply elements_join; [discriminate | exact Hsep]).
    destruct rooted; cbn [root_slash app].
    + repeat split; [discriminate|]. cbn [elements].
      change (IsPathSeparator Separator) with true. cbn iota.
      rewrite Hel. exact Hread.
    + destruct (join_bytes (e :: q)) as [|c r] eqn:Hj.
      { apply join_bytes_nil in Hj; [discriminate Hj | exact Hne]. }
      repeat split; [discriminate | exact Hrel |]. now rewrite Hel.
Qed.

Lemma clean_bytes_cleaned p :
  clean_bytes p = cleaned (is_rooted p) (lexical (is_rooted p) (elements p) (0, [])).
Proof. apply clean_bytes_lexical. Qed.

Lemma valid_start rooted : valid_place rooted (0, []).
Proof. split; [constructor | reflexivity]. Qed.

(** The path that the code resolves a reference to is the path read
    lexically from the directory of the document. *)
Lemma resolve_against_resolved docPath ref :
  resolve_against docPath ref = resolved docPath ref.
Proof.
  unfold resolve_against, resolved, ToSlash, Dir.
  set (p := bytes docPath). set (rooted := is_rooted p).
  destruct (lexical_dir p rooted (0, [])) as [Hdir Hroot].
  rewrite clean_bytes_cleaned, Hroot. fold rooted. rewrite Hdir.
  set (st1 := lexical rooted (removelast (elements p)) (0, [])).
  assert (Hst1 : valid_place rooted st1).
  { apply lexical_valid; [apply valid_start|].
    pose proof (elements_all_no_sep p) as Hall.
    destruct (elements p) as [|e es] using rev_ind; [constructor|].
    rewrite removelast_last. now apply Forall_app in Hall as [Hall _]. }
  destruct (cleaned_reread rooted st1 Hst1) as (Hne & Hr & Hread).
  cbn [Join].
  destruct (String.eqb_spec (str (cleaned rooted st1)) "") as [He|_].
  { apply (str_inj _ []) in He. contradiction. }
  cbn [join_sep]. rewrite bytes_str, clean_bytes_cleaned.
  rewrite is_rooted_app, Hr by exact Hne.
  rewrite elements_app, lexical_app, Hread.
  rewrite lexical_app. fold st1.
  set (st2 := lexical rooted (elements (bytes ref)) st1).
  assert (Hst2 : valid_place rooted st2)
    by (apply lexical_valid; [exact Hst1 | apply elements_all_no_sep]).
  pose proof (place_elements_no_sep rooted st2 Hst2) as Hsep.
  pose proof (place_elements_nonempty rooted st2 Hst2) as Hnonempty.
  pose proof (join_bytes_not_rooted _ Hsep Hnonempty) as Hrel.
  unfold cleaned. change (join_bytes (place_elements st2)) with (place_path st2) in Hrel.
  destruct rooted; cbn [root_slash app].
  - unfold strings.TrimPrefix. rewrite bytes_str. cbn.
    destruct (place_path st2); reflexivity.
  - destruct (place_path st2) as [|c r] eqn:Hp; [reflexivity|].
    cbn [is_rooted] in Hrel. now apply (TrimPrefix_slash_relative _ c r).
Qed.

End Lexical.

(** The lexical reading on the paths that the code was tried on, with
    elements [.] and [..], empty elements and a rooted document. *)
Example resolved_examples :
  map (fun p => resolved (fst p) (snd p))
    [("OEBPS/content.opf", "text/p1.xhtml");
     ("OEBPS/text/p1.xhtml", "../images/a.jpg");
     ("content.opf", "p1.xhtml");
     ("/OEBPS/content.opf", "p1.xhtml");
     ("OEBPS/content.opf", "/cover.jpg");
     ("OEBPS/content.opf", "../../x.jpg");
     ("a//b/./c.opf", "./d//e/../f");
     ("/a.opf", "..");
     ("a.opf", "")]
  = ["OEBPS/text/p1.xhtml"; "OEBPS/images/a.jpg"; "p1.xhtml"; "OEBPS/p1.xhtml";
     "OEBPS/cover.jpg"; "../x.jpg"; "a/b/d/f"; ""; "."].
Proof. reflexivity. Qed.

(** C7, as the specification words it, fails where the separator is the
    slash: no character of an href is converted, and a backslash in it is
    left in the resolved path. *)
Lemma forward_slashes_counterexample :
  let href := String (ascii_of_nat 92) "p1.xhtml" in
  spine_loop (manifest_loop [{| ID := "p1"; Href := "text" +:+ href |}] ∅)
    "OEBPS/content.opf" [{| IDRef := "p1" |}] []
  = ["OEBPS/text" +:+ href]
  /\ forward_slashes_only ("OEBPS/text" +:+ href) = false.
Proof. split; vm_compute; reflexivity. Qed.

(** C7, amended: a resolved page path is the href of the manifest read
    from the directory of the package document, a resolved image path is the
    src attribute read from the directory of its own page document: the
    elements of the path of the document without the last, then those of
    the reference, where an empty element and [.] change nothing and [..]
    leaves the last name. The result never starts with a slash and holds no
    empty element; the slash is the only separator, so that a backslash
    stays what it is, a character of a name. For a document [dirs/f] and a
    reference [hrefs] of plain names the result is [dirs/hrefs]. *)
Theorem paths_resolved_against_document_directory :
  (forall (pageMap : gmap string string) volOPFPath refs,
      spine_loop pageMap volOPFPath refs []
      = omap (fun ref => resolved volOPFPath <$> pageMap !! IDRef ref) refs)
  /\ (forall pageHref doc srcs,
         walk pageHref doc srcs = srcs ++ map (resolved pageHref) (img_srcs doc))
  /\ (forall docPath ref,
         strings.HasPrefix (resolved docPath ref) "/" = false
         /\ no_double_sep (bytes (resolved docPath ref)) = true)
  /\ (forall dirs f hrefs,
         forallb plain_name (dirs ++ f :: hrefs) = true -> hrefs <> [] ->
         resolved (String.concat "/" (dirs ++ [f])) (String.concat "/" hrefs)
         = String.concat "/" (dirs ++ hrefs)).
Proof.
  split; [|split; [|split]].
  - intros pageMap volOPFPath refs. rewrite spine_loop_spec. cbn [app].
    apply list_omap_ext, Forall_Forall2_diag, Forall_forall. intros ref _.
    destruct (pageMap !! IDRef ref); cbn [fmap option_fmap option_map]; [|reflexivity].
    now rewrite resolve_against_resolved.
  - intros pageHref doc srcs. rewrite walk_spec. f_equal.
    apply map_ext. intros v. apply resolve_against_resolved.
  - intros docPath ref. rewrite <- resolve_against_resolved. apply resolve_against_normal.
  - intros dirs f hrefs Hplain Hne. rewrite <- resolve_against_resolved.
    now apply resolve_against_plain.
Qed.

Lemma paths_resolved_against_document_directory_witness :
  resolved "OEBPS/text/p1.xhtml" "images/a.jpg" = "OEBPS/text/images/a.jpg".
Proof.
  destruct paths_resolved_against_document_directory as (_ & _ & _ & Hplain).
  apply (Hplain ["OEBPS"; "text"] "p1.xhtml" ["images"; "a.jpg"]); [reflexivity | discriminate].
Defined.

(** The base is the directory of the document, not the archive root, and a
    rooted package path loses its slash. *)
Example resolve_against_examples :
  map (fun p => resolve_against (fst p) (snd p))
    [("OEBPS/content.opf", "text/p1.xhtml");
     ("OEBPS/text/p1.xhtml", "../images/a.jpg");
     ("content.opf", "p1.xhtml");
     ("/OEBPS/content.opf", "p1.xhtml");
     ("OEBPS/content.opf", "/cover.jpg");
     ("OEBPS/content.opf", "../../x.jpg")]
  = ["OEBPS/text/p1.xhtml"; "OEBPS/images/a.jpg"; "p1.xhtml"; "OEBPS/p1.xhtml";
     "OEBPS/cover.jpg"; "../x.jpg"].
Proof. reflexivity. Qed.

(** ** C8: the Manga flag *)

Section Manga.

Lemma japanese_rune_spec r : japanese_rune r = true <-> in_japanese_ranges r.
Proof.
  unfold japanese_rune, in_japanese_ranges.
  rewrite !orb_true_iff, !andb_true_iff, !Z.leb_le. tauto.
Qed.

Lemma containsJapanese_loop_spec rs :
  containsJapanese_loop rs = true <-> exists r, r ∈ rs /\ in_japanese_ranges r.
Proof.
  induction rs as [|r rs IH]; cbn [containsJapanese_loop].
  - split; [discriminate|]. intros (r & Hin & _). now apply elem_of_nil in Hin.
  - destruct (japanese_rune r) eqn:Hr.
    + split; [|reflexivity]. intros _. exists r. split; [left|now apply japanese_rune_spec].
    + rewrite IH. split.
      * intros (r' & Hin & Hj). exists r'. split; [now right | exact Hj].
      * intros (r' & Hin & Hj). apply elem_of_cons in Hin as [->|Hin].
        -- apply japanese_rune_spec in Hj. congruence.
        -- eauto.
Qed.

Lemma DecodeRune_width s0 r : 1 <= snd (utf8.DecodeRune s0 r).
Proof.
  unfold utf8.DecodeRune.
  repeat match goal with
         | |- context [match ?x with _ => _ end] => destruct x
         end; cbn [snd]; lia.
Qed.

(** [length s] steps are enough for the loop over the runes of [s]. *)
Lemma range_loop_fuel fuel : forall s k,
  length s <= fuel -> utf8.range_loop (fuel + k) s = utf8.range_loop fuel s.
Proof.
  induction fuel as [|fuel IH]; intros s k Hs.
  - destruct s; [|cbn in Hs; lia]. now destruct k.
  - cbn [Nat.add utf8.range_loop]. destruct s as [|s0 r]; [reflexivity|].
    pose proof (DecodeRune_width s0 r) as Hw.
    destruct (utf8.DecodeRune s0 r) as [rune width]. cbn [snd] in Hw.
    f_equal. apply IH. rewrite length_drop. cbn [length] in *. lia.
Qed.

End Manga.

(** *** The characters of a text are the runes of the range loop *)

Section RoundTrip.
Import utf8.

Lemma byteval_byte_of_Z z : (0 <= z < 256)%Z -> byteval (byte_of_Z z) = z.
Proof.
  intros Hz. unfold byteval, byte_of_Z. rewrite nat_ascii_embedding by lia. lia.
Qed.

Lemma lor_disjoint x l n :
  (0 <= n -> x mod 2 ^ n = 0 -> 0 <= l < 2 ^ n -> Z.lor x l = x + l)%Z.
Proof.
  intros Hn Hx Hl. rewrite <- Zbitwise.Z.add_lor_land.
  assert (Z.land x l = 0)%Z as ->; [|lia].
  rewrite <- (Z.mod_small l (2 ^ n)) by lia.
  rewrite <- (Z.land_ones l) by lia.
  rewrite (Z.land_comm l), Z.land_assoc, Z.land_ones, Hx by lia.
  apply Z.land_0_l.
Qed.

Ltac disjoint x l n :=
  let p := eval cbv in (2 ^ n)%Z in
  rewrite (lor_disjoint x l n);
  [| lia | change (2 ^ n)%Z with p; Z.div_mod_to_equations; lia
   | change (2 ^ n)%Z with p; Z.div_mod_to_equations; lia ].

Ltac first_tests :=
  unfold first;
  repeat match goal with
         | |- context [(?a <? ?b)%Z] => destruct (Z.ltb_spec a b); try lia
         | |- context [(?a =? ?b)%Z] => destruct (Z.eqb_spec a b); try lia
         end.

Ltac masks :=
  unfold mask2, mask3, mask4, maskx;
  change 0x1F%Z with (Z.ones 5); change 0x0F%Z with (Z.ones 4);
  change 0x07%Z with (Z.ones 3); change 0x3F%Z with (Z.ones 6);
  rewrite !Z.land_ones by lia; rewrite !Z.shiftl_mul_pow2 by lia;
  change (2 ^ 18)%Z with 262144%Z; change (2 ^ 12)%Z with 4096%Z;
  change (2 ^ 6)%Z with 64%Z; change (2 ^ 5)%Z with 32%Z;
  change (2 ^ 4)%Z with 16%Z; change (2 ^ 3)%Z with 8%Z.

Lemma cont_byte z : (0 <= z < 64)%Z -> cont (128 + z) = true.
Proof.
  intros Hz. unfold cont, locb, hicb. apply andb_true_iff. split; apply Z.leb_le; lia.
Qed.

Lemma first_two x : (0xC2 <= x < 0xE0)%Z -> first x = SZ 2 0x80 0xBF.
Proof. intros Hx. first_tests. reflexivity. Qed.

Lemma first_three x :
  (0xE0 <= x <= 0xEF)%Z ->
  exists lo hi, first x = SZ 3 lo hi
    /\ (lo = if x =? 0xE0 then 0xA0 else 0x80)%Z
    /\ (hi = if x =? 0xED then 0x9F else 0xBF)%Z.
Proof. intros Hx. first_tests; eexists _, _; repeat split. Qed.

Lemma first_four x :
  (0xF0 <= x <= 0xF4)%Z ->
  exists lo hi, first x = SZ 4 lo hi
    /\ (lo = if x =? 0xF0 then 0x90 else 0x80)%Z
    /\ (hi = if x =? 0xF4 then 0x8F else 0xBF)%Z.
Proof. intros Hx. first_tests; eexists _, _; repeat split. Qed.

(** Decoding the bytes of a scalar value gives it back, with the number of
    its bytes, whatever follows them. *)
Lemma DecodeRune_utf8_bytes c rest :
  scalar_value c ->
  exists e0 es,
    utf8_bytes c = e0 :: es
    /\ DecodeRune e0 (es ++ rest) = (c, length (e0 :: es)).
Proof.
  intros Hc. unfold scalar_value in Hc. unfold utf8_bytes.
  destruct (Z.ltb_spec c 0x80) as [H1|H1].
  { eexists _, _. split; [reflexivity|]. unfold DecodeRune.
    rewrite byteval_byte_of_Z by lia. first_tests. reflexivity. }
  assert (Hr : (0 <= c mod 64 < 64)%Z) by (apply Z.mod_pos_bound; lia).
  destruct (Z.ltb_spec c 0x800) as [H2|H2].
  { eexists _, _. split; [reflexivity|]. unfold DecodeRune. cbn [app length].
    assert (Hq : (2 <= c / 64 < 32)%Z) by (Z.div_mod_to_equations; lia).
    rewrite !byteval_byte_of_Z by lia. rewrite first_two by lia.
    destruct (Z.ltb_spec (128 + c mod 64) 128); [lia|].
    destruct (Z.ltb_spec 191 (128 + c mod 64)); [lia|].
    cbn [orb Nat.leb Nat.ltb]. f_equal. masks.
    replace ((192 + c / 64) mod 32)%Z with (c / 64)%Z by (Z.div_mod_to_equations; lia).
    replace ((128 + c mod 64) mod 64)%Z with (c mod 64)%Z by (Z.div_mod_to_equations; lia).
    disjoint (c / 64 * 64)%Z (c mod 64)%Z 6%Z. Z.div_mod_to_equations. lia. }
  assert (Hm : (0 <= (c / 64) mod 64 < 64)%Z) by (apply Z.mod_pos_bound; lia).
  destruct (Z.ltb_spec c 0x10000) as [H3|H3].
  { eexists _, _. split; [reflexivity|]. unfold DecodeRune. cbn [app length].
    assert (Hq : (0 <= c / 4096 < 16)%Z) by (Z.div_mod_to_equations; lia).
    assert (Hlow : (c / 4096 = 0 -> 32 <= (c / 64) mod 64)%Z)
      by (Z.div_mod_to_equations; lia).
    assert (Hsur : (c / 4096 = 13 -> (c / 64) mod 64 < 32)%Z)
      by (Z.div_mod_to_equations; lia).
    rewrite !byteval_byte_of_Z by lia.
    destruct (first_three (224 + c / 4096)) as (lo & hi & -> & Hlo & Hhi); [lia|].
    destruct (Z.eqb_spec (224 + c / 4096) 224), (Z.eqb_spec (224 + c / 4096) 237);
      subst lo hi; try lia;
      repeat (match goal with
              | |- context [(?a <? ?b)%Z] => destruct (Z.ltb_spec a b); [lia|]
              end);
      rewrite cont_byte by lia;
      cbn [orb negb Nat.leb Nat.ltb]; f_equal; masks;
      replace ((224 + c / 4096) mod 16)%Z with (c / 4096)%Z by (Z.div_mod_to_equations; lia);
      replace ((128 + (c / 64) mod 64) mod 64)%Z with ((c / 64) mod 64)%Z
        by (Z.div_mod_to_equations; lia);
      replace ((128 + c mod 64) mod 64)%Z with (c mod 64)%Z by (Z.div_mod_to_equations; lia);
      disjoint (c / 4096 * 4096)%Z ((c / 64) mod 64 * 64)%Z 12%Z;
      disjoint (c / 4096 * 4096 + (c / 64) mod 64 * 64)%Z (c mod 64)%Z 6%Z;
      Z.div_mod_to_equations; lia. }
  eexists _, _. split; [reflexivity|]. unfold DecodeRune. cbn [app length].
  assert (Hq : (0 <= c / 262144 <= 4)%Z) by (Z.div_mod_to_equations; lia).
  assert (Hm1 : (0 <= (c / 4096) mod 64 < 64)%Z) by (apply Z.mod_pos_bound; lia).
  assert (Hlow : (c / 262144 = 0 -> 16 <= (c / 4096) mod 64)%Z)
    by (Z.div_mod_to_equations; lia).
  assert (Hhigh : (c / 262144 = 4 -> (c / 4096) mod 64 < 16)%Z)
    by (Z.div_mod_to_equations; lia).
  rewrite !byteval_byte_of_Z by lia.
  destruct (first_four (240 + c / 262144)) as (lo & hi & -> & Hlo & Hhi); [lia|].
  destruct (Z.eqb_spec (240 + c / 262144) 240), (Z.eqb_spec (240 + c / 262144) 244);
    subst lo hi; try lia;
    repeat (match goal with
            | |- context [(?a <? ?b)%Z] => destruct (Z.ltb_spec a b); [lia|]
            end);
    rewrite !cont_byte by lia;
    cbn [orb negb Nat.leb Nat.ltb]; f_equal; masks;
    replace ((240 + c / 262144) mod 8)%Z with (c / 262144)%Z by (Z.div_mod_to_equations; lia);
    replace ((128 + (c / 4096) mod 64) mod 64)%Z with ((c / 4096) mod 64)%Z
      by (Z.div_mod_to_equations; lia);
    replace ((128 + (c / 64) mod 64) mod 64)%Z with ((c / 64) mod 64)%Z
      by (Z.div_mod_to_equations; lia);
    replace ((128 + c mod 64) mod 64)%Z with (c mod 64)%Z by (Z.div_mod_to_equations; lia);
    disjoint (c / 262144 * 262144)%Z ((c / 4096) mod 64 * 4096)%Z 18%Z;
    disjoint (c / 262144 * 262144 + (c / 4096) mod 64 * 4096)%Z ((c / 64) mod 64 * 64)%Z 12%Z;
    disjoint (c / 262144 * 262144 + (c / 4096) mod 64 * 4096 + (c / 64) mod 64 * 64)%Z (c mod 64)%Z 6%Z;
    Z.div_mod_to_equations; lia.
Qed.


(** The range loop over the text of scalar values yields them. *)
Lemma range_loop_utf8 cs : forall fuel,
  Forall scalar_value cs ->
  length (concat (map utf8_bytes cs)) <= fuel ->
  range_loop fuel (concat (map utf8_bytes cs)) = cs.
Proof.
  induction cs as [|c cs IH]; intros fuel Hcs Hfuel.
  { now destruct fuel. }
  apply Forall_cons in Hcs as [Hc Hcs]. cbn [map concat] in *.
  destruct (DecodeRune_utf8_bytes c (concat (map utf8_bytes cs)) Hc)
    as (e0 & es & He & Hd).
  rewrite He in *. rewrite length_app in Hfuel. cbn [length] in Hfuel.
  destruct fuel as [|fuel]; [lia|].
  cbn [app range_loop]. rewrite Hd. f_equal.
  cbn [length drop]. rewrite drop_app_length. apply IH; [exact Hcs | lia].
Qed.

Lemma runes_utf8_text cs : Forall scalar_value cs -> runes (utf8_text cs) = cs.
Proof.
  intros Hcs. unfold runes, utf8_text. rewrite <- length_bytes, bytes_str.
  now apply range_loop_utf8.
Qed.

Lemma utf8_bytes_nonempty c : utf8_bytes c <> [].
Proof.
  unfold utf8_bytes.
  destruct (c <? 128)%Z; [discriminate|].
  destruct (c <? 2048)%Z; [discriminate|].
  destruct (c <? 65536)%Z; discriminate.
Qed.

Lemma utf8_text_empty cs : utf8_text cs = "" <-> cs = [].
Proof.
  split; [|now intros ->]. intros H. destruct cs as [|c cs]; [reflexivity|exfalso].
  unfold utf8_text in H. apply (f_equal bytes) in H. rewrite bytes_str in H.
  cbn [map concat bytes] in H. apply app_eq_nil in H as [H _].
  now apply utf8_bytes_nonempty in H.
Qed.

End RoundTrip.

Lemma manga_flag_runes series :
  let flag := if negb (String.eqb series "")
              then if containsJapanese series then "Yes" else "No"
              else "Unknown" in
  (flag = "Yes" <->
      series <> "" /\ exists r, r ∈ utf8.runes series /\ in_japanese_ranges r)
  /\ (flag = "No" <->
      series <> "" /\ forall r, r ∈ utf8.runes series -> ~ in_japanese_ranges r)
  /\ (flag = "Unknown" <-> series = "").
Proof.
  destruct (String.eqb_spec series "") as [He|Hne]; cbn [negb].
  - split; [|split]; split; try discriminate; try tauto.
  - unfold containsJapanese.
    destruct (containsJapanese_loop (utf8.runes series)) eqn:Hc.
    + apply containsJapanese_loop_spec in Hc.
      split; [|split]; split; try discriminate; try tauto.
      intros [_ Hall]. destruct Hc as (r & Hin & Hj). now destruct (Hall r Hin).
    + assert (Hnone : forall r, r ∈ utf8.runes series -> ~ in_japanese_ranges r).
      { intros r Hin Hj.
        assert (containsJapanese_loop (utf8.runes series) = true) as Ht
          by (apply containsJapanese_loop_spec; eauto).
        congruence. }
      split; [|split]; split; try discriminate; try tauto.
      intros [_ (r & Hin & Hj)]. now destruct (Hnone r Hin).
Qed.

(** C8: the Manga flag of the record, for a series title (the first series
    element) that is the text of the characters [cs]: Yes exactly when one of
    the characters lies in 3040-309F, 30A0-30FF or 4E00-9FBF, No exactly
    when there are characters and none does, Unknown exactly when there is
    no character, that is, no title. For any title, well-formed or not, the
    characters are the runes that the range loop decodes from its bytes. *)
Theorem manga_flag (metadata : Metadata) :
  let series := ci_Series (createComicInfo metadata) in
  let flag := ci_Manga (createComicInfo metadata) in
  series = getFirst (Series metadata)
  /\ (forall cs : list Z,
         Forall scalar_value cs ->
         series = utf8_text cs ->
         (flag = "Yes" <-> exists c, c ∈ cs /\ in_japanese_ranges c)
         /\ (flag = "No" <-> cs <> [] /\ forall c, c ∈ cs -> ~ in_japanese_ranges c)
         /\ (flag = "Unknown" <-> cs = []))
  /\ (flag = "Yes" <->
      series <> "" /\ exists r, r ∈ utf8.runes series /\ in_japanese_ranges r)
  /\ (flag = "No" <->
      series <> "" /\ forall r, r ∈ utf8.runes series -> ~ in_japanese_ranges r)
  /\ (flag = "Unknown" <-> series = "").
Proof.
  cbn [createComicInfo ci_Series ci_Manga].
  set (series := getFirst (Series metadata)).
  split; [reflexivity|].
  pose proof (manga_flag_runes series) as (Hyes & Hno & Hunknown). cbn zeta in *.
  split; [|repeat split; tauto].
  intros cs Hcs Htext.
  pose proof (runes_utf8_text cs Hcs) as Hrunes. rewrite <- Htext in Hrunes.
  pose proof (utf8_text_empty cs) as Hempty. rewrite <- Htext in Hempty.
  rewrite Hyes, Hno, Hunknown, Hrunes.
  split; [|split; [|exact Hempty]].
  - split; [tauto|]. intros (c & Hin & Hc). split; [|eauto].
    intros He. apply Hempty in He. rewrite He in Hin. now apply elem_of_nil in Hin.
  - rewrite Hempty. tauto.
Qed.

Lemma manga_flag_witness :
  utf8_text [0x9032; 0x6483; 0x306E; 0x5DE8; 0x4EBA]%Z = "進撃の巨人"
  /\ ci_Manga (createComicInfo (Fixture.series_metadata ["進撃の巨人"])) = "Yes"
  /\ ci_Manga (createComicInfo (Fixture.series_metadata ["Akira"; "アキラ"])) = "No".
Proof.
  split; [reflexivity|]. split.
  - destruct (manga_flag (Fixture.series_metadata ["進撃の巨人"])) as (_ & Htext & _).
    apply (Htext [0x9032; 0x6483; 0x306E; 0x5DE8; 0x4EBA]%Z).
    + repeat constructor; unfold scalar_value; lia.
    + reflexivity.
    + exists 0x306E%Z. split; [|unfold in_japanese_ranges; lia].
      apply list_elem_of_In. cbn. tauto.
  - destruct (manga_flag (Fixture.series_metadata ["Akira"; "アキラ"])) as (_ & Htext & _).
    apply (Htext [0x41; 0x6B; 0x69; 0x72; 0x61]%Z).
    + repeat constructor; unfold scalar_value; lia.
    + reflexivity.
    + split; [discriminate|]. intros c Hin. unfold in_japanese_ranges.
      apply list_elem_of_In in Hin. cbn in Hin. lia.
Defined.

(** A series title with kanji and hiragana, one in Latin letters, and one
    whose only ideograph, U+9FC0, lies beyond the third range. *)
Example manga_flag_examples :
  utf8.runes "進撃の巨人" = [0x9032; 0x6483; 0x306E; 0x5DE8; 0x4EBA]%Z
  /\ map (fun s => ci_Manga (createComicInfo (Fixture.series_metadata s)))
       [["進撃の巨人"]; ["Akira"; "アキラ"]; [str (map ascii_of_nat [233; 191; 128])]; [""]; []]
     = ["Yes"; "No"; "No"; "Unknown"; "Unknown"].
Proof. split; reflexivity. Qed.

(** ** The archive that [processFile] writes *)

Section Conversion.

Variable lib : Lib.
Variable w : World.
Variables epubPath outputPath : string.
Variable files : list zip.File.
Variable volOPFPath : string.
Variable pkg : Package.

Lemma collected_refs_spec :
  collected_refs lib files volOPFPath pkg =
  concat (map (page_refs lib files)
            (resolved_pages (manifest_loop (Manifest_Items pkg) ∅) volOPFPath
               (Spine_Itemrefs pkg))).
Proof.
  unfold collected_refs, spine_pages. now rewrite pages_loop_spec, spine_loop_spec.
Qed.

Lemma page_entries_app a b : page_entries (a ++ b) = page_entries a ++ page_entries b.
Proof. apply List.filter_app. Qed.

Lemma image_entry_Some total j src e :
  image_entry files total j src = Some e ->
  exists r, image_stream files src = Some r
            /\ e = {| zip.entry_name := normalizeImageName src j total;
                      zip.entry_data := zip.data r |}.
Proof.
  unfold image_entry. destruct (image_stream files src) as [r|]; [|discriminate].
  cbn [mbind option_bind]. rewrite Base_normalizeImageName.
  intros [= <-]. eauto.
Qed.

Lemma page_entries_images total (l : list (nat * string)) :
  page_entries (omap (fun p => image_entry files total (fst p) (snd p)) l)
  = omap (fun p => image_entry files total (fst p) (snd p)) l.
Proof.
  induction l as [|[j src] l IH]; [reflexivity|].
  cbn [omap list_omap fst snd].
  destruct (image_entry files total j src) as [e|] eqn:He; [|exact IH].
  apply image_entry_Some in He as (r & _ & ->).
  cbn [page_entries List.filter zip.entry_name].
  rewrite normalizeImageName_not_ComicInfo. cbn [negb].
  f_equal. exact IH.
Qed.

Lemma add_ComicInfo_page_entries metadata zipw :
  page_entries (add_ComicInfo lib w metadata zipw) = page_entries zipw.
Proof.
  unfold add_ComicInfo.
  destruct (hasMetadata metadata); [|reflexivity].
  destruct (xml_MarshalIndent lib _); [|reflexivity].
  destruct (zipw_Create w zipw "ComicInfo.xml"); [|reflexivity].
  rewrite page_entries_app. cbn. apply app_nil_r.
Qed.

Hypothesis loaded : load_package lib w epubPath = Ok (files, volOPFPath, pkg).
Hypothesis some_page : spine_pages volOPFPath pkg <> [].
Hypothesis created : os_Create w (output_path epubPath outputPath) = true.

Lemma processFile_written :
  processFile lib w epubPath outputPath =
  let imgSrcs := collected_refs lib files volOPFPath pkg in
  Ok (add_ComicInfo lib w (Metadata_ pkg)
        (images_loop w files imgSrcs 0 (length imgSrcs) [])).
Proof.
  rewrite processFile_unfold, loaded, created.
  destruct (spine_pages volOPFPath pkg); [contradiction | reflexivity].
Qed.

Hypothesis accepted : accepts_entries w.

(** The page entries of the archive: one for every collected reference
    whose image is available, under the name of its position. *)
Lemma processFile_page_entries :
  exists out,
    processFile lib w epubPath outputPath = Ok out
    /\ let imgSrcs := collected_refs lib files volOPFPath pkg in
       page_entries out
       = omap (fun p => image_entry files (length imgSrcs) (fst p) (snd p))
           (indexed 0 imgSrcs).
Proof.
  eexists. split; [apply processFile_written|].
  cbn zeta. rewrite add_ComicInfo_page_entries, images_loop_spec by exact accepted.
  cbn [app]. apply page_entries_images.
Qed.

Lemma length_image_entries total srcs : forall start,
  length (omap (fun p => image_entry files total (fst p) (snd p)) (indexed start srcs))
  = length (List.filter (image_available files) srcs).
Proof.
  unfold indexed, image_available.
  induction srcs as [|src srcs IH]; intros start; [reflexivity|].
  cbn [length seq zip zip_with omap list_omap fst snd List.filter].
  unfold image_entry at 1.
  destruct (image_stream files src); cbn [mbind option_bind length]; now rewrite IH.
Qed.

Lemma data_image_entries total srcs : forall start,
  map zip.entry_data
    (omap (fun p => image_entry files total (fst p) (snd p)) (indexed start srcs))
  = omap (fun src => zip.data <$> image_stream files src) srcs.
Proof.
  unfold indexed.
  induction srcs as [|src srcs IH]; intros start; [reflexivity|].
  cbn [length seq zip zip_with omap list_omap fst snd].
  unfold image_entry at 1.
  destruct (image_stream files src); cbn [mbind option_bind fmap option_fmap option_map map];
    now rewrite IH.
Qed.


Lemma names_image_entries total srcs : forall start,
  Forall (fun src => image_available files src = true) srcs ->
  map zip.entry_name
    (omap (fun p => image_entry files total (fst p) (snd p)) (indexed start srcs))
  = map (fun p => page_name total (fst p) (filepath.Ext (snd p))) (indexed start srcs).
Proof.
  unfold indexed, image_available.
  induction srcs as [|src srcs IH]; intros start Hall; [reflexivity|].
  apply Forall_cons in Hall as [Hsrc Hall].
  cbn [length seq zip zip_with omap list_omap fst snd].
  unfold image_entry at 1.
  destruct (image_stream files src); [|discriminate Hsrc].
  cbn [mbind option_bind map zip.entry_name fst snd].
  now rewrite IH, normalizeImageName_page_name.
Qed.

Lemma metadata_entries_images total (l : list (nat * string)) :
  metadata_entries (omap (fun p => image_entry files total (fst p) (snd p)) l) = [].
Proof.
  induction l as [|[j src] l IH]; [reflexivity|].
  cbn [omap list_omap fst snd].
  destruct (image_entry files total j src) as [e|] eqn:He; [|exact IH].
  apply image_entry_Some in He as (r & _ & ->).
  cbn [metadata_entries List.filter zip.entry_name].
  rewrite normalizeImageName_not_ComicInfo. exact IH.
Qed.

Lemma hasMetadata_spec metadata :
  hasMetadata metadata = true <-> recognized_field_present metadata.
Proof.
  unfold hasMetadata, recognized_field_present.
  rewrite !orb_true_iff, !Nat.ltb_lt.
  assert (Hlen : forall l : list string, 0 < length l <-> l <> []).
  { intros [|x l]; cbn; split; intros H; try lia; try discriminate; congruence. }
  rewrite !Hlen. tauto.
Qed.

End Conversion.

(** The conversion reads its world at the input path, at the output path
    and through the creation of entries only. *)
Section Worlds.

Variable lib : Lib.
Variables w1 w2 : World.
Hypothesis same_entries : forall zipw name, zipw_Create w1 zipw name = zipw_Create w2 zipw name.

Lemma addImageToZip_ext files imgPath imageIndex total zipw :
  addImageToZip w1 zipw files imgPath imageIndex total
  = addImageToZip w2 zipw files imgPath imageIndex total.
Proof.
  induction files as [|f fs IH]; cbn [addImageToZip]; [reflexivity|].
  now rewrite IH, same_entries.
Qed.

Lemma images_loop_ext files total srcs : forall imageIndex zipw,
  images_loop w1 files srcs imageIndex total zipw
  = images_loop w2 files srcs imageIndex total zipw.
Proof.
  induction srcs as [|src srcs IH]; intros imageIndex zipw; cbn [images_loop]; [reflexivity|].
  now rewrite IH, addImageToZip_ext.
Qed.

Lemma add_ComicInfo_ext metadata zipw :
  add_ComicInfo lib w1 metadata zipw = add_ComicInfo lib w2 metadata zipw.
Proof. unfold add_ComicInfo. now rewrite same_entries. Qed.

Lemma load_package_ext epubPath :
  zip_OpenReader w1 epubPath = zip_OpenReader w2 epubPath ->
  load_package lib w1 epubPath = load_package lib w2 epubPath.
Proof. intros H. unfold load_package. now rewrite H. Qed.

End Worlds.

(** ** C4: the names of the page entries *)

Lemma names_image_entries_available files total srcs : forall start,
  map zip.entry_name
    (omap (fun p => image_entry files total (fst p) (snd p)) (indexed start srcs))
  = map (fun p => page_name total (fst p) (filepath.Ext (snd p)))
      (List.filter (fun p => image_available files (snd p)) (indexed start srcs)).
Proof.
  unfold indexed, image_available.
  induction srcs as [|src srcs IH]; intros start; [reflexivity|].
  cbn [length seq zip zip_with omap list_omap fst snd List.filter].
  unfold image_entry at 1.
  destruct (image_stream files src); cbn [mbind option_bind map zip.entry_name fst snd].
  - now rewrite IH, normalizeImageName_page_name.
  - apply IH.
Qed.

Lemma filter_available_all files srcs : forall start,
  Forall (fun src => image_available files src = true) srcs ->
  List.filter (fun p => image_available files (snd p)) (indexed start srcs)
  = indexed start srcs.
Proof.
  unfold indexed.
  induction srcs as [|src srcs IH]; intros start Hall; [reflexivity|].
  apply Forall_cons in Hall as [Hsrc Hall].
  cbn [length seq zip zip_with List.filter snd]. rewrite Hsrc. f_equal. now apply IH.
Qed.

(** C4, as the specification words it, fails: where the image of the first
    of two collected references is missing, one image is written, and its
    name is made of the index 1, not of its position 0 among the images
    written. *)
Lemma output_names_counterexample :
  let files := Fixture.lost_image in
  exists out,
    processFile Fixture.lib (Fixture.world files) "book.epub" "" = Ok out
    /\ map zip.entry_name (page_entries out) = ["page1.PNG"]
    /\ map (fun src => filepath.Ext src)
         (List.filter (image_available files)
            (collected_refs Fixture.lib files "OEBPS/content.opf" Fixture.package_dangling))
       = [".PNG"]
    /\ names_by_emitted_count [".PNG"] = ["page0.PNG"]
    /\ map zip.entry_name (page_entries out) <> names_by_emitted_count [".PNG"].
Proof.
  eexists. split; [vm_compute; reflexivity|].
  repeat split. vm_compute. discriminate.
Qed.

(** C4, amended: the name written for the image of the reference at
    [index] of the [N] collected references is [page], then the decimal
    digits of the index padded with zeros on the left, then the extension of
    the source image as it stands; for [index < N] the padded number has as
    many characters as [N] has decimal digits, [w] digits being those of a
    number from [10 ^ (w - 1)] to [10 ^ w - 1], and the digits of the index
    read back as the index. The images written are those of the collected
    references whose image is available, each under the name of its own
    position among all [N]; in a conversion where no collected image is
    missing, [N] images are written, under the names of 0 to [N - 1], in
    order. *)
Theorem output_names_padded :
  (forall originalName index N,
      filepath.Base (normalizeImageName originalName index N)
      = page_name N index (filepath.Ext originalName))
  /\ (forall index N,
         index < N ->
         let w := String.length (strconv.Itoa N) in
         String.length (page_name N index "") = String.length "page" + w
         /\ 10 ^ (w - 1) <= N < 10 ^ w
         /\ strconv.atoi_digits (bytes (strconv.Itoa index)) 0 = Some (Z.of_nat index))
  /\ (forall lib w epubPath outputPath files volOPFPath pkg,
         load_package lib w epubPath = Ok (files, volOPFPath, pkg) ->
         spine_pages volOPFPath pkg <> [] ->
         os_Create w (output_path epubPath outputPath) = true ->
         accepts_entries w ->
         let imgSrcs := collected_refs lib files volOPFPath pkg in
         let N := length imgSrcs in
         exists out,
           processFile lib w epubPath outputPath = Ok out
           /\ map zip.entry_name (page_entries out)
              = map (fun p => page_name N (fst p) (filepath.Ext (snd p)))
                  (written_refs files imgSrcs)
           /\ (Forall (fun src => image_available files src = true) imgSrcs ->
               length (page_entries out) = N
               /\ map zip.entry_name (page_entries out)
                  = map (fun p => page_name N (fst p) (filepath.Ext (snd p)))
                      (zip (seq 0 N) imgSrcs))).
Proof.
  split; [|split].
  - apply normalizeImageName_page_name.
  - intros index N Hlt w. split; [|split].
    + apply page_name_width. lia.
    + apply Itoa_length_bounds. lia.
    + apply atoi_digits_Itoa.
  - intros lib w epubPath outputPath files volOPFPath pkg Hload Hpages Hcreate Hacc
           imgSrcs N.
    destruct (processFile_page_entries lib w epubPath outputPath files volOPFPath pkg
                Hload Hpages Hcreate Hacc) as (out & Hout & Hentries).
    exists out. split; [exact Hout|]. cbn zeta in Hentries. rewrite Hentries.
    fold imgSrcs. fold N. split; [apply names_image_entries_available|].
    intros Hall. split.
    + rewrite length_image_entries.
      rewrite forallb_filter_id; [reflexivity|].
      apply forallb_forall. intros src Hin.
      rewrite Forall_forall in Hall. apply Hall. now apply list_elem_of_In.
    + rewrite names_image_entries_available, filter_available_all by exact Hall.
      reflexivity.
Qed.

Lemma output_names_padded_witness :
  (exists out,
     processFile Fixture.lib (Fixture.world Fixture.two_images) "book.epub" "" = Ok out
     /\ map zip.entry_name (page_entries out) = ["page0.jpg"; "page1.jpg"; "page2.PNG"])
  /\ (exists out,
        processFile Fixture.lib (Fixture.world Fixture.lost_image) "book.epub" "" = Ok out
        /\ map zip.entry_name (page_entries out) = ["page1.PNG"])
  /\ filepath.Base (normalizeImageName "OEBPS/images/cover.JPG" 3 12) = "page03.JPG".
Proof.
  destruct output_names_padded as (Hname & _ & Hconv).
  split; [|split].
  - destruct (Hconv Fixture.lib (Fixture.world Fixture.two_images) "book.epub" ""
                Fixture.two_images "OEBPS/content.opf" Fixture.package_two_pages)
      as (out & Hout & _ & Hall).
    + reflexivity.
    + vm_compute. discriminate.
    + reflexivity.
    + intros zipw name. reflexivity.
    + exists out. split; [exact Hout|].
      destruct Hall as [_ Hnames]; [repeat constructor|]. rewrite Hnames. reflexivity.
  - destruct (Hconv Fixture.lib (Fixture.world Fixture.lost_image) "book.epub" ""
                Fixture.lost_image "OEBPS/content.opf" Fixture.package_dangling)
      as (out & Hout & Hnames & _).
    + reflexivity.
    + vm_compute. discriminate.
    + reflexivity.
    + intros zipw name. reflexivity.
    + exists out. split; [exact Hout|]. rewrite Hnames. reflexivity.
  - rewrite Hname. reflexivity.
Defined.

(** N = 5 gives page0 .. page4. *)
Example names_of_five :
  map (fun i => normalizeImageName "img/a.png" i 5) (seq 0 5)
  = ["page0.png"; "page1.png"; "page2.png"; "page3.png"; "page4.png"].
Proof. reflexivity. Qed.

(** N = 10 gives page00 .. page09. *)
Example names_of_ten :
  map (fun i => normalizeImageName "a.b/c" i 10) (seq 0 10)
  = ["page00"; "page01"; "page02"; "page03"; "page04";
     "page05"; "page06"; "page07"; "page08"; "page09"].
Proof. reflexivity. Qed.

(** ** The spine and the manifest *)

Section Spine.

Variable items : list Item.
Variable volOPFPath : string.

Lemma lookup_manifest_None id : (manifest_loop items ∅) !! id = None <-> in_manifest items id = false.
Proof.
  rewrite manifest_loop_None, lookup_empty. tauto.
Qed.

Lemma resolved_pages_cons ref refs :
  resolved_pages (manifest_loop items ∅) volOPFPath (ref :: refs) =
  if in_manifest items (IDRef ref)
  then option_list (resolve_against volOPFPath <$> (manifest_loop items ∅) !! IDRef ref)
       ++ resolved_pages (manifest_loop items ∅) volOPFPath refs
  else resolved_pages (manifest_loop items ∅) volOPFPath refs.
Proof.
  unfold resolved_pages. cbn [omap list_omap].
  destruct ((manifest_loop items ∅) !! IDRef ref) as [href|] eqn:Hl; cbn [fmap option_fmap option_map].
  - destruct (in_manifest items (IDRef ref)) eqn:Hin; [reflexivity|].
    apply lookup_manifest_None in Hin. congruence.
  - apply lookup_manifest_None in Hl. now rewrite Hl.
Qed.

(** The dangling item-refs of a spine give no page. *)
Lemma resolved_pages_filter refs :
  resolved_pages (manifest_loop items ∅) volOPFPath refs =
  resolved_pages (manifest_loop items ∅) volOPFPath
    (List.filter (fun ref => in_manifest items (IDRef ref)) refs).
Proof.
  induction refs as [|ref refs IH]; [reflexivity|].
  cbn [List.filter]. rewrite resolved_pages_cons.
  destruct (in_manifest items (IDRef ref)) eqn:Hin; [|exact IH].
  rewrite resolved_pages_cons, Hin. now f_equal.
Qed.

(** Every other item-ref gives exactly one. *)
Lemma length_resolved_pages refs :
  length (resolved_pages (manifest_loop items ∅) volOPFPath refs) =
  length (List.filter (fun ref => in_manifest items (IDRef ref)) refs).
Proof.
  induction refs as [|ref refs IH]; [reflexivity|].
  cbn [List.filter]. rewrite resolved_pages_cons.
  destruct (in_manifest items (IDRef ref)) eqn:Hin; [|exact IH].
  destruct ((manifest_loop items ∅) !! IDRef ref) as [href|] eqn:Hl.
  - cbn. now rewrite IH.
  - apply lookup_manifest_None in Hl. congruence.
Qed.

End Spine.

(** ** C2, C3 and C10: the page entries *)

(** C2, as the specification words it, fails: with a first page of two
    images the archive has three page entries for two spine entries. *)
Lemma page_count_counterexample :
  let files := Fixture.two_images in
  let pkg := Fixture.package_two_pages in
  load_package Fixture.lib (Fixture.world files) "book.epub" = Ok (files, "OEBPS/content.opf", pkg)
  /\ exists out,
       processFile Fixture.lib (Fixture.world files) "book.epub" "" = Ok out
       /\ length (page_entries out) = 3
       /\ length (counted_spine_entries Fixture.lib files "OEBPS/content.opf" pkg) = 2
       /\ length (page_entries out)
          <> length (counted_spine_entries Fixture.lib files "OEBPS/content.opf" pkg).
Proof.
  split; [reflexivity|].
  eexists. split; [vm_compute; reflexivity|].
  repeat split. vm_compute. discriminate.
Qed.

(** C2, amended: when at least one spine id resolves and the output file is
    created and accepts its entries, the conversion succeeds and the number
    of page entries is the number of collected image references whose image
    is found in the archive and opens, the collected references being those
    of every image element with a src attribute of every resolved page that
    is read, in spine order. *)
Theorem page_count_is_available_references (lib : Lib) (w : World)
    (epubPath outputPath : string) (files : list zip.File) (volOPFPath : string)
    (pkg : Package) :
  load_package lib w epubPath = Ok (files, volOPFPath, pkg) ->
  spine_pages volOPFPath pkg <> [] ->
  os_Create w (output_path epubPath outputPath) = true ->
  accepts_entries w ->
  exists out,
    processFile lib w epubPath outputPath = Ok out
    /\ let refs :=
         concat (map (page_refs lib files)
                   (resolved_pages (manifest_loop (Manifest_Items pkg) ∅) volOPFPath
                      (Spine_Itemrefs pkg))) in
       length (page_entries out) = length (List.filter (image_available files) refs).
Proof.
  intros Hload Hpages Hcreate Hacc.
  destruct (processFile_page_entries lib w epubPath outputPath files volOPFPath pkg
              Hload Hpages Hcreate Hacc) as (out & Hout & Hentries).
  exists out. split; [exact Hout|].
  cbn zeta in *. rewrite Hentries, length_image_entries. now rewrite collected_refs_spec.
Qed.

Lemma page_count_is_available_references_witness :
  exists out,
    processFile Fixture.lib (Fixture.world Fixture.lost_image) "book.epub" "" = Ok out
    /\ length (page_entries out) = 1.
Proof.
  destruct (page_count_is_available_references Fixture.lib (Fixture.world Fixture.lost_image)
              "book.epub" "" Fixture.lost_image "OEBPS/content.opf" Fixture.package_dangling)
    as (out & Hout & Hlen).
  - reflexivity.
  - vm_compute. discriminate.
  - reflexivity.
  - intros zipw name. reflexivity.
  - exists out. split; [exact Hout|]. rewrite Hlen. reflexivity.
Defined.

(** C3, as the specification words it, fails: the second image written is
    the second image of the first page, not the image of the second spine
    entry. *)
Lemma reading_order_counterexample :
  let files := Fixture.two_images in
  let pkg := Fixture.package_two_pages in
  load_package Fixture.lib (Fixture.world files) "book.epub" = Ok (files, "OEBPS/content.opf", pkg)
  /\ exists out,
       processFile Fixture.lib (Fixture.world files) "book.epub" "" = Ok out
       /\ map zip.entry_data (page_entries out) = ["A"; "B"; "C"]
       /\ omap (spine_entry_image Fixture.lib files "OEBPS/content.opf" pkg)
            (Spine_Itemrefs pkg) = ["A"; "C"]
       /\ map zip.entry_data (page_entries out) !! 1
          <> omap (spine_entry_image Fixture.lib files "OEBPS/content.opf" pkg)
               (Spine_Itemrefs pkg) !! 1.
Proof.
  split; [reflexivity|].
  eexists. split; [vm_compute; reflexivity|].
  repeat split. vm_compute. discriminate.
Qed.

(** C3, amended: the images are written in the order of the collected
    references: the spine order of the resolved pages, duplicates kept, and
    within one page the document order of its image elements; a reference
    whose image is not available is passed over. *)
Theorem reading_order_of_collected_references (lib : Lib) (w : World)
    (epubPath outputPath : string) (files : list zip.File) (volOPFPath : string)
    (pkg : Package) :
  load_package lib w epubPath = Ok (files, volOPFPath, pkg) ->
  spine_pages volOPFPath pkg <> [] ->
  os_Create w (output_path epubPath outputPath) = true ->
  accepts_entries w ->
  exists out,
    processFile lib w epubPath outputPath = Ok out
    /\ map zip.entry_data (page_entries out)
       = omap (fun src => zip.data <$> image_stream files src)
           (concat (map (page_refs lib files)
                      (omap (fun ref => resolve_against volOPFPath
                                          <$> manifest_loop (Manifest_Items pkg) ∅ !! IDRef ref)
                         (Spine_Itemrefs pkg)))).
Proof.
  intros Hload Hpages Hcreate Hacc.
  destruct (processFile_page_entries lib w epubPath outputPath files volOPFPath pkg
              Hload Hpages Hcreate Hacc) as (out & Hout & Hentries).
  exists out. split; [exact Hout|].
  cbn zeta in *. rewrite Hentries, data_image_entries. now rewrite collected_refs_spec.
Qed.

Lemma reading_order_of_collected_references_witness :
  exists out,
    processFile Fixture.lib (Fixture.world Fixture.two_images) "book.epub" "" = Ok out
    /\ map zip.entry_data (page_entries out) = ["A"; "B"; "C"].
Proof.
  destruct (reading_order_of_collected_references Fixture.lib
              (Fixture.world Fixture.two_images) "book.epub" ""
              Fixture.two_images "OEBPS/content.opf" Fixture.package_two_pages)
    as (out & Hout & Hdata).
  - reflexivity.
  - vm_compute. discriminate.
  - reflexivity.
  - intros zipw name. reflexivity.
  - exists out. split; [exact Hout|]. rewrite Hdata. reflexivity.
Defined.



(** ** C5: dangling spine ids *)

(** C5: once the package document is decoded, the item-refs of the spine
    whose id the manifest does not declare are passed over: the pages are
    those of the spine without them, one for each of the other item-refs; the
    conversion fails for want of pages exactly when every item-ref is
    dangling, and otherwise succeeds as soon as the output file is created. *)
Theorem dangling_spine_ids_skipped (lib : Lib) (w : World) (epubPath outputPath : string)
    (files : list zip.File) (volOPFPath : string) (pkg : Package) :
  load_package lib w epubPath = Ok (files, volOPFPath, pkg) ->
  let declared := List.filter (fun ref => in_manifest (Manifest_Items pkg) (IDRef ref))
                    (Spine_Itemrefs pkg) in
  spine_pages volOPFPath pkg
  = spine_pages volOPFPath
      {| Metadata_ := Metadata_ pkg; Manifest_Items := Manifest_Items pkg;
         Spine_Itemrefs := declared |}
  /\ length (spine_pages volOPFPath pkg) = length declared
  /\ (processFile lib w epubPath outputPath = Err ErrNoPages <-> declared = [])
  /\ (declared <> [] ->
      os_Create w (output_path epubPath outputPath) = true ->
      exists out, processFile lib w epubPath outputPath = Ok out).
Proof.
  intros Hload declared.
  assert (Hlen : length (spine_pages volOPFPath pkg) = length declared).
  { unfold spine_pages. rewrite spine_loop_spec. apply length_resolved_pages. }
  split; [|split; [exact Hlen|split]].
  - unfold spine_pages. cbn [Manifest_Items Spine_Itemrefs].
    rewrite !spine_loop_spec. cbn [app]. apply resolved_pages_filter.
  - rewrite processFile_unfold, Hload, Hlen.
    destruct declared as [|ref rest]; cbn [length Nat.eqb].
    + tauto.
    + split; [|discriminate]. destruct (negb _); discriminate.
  - intros Hdecl Hcreate. rewrite processFile_unfold, Hload, Hlen, Hcreate.
    destruct declared; [contradiction|]. cbn. eauto.
Qed.

Lemma dangling_spine_ids_skipped_witness :
  length (spine_pages "OEBPS/content.opf" Fixture.package_dangling) = 2
  /\ processFile Fixture.lib (Fixture.world Fixture.lost_image) "book.epub" ""
     <> Err ErrNoPages.
Proof.
  destruct (dangling_spine_ids_skipped Fixture.lib (Fixture.world Fixture.lost_image)
              "book.epub" "" Fixture.lost_image "OEBPS/content.opf" Fixture.package_dangling
              eq_refl) as (_ & Hlen & Hfail & _).
  split; [rewrite Hlen; reflexivity|].
  intros Herr. apply Hfail in Herr. discriminate Herr.
Defined.

(** A spine of dangling ids only: the conversion fails, nothing is written. *)
Example empty_spine_fails :
  Fixture.convert Fixture.opf_all_dangling Fixture.page_one_image = Err ErrNoPages.
Proof. reflexivity. Qed.

(** ** C6: the metadata entry *)

(** C6: in a conversion that succeeds, with a serializer that returns no
    error and an output that accepts its entries, there is one ComicInfo.xml
    entry when at least one of the fields title, creator, publisher, series,
    date, language, identifier, number has an occurrence in the package
    document, and none otherwise. *)
Theorem metadata_entry_presence (lib : Lib) (w : World) (epubPath outputPath : string)
    (files : list zip.File) (volOPFPath : string) (pkg : Package) :
  load_package lib w epubPath = Ok (files, volOPFPath, pkg) ->
  spine_pages volOPFPath pkg <> [] ->
  os_Create w (output_path epubPath outputPath) = true ->
  accepts_entries w ->
  (forall c, xml_MarshalIndent lib c <> None) ->
  exists out,
    processFile lib w epubPath outputPath = Ok out
    /\ ("ComicInfo.xml" ∈ map zip.entry_name out
        <-> recognized_field_present (Metadata_ pkg))
    /\ (recognized_field_present (Metadata_ pkg) -> length (metadata_entries out) = 1)
    /\ (~ recognized_field_present (Metadata_ pkg) -> metadata_entries out = []).
Proof.
  intros Hload Hpages Hcreate Hacc Hmarshal.
  eexists. split.
  { apply (processFile_written lib w epubPath outputPath files volOPFPath pkg
             Hload Hpages Hcreate). }
  cbn zeta. rewrite images_loop_spec by exact Hacc. cbn [app].
  set (images := omap _ _).
  assert (Himages : metadata_entries images = []) by apply metadata_entries_images.
  assert (Hnames : "ComicInfo.xml" ∉ map zip.entry_name images).
  { intros Hin. apply list_elem_of_fmap in Hin as (e & Hname & He).
    assert (e ∈ metadata_entries images) as Hme.
    { apply list_elem_of_In, List.filter_In. split; [now apply list_elem_of_In|].
      rewrite <- Hname. apply String.eqb_refl. }
    rewrite Himages in Hme. now apply elem_of_nil in Hme. }
  unfold add_ComicInfo. rewrite <- hasMetadata_spec.
  destruct (hasMetadata (Metadata_ pkg)).
  - destruct (xml_MarshalIndent lib _) as [xml|] eqn:Hxml; [|now apply Hmarshal in Hxml].
    rewrite Hacc. split; [|split].
    + split; [reflexivity|]. intros _. rewrite map_app. apply elem_of_app. right. now left.
    + intros _. unfold metadata_entries in *. rewrite List.filter_app, Himages. reflexivity.
    + intros Hno. now destruct Hno.
  - split; [|split].
    + split; [intros Hin; now apply Hnames in Hin | discriminate].
    + discriminate.
    + intros _. exact Himages.
Qed.

Lemma metadata_entry_presence_witness :
  exists out,
    processFile Fixture.lib (Fixture.world Fixture.lost_image) "book.epub" "" = Ok out
    /\ "ComicInfo.xml" ∈ map zip.entry_name out.
Proof.
  destruct (metadata_entry_presence Fixture.lib (Fixture.world Fixture.lost_image)
              "book.epub" "" Fixture.lost_image "OEBPS/content.opf" Fixture.package_dangling)
    as (out & Hout & Hpresent & _).
  - reflexivity.
  - vm_compute. discriminate.
  - reflexivity.
  - intros zipw name. reflexivity.
  - intros c. discriminate.
  - exists out. split; [exact Hout|]. apply Hpresent.
    do 3 right. left. discriminate.
Defined.

(** Scenario A of the specification, with two pages: no field, no metadata
    entry. Rights and series-id are not among the fields that count. *)
Example no_field_no_metadata_entry :
  entry_names (Fixture.convert Fixture.opf_two_pages Fixture.page_one_image)
  = ["page0.PNG"; "page1.PNG"]
  /\ hasMetadata
       {| Identifier := []; Title := []; Language := []; Creator := []; Publisher := [];
          Date := []; Rights := ["CC0"]; Series := []; SeriesID := ["7"]; Number := [] |}
     = false.
Proof. split; reflexivity. Qed.

(** * Further properties of the code *)

(** ** The metadata mapper: the year *)

Section Year.

Import strconv.

Lemma substring_app_prefix a b : substring 0 (String.length a) (a +:+ b) = a.
Proof.
  induction a as [|c a IH]; cbn [String.length].
  - destruct b; reflexivity.
  - change (String c a +:+ b) with (String c (a +:+ b)). cbn [substring]. now rewrite IH.
Qed.

Lemma length_substring_le n : forall s, String.length (substring 0 n s) <= n.
Proof.
  induction n as [|n IH]; intros [|c s]; cbn [substring String.length]; try lia.
  specialize (IH s). lia.
Qed.

Lemma digit_is_digit d : d < 10 -> is_digit (digit d).
Proof. intros H. unfold is_digit, digit. rewrite nat_ascii_embedding by lia. lia. Qed.

Lemma digits_rev_digits fuel : forall u, u <= fuel -> Forall is_digit (digits_rev fuel u).
Proof.
  induction fuel as [|fuel IH]; intros u Hu; cbn [digits_rev].
  - assert (u = 0) as -> by lia. constructor; [apply digit_is_digit; lia | constructor].
  - destruct (Nat.leb_spec 10 u) as [H|H].
    + constructor.
      * apply digit_is_digit, Nat.mod_upper_bound. lia.
      * apply IH. assert (u / 10 < u) by (apply Nat.div_lt; lia). lia.
    + constructor; [now apply digit_is_digit | constructor].
Qed.

Lemma Itoa_digits u : Forall is_digit (bytes (Itoa u)).
Proof. unfold Itoa. rewrite bytes_str. apply List.Forall_rev. now apply digits_rev_digits. Qed.

Lemma Itoa_nonempty u : bytes (Itoa u) <> [].
Proof.
  intros He. apply (f_equal (@length _)) in He.
  rewrite length_bytes, Itoa_length in He.
  pose proof (digits_rev_length_pos u u). cbn [length] in He. lia.
Qed.

Lemma atoi_digits_zeros k ds : atoi_digits (replicate k "0"%char ++ ds) 0 = atoi_digits ds 0.
Proof. induction k as [|k IH]; [reflexivity|]. exact IH. Qed.

(** A string of digits is read as its number. *)
Lemma Atoi_of_digits ds v :
  ds <> [] -> Forall is_digit ds -> atoi_digits ds 0 = Some v ->
  (v < 2 ^ 63)%Z -> (0 <= v)%Z -> Atoi (str ds) = Some v.
Proof.
  intros Hne Hds Hv Hlt Hge. unfold Atoi. rewrite bytes_str.
  destruct ds as [|c r]; [contradiction|].
  inversion Hds as [|? ? Hc _]; subst. unfold is_digit in Hc.
  assert (Hminus : byte_eqb c "-"%char = false).
  { apply Ascii.eqb_neq. intros ->. change (nat_of_ascii "-") with 45 in Hc. lia. }
  assert (Hplus : byte_eqb c "+"%char = false).
  { apply Ascii.eqb_neq. intros ->. change (nat_of_ascii "+") with 43 in Hc. lia. }
  rewrite Hminus, Hplus. cbn [orb]. rewrite Hv.
  destruct (Z.leb_spec (- 2 ^ 63) v); [|lia].
  destruct (Z.ltb_spec v (2 ^ 63)); [reflexivity|lia].
Qed.

(** What the digits read so far and the digits left can give. *)
Lemma atoi_digits_bound ds : forall n v,
  atoi_digits ds n = Some v -> (0 <= n)%Z ->
  (n * 10 ^ Z.of_nat (length ds) <= v < (n + 1) * 10 ^ Z.of_nat (length ds))%Z.
Proof.
  induction ds as [|ch ds IH]; intros n v Hv Hn; cbn [atoi_digits length] in *.
  - injection Hv as <-. cbn. lia.
  - destruct (Nat.leb_spec 48 (nat_of_ascii ch)) as [H48|]; [|discriminate Hv].
    destruct (Nat.leb_spec (nat_of_ascii ch) 57) as [H57|]; [|discriminate Hv].
    cbn [andb] in Hv. apply IH in Hv; [|lia].
    rewrite Nat2Z.inj_succ, Z.pow_succ_r by lia.
    set (p := (10 ^ Z.of_nat (length ds))%Z) in *.
    assert (0 < p)%Z by (apply Z.pow_pos_nonneg; lia).
    set (d := Z.of_nat (nat_of_ascii ch - 48)) in *.
    assert (0 <= d <= 9)%Z by (subst d; lia).
    nia.
Qed.

Lemma Itoa_length_four y : (Z.of_nat y < 10000)%Z -> String.length (Itoa y) <= 4.
Proof.
  intros Hy. destruct y as [|y]; [cbn; lia|].
  destruct (Itoa_length_bounds (S y) ltac:(lia)) as [Hlow _].
  set (L := String.length (Itoa (S y))) in *.
  destruct (Nat.le_gt_cases L 4) as [|Hbig]; [assumption|exfalso].
  apply Nat2Z.inj_le in Hlow. rewrite Nat2Z.inj_pow in Hlow.
  assert (10 ^ 4 <= 10 ^ Z.of_nat (L - 1))%Z by (apply Z.pow_le_mono_r; lia).
  change (10 ^ 4)%Z with 10000%Z in *. change (Z.of_nat 10) with 10%Z in Hlow. lia.
Qed.

Lemma pad0_four_length y :
  (Z.of_nat y < 10000)%Z -> length (fmt.pad0 4 (bytes (Itoa y))) = 4.
Proof.
  intros Hy. pose proof (Itoa_length_four y Hy) as Hlen.
  unfold fmt.pad0. rewrite length_app, length_replicate, length_bytes. lia.
Qed.

End Year.

(** X1: when the first date of the package document starts with the four
    digits of a year, zeros included, the Year of the record is that year,
    whatever follows the digits and whatever the later dates are. *)
Theorem year_of_leading_digits (metadata : Metadata) (y : nat) (tail : string)
    (rest : list string) :
  (Z.of_nat y < 10000)%Z ->
  Date metadata = (str (fmt.pad0 4 (bytes (strconv.Itoa y))) +:+ tail) :: rest ->
  ci_Year (createComicInfo metadata) = Z.of_nat y.
Proof.
  intros Hy Hdate. cbn [createComicInfo ci_Year]. rewrite Hdate.
  set (year := str (fmt.pad0 4 (bytes (strconv.Itoa y)))).
  assert (Hlen : String.length year = 4).
  { subst year. rewrite <- length_bytes, bytes_str. now apply pad0_four_length. }
  assert (Hfour : (4 <=? String.length (year +:+ tail)) = true).
  { apply Nat.leb_le. rewrite <- length_bytes, bytes_app, length_app, !length_bytes. lia. }
  rewrite Hfour, <- Hlen, substring_app_prefix.
  subst year. erewrite Atoi_of_digits; [reflexivity| | | | |].
  - intros He. apply (f_equal (@length _)) in He. rewrite pad0_four_length in He by exact Hy.
    discriminate He.
  - apply Forall_app. split; [|apply Itoa_digits].
    apply Forall_forall. intros c Hc. apply elem_of_replicate in Hc as [-> _].
    unfold is_digit. change (nat_of_ascii "0") with 48. lia.
  - unfold fmt.pad0. rewrite atoi_digits_zeros. apply atoi_digits_Itoa.
  - lia.
  - lia.
Qed.

Lemma year_of_leading_digits_witness :
  ci_Year (createComicInfo
             {| Identifier := []; Title := []; Language := []; Creator := []; Publisher := [];
                Date := ["0794-01-01T00:00:00Z"; "2021"]; Rights := []; Series := [];
                SeriesID := []; Number := [] |}) = 794%Z.
Proof.
  apply (year_of_leading_digits _ 794 "-01-01T00:00:00Z" ["2021"]); [lia | reflexivity].
Defined.

Section YearZero.
Import strconv.

Lemma atoi_digits_Some ds : forall n v,
  atoi_digits ds n = Some v -> forallb digit_byte ds = true.
Proof.
  induction ds as [|ch ds IH]; intros n v Hv; [reflexivity|].
  cbn [atoi_digits forallb] in *. unfold digit_byte at 1.
  destruct ((48 <=? nat_of_ascii ch) && (nat_of_ascii ch <=? 57)); [|discriminate Hv].
  cbn [andb]. eapply IH, Hv.
Qed.

Lemma Atoi_Some s v : Atoi s = Some v -> decimal_text (bytes s) = true.
Proof.
  unfold Atoi, decimal_text. destruct (bytes s) as [|c r]; [discriminate|].
  destruct (byte_eqb c "-" || byte_eqb c "+").
  - destruct r as [|d r]; [discriminate|].
    destruct (atoi_digits (d :: r) 0) as [n|] eqn:Hn; [|discriminate].
    intros _. cbn [length Nat.eqb negb andb]. eapply atoi_digits_Some, Hn.
  - destruct (atoi_digits (c :: r) 0) as [n|] eqn:Hn; [|discriminate].
    intros _. eapply atoi_digits_Some, Hn.
Qed.

Lemma bytes_substring n : forall s, bytes (substring 0 n s) = take n (bytes s).
Proof.
  induction n as [|n IH]; intros [|c s]; cbn [substring bytes take]; try reflexivity.
  now rewrite IH.
Qed.

End YearZero.

(** X2: the Year of a record lies between -999 and 9999: four bytes of the
    date are read, a sign among them counts as one. The year is zero unless
    there is a first date of four bytes or more whose first four bytes are
    the text of a number: without a date, with a shorter date or with one
    that does not parse, the year is left at zero. *)
Theorem year_bounds (metadata : Metadata) :
  (-999 <= ci_Year (createComicInfo metadata) <= 9999)%Z
  /\ (ci_Year (createComicInfo metadata) <> 0%Z ->
      exists dateStr rest,
        Date metadata = dateStr :: rest
        /\ 4 <= String.length dateStr
        /\ decimal_text (take 4 (bytes dateStr)) = true).
Proof.
  split.
  {
    cbn [createComicInfo ci_Year].
    destruct (Date metadata) as [|dateStr rest]; [lia|].
    destruct (4 <=? String.length dateStr); [|lia].
    pose proof (length_substring_le 4 dateStr) as Hlen.
    destruct (strconv.Atoi (substring 0 4 dateStr)) as [year|] eqn:Hyear; [|lia].
    unfold strconv.Atoi in Hyear. rewrite <- length_bytes in Hlen.
    destruct (bytes (substring 0 4 dateStr)) as [|c r]; [discriminate Hyear|].
    cbn [length] in Hlen.
    set (ds := if byte_eqb c "-" || byte_eqb c "+" then r else c :: r) in Hyear.
    assert (Hds : length ds <= 4 /\ (byte_eqb c "-" = true -> length ds <= 3)).
    { subst ds. destruct (byte_eqb c "-"); cbn [orb length]; [lia|].
      destruct (byte_eqb c "+"); cbn [length]; split; (lia || discriminate). }
    destruct ds as [|d ds']; [discriminate Hyear|].
    destruct (strconv.atoi_digits (d :: ds') 0) as [n|] eqn:Hn; [|discriminate Hyear].
    apply atoi_digits_bound in Hn; [|lia].
    destruct Hds as [H4 H3].
    assert (Hpow : (10 ^ Z.of_nat (length (d :: ds')) <= 10 ^ 4)%Z)
      by (apply Z.pow_le_mono_r; lia).
    destruct (byte_eqb c "-") eqn:Hneg.
    - specialize (H3 eq_refl).
      assert (Hpow3 : (10 ^ Z.of_nat (length (d :: ds')) <= 10 ^ 3)%Z)
        by (apply Z.pow_le_mono_r; lia).
      destruct (_ && _); [|discriminate Hyear]. injection Hyear as <-. lia.
    - destruct (_ && _); [|discriminate Hyear]. injection Hyear as <-. lia. }
  cbn [createComicInfo ci_Year].
  destruct (Date metadata) as [|dateStr rest]; [contradiction|].
  destruct (Nat.leb_spec 4 (String.length dateStr)) as [Hlen|_]; [|contradiction].
  destruct (strconv.Atoi (substring 0 4 dateStr)) as [year|] eqn:Hyear; [|contradiction].
  intros _. exists dateStr, rest. repeat split; [exact Hlen|].
  apply Atoi_Some in Hyear. now rewrite bytes_substring in Hyear.
Qed.

Lemma year_bounds_witness :
  let metadata :=
    {| Identifier := []; Title := []; Language := []; Creator := []; Publisher := [];
       Date := ["-120 (traditional)"]; Rights := []; Series := []; SeriesID := [];
       Number := [] |} in
  ci_Year (createComicInfo metadata) = (-120)%Z
  /\ exists dateStr rest,
       Date metadata = dateStr :: rest
       /\ 4 <= String.length dateStr
       /\ decimal_text (take 4 (bytes dateStr)) = true.
Proof.
  intros metadata. split; [reflexivity|].
  destruct (year_bounds metadata) as [_ Hzero]. apply Hzero. vm_compute. discriminate.
Defined.

(** ** The metadata mapper: what the record depends on *)

Lemma year_of_first_date dates :
  match dates with
  | dateStr :: _ =>
      if 4 <=? String.length dateStr then
        match strconv.Atoi (substring 0 4 dateStr) with
        | Some year => year
        | None => 0%Z
        end
      else 0%Z
  | [] => 0%Z
  end
  = if 4 <=? String.length (getFirst dates) then
      match strconv.Atoi (substring 0 4 (getFirst dates)) with
      | Some year => year
      | None => 0%Z
      end
    else 0%Z.
Proof. destruct dates; reflexivity. Qed.

(** X3: the record is a function of the first title, series, number,
    publisher, language, creator and date alone, an absent element counting
    as an empty first one: later occurrences, and the identifier, rights and
    series-id elements, change nothing. *)
Theorem createComicInfo_first_values (m m' : Metadata) :
  getFirst (Title m) = getFirst (Title m') ->
  getFirst (Series m) = getFirst (Series m') ->
  getFirst (Number m) = getFirst (Number m') ->
  getFirst (Publisher m) = getFirst (Publisher m') ->
  getFirst (Language m) = getFirst (Language m') ->
  getFirst (Creator m) = getFirst (Creator m') ->
  getFirst (Date m) = getFirst (Date m') ->
  createComicInfo m = createComicInfo m'.
Proof.
  intros Ht Hs Hn Hp Hl Hc Hd. unfold createComicInfo.
  rewrite !year_of_first_date, Ht, Hs, Hn, Hp, Hl, Hc, Hd. reflexivity.
Qed.

Lemma createComicInfo_first_values_witness :
  createComicInfo
    {| Identifier := ["urn:uuid:1"]; Title := ["Vol. 1"; "Volume One"]; Language := [];
       Creator := ["A"; "B"]; Publisher := []; Date := ["2020-01-01"; "1999"];
       Rights := ["All rights reserved"]; Series := ["S"]; SeriesID := ["7"]; Number := ["1"] |}
  = createComicInfo
      {| Identifier := []; Title := ["Vol. 1"]; Language := [""];
         Creator := ["A"]; Publisher := [""]; Date := ["2020-01-01"];
         Rights := []; Series := ["S"; "T"]; SeriesID := []; Number := ["1"] |}.
Proof. apply createComicInfo_first_values; reflexivity. Defined.

(** X4: a package document whose only recognized element is the
    identifier still gets its metadata entry, written last, and the record
    in it carries no value of the document: it is the blank record. *)
Theorem identifier_only_metadata_entry (lib : Lib) (w : World) (epubPath outputPath : string)
    (files : list zip.File) (volOPFPath : string) (pkg : Package) (xml : string) :
  load_package lib w epubPath = Ok (files, volOPFPath, pkg) ->
  spine_pages volOPFPath pkg <> [] ->
  os_Create w (output_path epubPath outputPath) = true ->
  accepts_entries w ->
  Identifier (Metadata_ pkg) <> [] ->
  Title (Metadata_ pkg) = [] -> Series (Metadata_ pkg) = [] ->
  Number (Metadata_ pkg) = [] -> Publisher (Metadata_ pkg) = [] ->
  Language (Metadata_ pkg) = [] -> Creator (Metadata_ pkg) = [] ->
  Date (Metadata_ pkg) = [] ->
  xml_MarshalIndent lib blank_record = Some xml ->
  exists out,
    processFile lib w epubPath outputPath = Ok out
    /\ out = page_entries out
             ++ [ {| zip.entry_name := "ComicInfo.xml";
                     zip.entry_data := xml_Header +:+ xml |} ].
Proof.
  intros Hload Hpages Hcreate Hacc Hid Ht Hs Hn Hp Hl Hc Hd Hxml.
  eexists. split.
  { apply (processFile_written lib w epubPath outputPath files volOPFPath pkg
             Hload Hpages Hcreate). }
  cbn zeta. rewrite images_loop_spec by exact Hacc. cbn [app].
  set (images := omap _ _).
  assert (Himages : page_entries images = images) by apply page_entries_images.
  assert (Hrecord : createComicInfo (Metadata_ pkg) = blank_record).
  { unfold createComicInfo, blank_record. rewrite Ht, Hs, Hn, Hp, Hl, Hc, Hd. reflexivity. }
  assert (Hhas : hasMetadata (Metadata_ pkg) = true).
  { apply hasMetadata_spec. unfold recognized_field_present. tauto. }
  unfold add_ComicInfo. rewrite Hhas, Hrecord, Hxml, Hacc.
  rewrite page_entries_app, Himages. cbn. now rewrite app_nil_r.
Qed.

Lemma identifier_only_metadata_entry_witness :
  exists out,
    processFile Samples.lib (Fixture.world Samples.one_page) "book.epub" "" = Ok out
    /\ last out
       = Some {| zip.entry_name := "ComicInfo.xml";
                 zip.entry_data :=
                   xml_Header
                   +:+ "<ComicInfo><Series></Series><Manga>Unknown</Manga></ComicInfo>" |}.
Proof.
  destruct (identifier_only_metadata_entry Samples.lib (Fixture.world Samples.one_page)
              "book.epub" "" Samples.one_page "OEBPS/content.opf"
              Samples.package_identifier_only
              "<ComicInfo><Series></Series><Manga>Unknown</Manga></ComicInfo>")
    as (out & Hout & Hlast); try reflexivity.
  - vm_compute. discriminate.
  - intros zipw name. reflexivity.
  - discriminate.
  - exists out. split; [exact Hout|]. rewrite Hlast. apply last_snoc.
Defined.

(** ** The characters of the series title *)

Section Runes.

Import utf8.

Lemma lor_bounds a b :
  (0 <= a -> 0 <= b -> a <= Z.lor a b /\ b <= Z.lor a b /\ Z.lor a b <= a + b)%Z.
Proof.
  intros Ha Hb.
  pose proof (Zbitwise.Z.add_lor_land a b) as Hsum.
  assert (0 <= Z.land a b)%Z by (apply Z.land_nonneg; now left).
  pose proof (Zbitwise.Z.sub_lor_l_same_l b a) as Hl.
  pose proof (Zbitwise.Z.sub_lor_l_same_r a b) as Hr.
  assert (0 <= Z.land b (Z.lnot a))%Z by (apply Z.land_nonneg; now left).
  assert (0 <= Z.land a (Z.lnot b))%Z by (apply Z.land_nonneg; now left).
  lia.
Qed.

Lemma byteval_range c : (0 <= byteval c < 256)%Z.
Proof.
  unfold byteval. pose proof (nat_ascii_bounded c). lia.
Qed.

Lemma land_low x k : (0 <= k -> Z.land x (Z.ones k) = x mod 2 ^ k)%Z.
Proof. apply Z.land_ones. Qed.

Lemma first_cases x :
  (0 <= x < 256)%Z ->
  match first x with
  | AS => (x < 0x80)%Z
  | XX => True
  | SZ sz lo hi =>
      (0x80 <= lo /\ hi <= 0xBF)%Z /\
      ((sz = 2 /\ (0xC2 <= x < 0xE0)%Z) \/ (sz = 3 /\ (0xE0 <= x <= 0xEF)%Z)
       \/ (sz = 4 /\ (0xF0 <= x <= 0xF4)%Z /\ (x = 0xF0%Z -> lo = 0x90%Z)))
  end.
Proof.
  intros Hx. unfold first.
  repeat match goal with
         | |- context [(?a <? ?b)%Z] => destruct (Z.ltb_spec a b)
         | |- context [(?a =? ?b)%Z] => destruct (Z.eqb_spec a b)
         end; try exact I; try lia.
Qed.

Lemma shiftl_land_bounds x m k :
  (0 <= k -> 0 <= m ->
   Z.shiftl (Z.land x (Z.ones m)) k = (x mod 2 ^ m) * 2 ^ k)%Z.
Proof. intros Hk Hm. now rewrite Z.shiftl_mul_pow2, Z.land_ones by lia. Qed.

Lemma DecodeRune_japanese s0 r :
  japanese_rune (fst (DecodeRune s0 r)) = true -> east_asian_lead s0.
Proof.
  unfold east_asian_lead, DecodeRune.
  pose proof (byteval_range s0) as Hb0.
  pose proof (first_cases (byteval s0) Hb0) as Hf.
  destruct (first (byteval s0)) as [| |sz lo hi].
  - cbn [fst]. intros Hj. apply japanese_rune_spec in Hj. unfold in_japanese_ranges in Hj.
      rewrite ?Z.land_ones, ?Z.shiftl_mul_pow2 in Hj by lia.
      change (2 ^ 18)%Z with 262144%Z in Hj. change (2 ^ 12)%Z with 4096%Z in Hj.
      change (2 ^ 6)%Z with 64%Z in Hj. change (2 ^ 5)%Z with 32%Z in Hj.
      change (2 ^ 4)%Z with 16%Z in Hj. change (2 ^ 3)%Z with 8%Z in Hj. lia.
  - cbn [fst]. discriminate.
  - destruct (S (length r) <? sz); [discriminate|].
    destruct r as [|s1 r1]; [discriminate|].
    pose proof (byteval_range s1) as Hby1.
    destruct (Z.ltb_spec (byteval s1) lo); [discriminate|].
    destruct (Z.ltb_spec hi (byteval s1)); [discriminate|]. cbn [orb].
    unfold mask2, mask3, mask4, maskx.
    change 0x1F%Z with (Z.ones 5). change 0x0F%Z with (Z.ones 4).
    change 0x07%Z with (Z.ones 3). change 0x3F%Z with (Z.ones 6).
    rewrite !Z.land_ones by lia. rewrite !Z.shiftl_mul_pow2 by lia.
    change (2 ^ 18)%Z with 262144%Z. change (2 ^ 12)%Z with 4096%Z.
    change (2 ^ 6)%Z with 64%Z. change (2 ^ 5)%Z with 32%Z.
    change (2 ^ 4)%Z with 16%Z. change (2 ^ 3)%Z with 8%Z.
    assert (Hm1 : (0 <= byteval s1 mod 64 < 64)%Z) by (apply Z.mod_pos_bound; lia).
    destruct Hf as [[Hlo Hhi'] [[-> Hx]|[[-> Hx]|(-> & Hx & Hhi)]]].
    + cbn [Nat.leb fst]. intros Hj. apply japanese_rune_spec in Hj.
      unfold in_japanese_ranges in Hj.
      assert (Hm0 : (0 <= byteval s0 mod 32 < 32)%Z) by (apply Z.mod_pos_bound; lia).
      pose proof (lor_bounds (byteval s0 mod 32 * 64) (byteval s1 mod 64)
                    ltac:(lia) ltac:(lia)).
      lia.
    + cbn [Nat.leb]. destruct r1 as [|s2 r2]; [discriminate|].
      destruct (cont (byteval s2)); [|discriminate]. cbn [negb fst].
      intros Hj. apply japanese_rune_spec in Hj. unfold in_japanese_ranges in Hj.
      rewrite ?Z.land_ones, ?Z.shiftl_mul_pow2 in Hj by lia.
      change (2 ^ 18)%Z with 262144%Z in Hj. change (2 ^ 12)%Z with 4096%Z in Hj.
      change (2 ^ 6)%Z with 64%Z in Hj. change (2 ^ 5)%Z with 32%Z in Hj.
      change (2 ^ 4)%Z with 16%Z in Hj. change (2 ^ 3)%Z with 8%Z in Hj.
      pose proof (byteval_range s2) as Hby2.
      assert (Hm2 : (0 <= byteval s2 mod 64 < 64)%Z) by (apply Z.mod_pos_bound; lia).
      assert (Hm0 : (byteval s0 mod 16 = byteval s0 - 224)%Z).
      { Z.div_mod_to_equations. lia. }
      rewrite Hm0 in Hj.
      pose proof (lor_bounds ((byteval s0 - 224) * 4096) (byteval s1 mod 64 * 64)
                    ltac:(lia) ltac:(lia)) as Hb1.
      pose proof (lor_bounds (Z.lor ((byteval s0 - 224) * 4096) (byteval s1 mod 64 * 64))
                    (byteval s2 mod 64) ltac:(lia) ltac:(lia)) as Hb2.
      lia.
    + cbn [Nat.leb]. destruct r1 as [|s2 r2]; [discriminate|].
      destruct (cont (byteval s2)); [|discriminate]. cbn [negb].
      destruct r2 as [|s3 r3]; [discriminate|].
      destruct (cont (byteval s3)); [|discriminate]. cbn [negb fst].
      intros Hj. apply japanese_rune_spec in Hj. unfold in_japanese_ranges in Hj.
      rewrite ?Z.land_ones, ?Z.shiftl_mul_pow2 in Hj by lia.
      change (2 ^ 18)%Z with 262144%Z in Hj. change (2 ^ 12)%Z with 4096%Z in Hj.
      change (2 ^ 6)%Z with 64%Z in Hj. change (2 ^ 5)%Z with 32%Z in Hj.
      change (2 ^ 4)%Z with 16%Z in Hj. change (2 ^ 3)%Z with 8%Z in Hj.
      pose proof (byteval_range s2) as Hby2. pose proof (byteval_range s3) as Hby3.
      assert (Hm2 : (0 <= byteval s2 mod 64 < 64)%Z) by (apply Z.mod_pos_bound; lia).
      assert (Hm3 : (0 <= byteval s3 mod 64 < 64)%Z) by (apply Z.mod_pos_bound; lia).
      assert (Hm0 : (byteval s0 mod 8 = byteval s0 - 240)%Z).
      { Z.div_mod_to_equations. lia. }
      assert (Hm1' : (byteval s0 = 240 -> 16 <= byteval s1 mod 64)%Z).
      { intros He. specialize (Hhi He). Z.div_mod_to_equations. lia. }
      rewrite Hm0 in Hj.
      pose proof (lor_bounds ((byteval s0 - 240) * 262144) (byteval s1 mod 64 * 4096)
                    ltac:(lia) ltac:(lia)) as Hb1.
      set (a1 := Z.lor ((byteval s0 - 240) * 262144) (byteval s1 mod 64 * 4096)) in *.
      pose proof (lor_bounds a1 (byteval s2 mod 64 * 64) ltac:(lia) ltac:(lia)) as Hb2.
      set (a2 := Z.lor a1 (byteval s2 mod 64 * 64)) in *.
      pose proof (lor_bounds a2 (byteval s3 mod 64) ltac:(lia) ltac:(lia)) as Hb3.
      lia.
Qed.

Lemma range_loop_japanese fuel : forall s,
  containsJapanese_loop (range_loop fuel s) = true ->
  exists c, c ∈ s /\ east_asian_lead c.
Proof.
  induction fuel as [|fuel IH]; intros s; cbn [range_loop]; [discriminate|].
  destruct s as [|s0 r]; [discriminate|].
  pose proof (DecodeRune_japanese s0 r) as Hlead.
  destruct (DecodeRune s0 r) as [rune width]. cbn [fst containsJapanese_loop] in *.
  destruct (japanese_rune rune).
  - intros _. exists s0. split; [left | now apply Hlead].
  - intros Hrest. apply IH in Hrest as (c & Hc & Hl). exists c. split; [|exact Hl].
    rewrite <- (take_drop width (s0 :: r)). apply elem_of_app. now right.
Qed.

(** X5: a string is found to contain Japanese characters only if one of its
    bytes lies between E3 and E9: no text in ASCII, in a Latin, Greek or
    Cyrillic script, or in Hangul is ever flagged. *)
Theorem containsJapanese_needs_lead_byte (s : string) :
  containsJapanese s = true -> exists c, c ∈ bytes s /\ east_asian_lead c.
Proof. apply range_loop_japanese. Qed.

Lemma cont_range lo hi x :
  (0x80 <= lo -> hi <= 0xBF -> lo <= x -> x <= hi -> cont x = true)%Z.
Proof.
  intros. unfold cont, locb, hicb. apply andb_true_iff. split; apply Z.leb_le; lia.
Qed.

(** A sequence of several bytes is a first byte and continuation bytes. *)
Lemma DecodeRune_width_cont s0 r rune w :
  DecodeRune s0 r = (rune, w) ->
  w = 1 \/ exists k, w = S (S k) /\ S k <= length r
                     /\ Forall (fun c => cont (byteval c) = true) (take (S k) r).
Proof.
  unfold DecodeRune.
  pose proof (first_cases (byteval s0) (byteval_range s0)) as Hf.
  destruct (first (byteval s0)) as [| |sz lo hi]; try (intros [= _ <-]; now left).
  destruct Hf as [[Hlo Hhi] _].
  destruct (S (length r) <? sz); [intros [= _ <-]; now left|].
  destruct r as [|s1 r1]; [intros [= _ <-]; now left|].
  destruct (Z.ltb_spec (byteval s1) lo); [intros [= _ <-]; now left|].
  destruct (Z.ltb_spec hi (byteval s1)); [intros [= _ <-]; now left|]. cbn [orb].
  assert (H1 : cont (byteval s1) = true) by (apply (cont_range lo hi); lia).
  destruct (sz <=? 2).
  { intros [= _ <-]. right. exists 0. repeat split; [cbn; lia|].
    cbn [take]. repeat constructor. exact H1. }
  destruct r1 as [|s2 r2]; [intros [= _ <-]; now left|].
  destruct (cont (byteval s2)) eqn:H2; [|intros [= _ <-]; now left]. cbn [negb].
  destruct (sz <=? 3).
  { intros [= _ <-]. right. exists 1. repeat split; [cbn; lia|].
    cbn [take]. repeat constructor; assumption. }
  destruct r2 as [|s3 r3]; [intros [= _ <-]; now left|].
  destruct (cont (byteval s3)) eqn:H3; [|intros [= _ <-]; now left]. cbn [negb].
  intros [= _ <-]. right. exists 2. repeat split; [cbn; lia|].
  cbn [take]. repeat constructor; assumption.
Qed.

Lemma range_loop_enough fuel s :
  length s <= fuel -> range_loop fuel s = range_loop (length s) s.
Proof.
  intros H. replace fuel with (length s + (fuel - length s)) by lia.
  now apply range_loop_fuel.
Qed.

(** Decoding falls in step with a byte that is no continuation byte
    (self-synchronization). *)
Lemma range_loop_sync e s : cont (byteval e) = false ->
  forall n pre fuel, length pre <= n -> length (pre ++ e :: s) <= fuel ->
    exists rs, range_loop fuel (pre ++ e :: s)
               = rs ++ range_loop (length (e :: s)) (e :: s).
Proof.
  intros He. induction n as [|n IH]; intros pre fuel Hn Hfuel.
  { destruct pre; [|cbn in Hn; lia]. exists []. cbn [app] in *. now apply range_loop_enough. }
  destruct pre as [|p0 pr]; [exists []; cbn [app] in *; now apply range_loop_enough|].
  rewrite length_app in Hfuel. cbn [length] in *. destruct fuel as [|fuel]; [lia|].
  cbn [app range_loop].
  destruct (DecodeRune p0 (pr ++ e :: s)) as [rune w] eqn:Hd.
  apply DecodeRune_width_cont in Hd.
  assert (Hw : exists k, w = S k /\ k <= length pr).
  { destruct Hd as [->|(k & -> & Hlen & Hcont)]; [exists 0; split; [reflexivity|lia]|].
    exists (S k). split; [reflexivity|].
    destruct (Nat.le_gt_cases (S k) (length pr)) as [|Hgt]; [assumption|exfalso].
    rewrite Forall_forall in Hcont.
    assert (Hin : e ∈ take (S k) (pr ++ e :: s)).
    { apply elem_of_take. exists (length pr). split; [|lia].
      now rewrite lookup_app_r, Nat.sub_diag by lia. }
    apply Hcont in Hin. congruence. }
  destruct Hw as (k & -> & Hk).
  cbn [drop]. rewrite drop_app_le by exact Hk.
  destruct (IH (drop k pr) fuel) as (rs & Hrs).
  - rewrite length_drop. lia.
  - rewrite length_app, length_drop. cbn [length]. lia.
  - exists (rune :: rs). now rewrite Hrs.
Qed.

Lemma all_from_spec P k : forall lo c,
  all_from k lo P = true -> (lo <= c < lo + 2 ^ Z.of_nat k)%Z -> P c = true.
Proof.
  induction k as [|k IH]; intros lo c Hall Hc; cbn [all_from] in Hall.
  - assert (c = lo) as -> by (cbn in Hc; lia). exact Hall.
  - apply andb_true_iff in Hall as [Hl Hr].
    rewrite Nat2Z.inj_succ, Z.pow_succ_r in Hc by lia.
    destruct (Z.lt_ge_cases c (lo + 2 ^ Z.of_nat k)).
    + apply (IH lo); [exact Hl | lia].
    + apply (IH (lo + 2 ^ Z.of_nat k)%Z); [exact Hr | lia].
Qed.

Lemma decodes_back_all : all_from 15 0x3000 decodes_back = true.
Proof. vm_compute. reflexivity. Qed.

Lemma DecodeRune_three e0 e1 e2 post lo hi :
  first (byteval e0) = SZ 3 lo hi ->
  DecodeRune e0 (e1 :: e2 :: post) = DecodeRune e0 [e1; e2].
Proof. intros Hf. unfold DecodeRune. rewrite Hf. reflexivity. Qed.

Lemma encode3_decoded c post :
  in_japanese_ranges c ->
  exists e0 e1 e2,
    encode3 c = [e0; e1; e2] /\ cont (byteval e0) = false
    /\ DecodeRune e0 (e1 :: e2 :: post) = (c, 3).
Proof.
  intros Hc.
  assert (Hback : decodes_back c = true).
  { apply (all_from_spec decodes_back 15 0x3000 c decodes_back_all).
    unfold in_japanese_ranges in Hc. change (2 ^ Z.of_nat 15)%Z with 32768%Z. lia. }
  apply japanese_rune_spec in Hc. unfold decodes_back in Hback. rewrite Hc in Hback.
  cbn [negb orb] in Hback. unfold encode3 in *.
  set (e0 := byte_of_Z (Z.lor 0xE0 (Z.shiftr c 12))) in *.
  set (e1 := byte_of_Z (Z.lor 0x80 (Z.land (Z.shiftr c 6) 0x3F))) in *.
  set (e2 := byte_of_Z (Z.lor 0x80 (Z.land c 0x3F))) in *.
  exists e0, e1, e2. split; [reflexivity|].
  pose proof (first_cases (byteval e0) (byteval_range e0)) as Hf.
  destruct (first (byteval e0)) as [| |sz lo hi] eqn:F; try discriminate Hback.
  destruct sz as [|[|[|[|sz]]]]; try discriminate Hback.
  destruct Hf as [_ [[? _]|[[_ Hx]|[? _]]]]; try discriminate.
  split.
  - unfold cont, locb, hicb. apply andb_false_iff. right. apply Z.leb_gt. lia.
  - rewrite (DecodeRune_three e0 e1 e2 post lo hi F).
    destruct (DecodeRune e0 [e1; e2]) as [r w].
    destruct w as [|[|[|[|w]]]]; try discriminate Hback.
    apply Z.eqb_eq in Hback. now subst.
Qed.

(** X6: a string that holds the UTF-8 bytes of a code point of the three
    ranges is found to contain Japanese characters, whatever bytes stand
    before and after them. *)
Theorem containsJapanese_of_encoded (c : Z) (pre post : list ascii) :
  in_japanese_ranges c ->
  containsJapanese (str (pre ++ encode3 c ++ post)) = true.
Proof.
  intros Hc. destruct (encode3_decoded c post Hc) as (e0 & e1 & e2 & -> & He0 & Hd).
  unfold containsJapanese, runes. rewrite bytes_str, <- length_bytes, bytes_str.
  cbn [app].
  destruct (range_loop_sync e0 (e1 :: e2 :: post) He0 (length pre) pre
              (length (pre ++ e0 :: e1 :: e2 :: post)) (le_n _) (le_n _)) as (rs & ->).
  apply containsJapanese_loop_spec. exists c. split; [|exact Hc].
  apply elem_of_app. right. cbn [length range_loop]. rewrite Hd. left.
Qed.

Lemma containsJapanese_needs_lead_byte_witness :
  exists c, c ∈ bytes "の" /\ east_asian_lead c.
Proof. apply containsJapanese_needs_lead_byte. reflexivity. Defined.

Lemma containsJapanese_of_encoded_witness :
  encode3 0x306E = bytes "の"
  /\ containsJapanese (str (bytes "Tale " ++ encode3 0x306E ++ bytes " 2")) = true.
Proof.
  split; [reflexivity|].
  apply containsJapanese_of_encoded. unfold in_japanese_ranges. lia.
Defined.

End Runes.

(** ** Entries of the same name *)

Lemma findAndOpenFile_app pre : forall rest name,
  Forall (fun g => zip.Name g <> name) pre ->
  findAndOpenFile (pre ++ rest) name = findAndOpenFile rest name.
Proof.
  induction pre as [|g pre IH]; intros rest name Hpre; [reflexivity|].
  apply Forall_cons in Hpre as [Hg Hpre]. cbn [app findAndOpenFile].
  apply String.eqb_neq in Hg. rewrite Hg. now apply IH.
Qed.

(** X7: looking an entry up by name gives an error when no entry has that
    name, and otherwise what opening the first entry of that name gives, an
    error included: entries of the same name further on are not tried. *)
Theorem findAndOpenFile_first_entry (pre post : list zip.File) (f : zip.File)
    (fileName : string) :
  Forall (fun g => zip.Name g <> fileName) pre ->
  findAndOpenFile pre fileName = None
  /\ (zip.Name f = fileName ->
      findAndOpenFile (pre ++ f :: post) fileName = zip.Open f).
Proof.
  intros Hpre. split.
  - rewrite <- (app_nil_r pre). now rewrite findAndOpenFile_app.
  - intros Hf. rewrite findAndOpenFile_app by exact Hpre.
    cbn [findAndOpenFile]. apply String.eqb_eq in Hf. now rewrite Hf.
Qed.

Lemma findAndOpenFile_first_entry_witness :
  findAndOpenFile
    [Fixture.file "a" "1"; Samples.locked "b"; Fixture.file "b" "2"] "b" = None.
Proof.
  destruct (findAndOpenFile_first_entry [Fixture.file "a" "1"] [Fixture.file "b" "2"]
              (Samples.locked "b") "b") as [_ Hfirst].
  - repeat constructor. discriminate.
  - apply Hfirst. reflexivity.
Defined.

Lemma page_loop_app lib pre : forall rest pageHref srcs,
  Forall (fun g => zip.Name g <> pageHref) pre ->
  page_loop lib (pre ++ rest) pageHref srcs = page_loop lib rest pageHref srcs.
Proof.
  induction pre as [|g pre IH]; intros rest pageHref srcs Hpre; [reflexivity|].
  apply Forall_cons in Hpre as [Hg Hpre]. cbn [app page_loop].
  apply String.eqb_neq in Hg. rewrite Hg. now apply IH.
Qed.

Lemma addImageToZip_app w zipw pre : forall rest imgPath imageIndex total,
  Forall (fun g => zip.Name g <> imgPath) pre ->
  addImageToZip w zipw (pre ++ rest) imgPath imageIndex total
  = addImageToZip w zipw rest imgPath imageIndex total.
Proof.
  induction pre as [|g pre IH]; intros rest imgPath imageIndex total Hpre; [reflexivity|].
  apply Forall_cons in Hpre as [Hg Hpre]. cbn [app addImageToZip].
  apply String.eqb_neq in Hg. rewrite Hg. now apply IH.
Qed.

(** X8: a page and an image are not looked up alike. When the first entry
    of the name of a page does not open, or is not read to its end, the
    search for the page goes on with the entries after it; when the first
    entry of the name of an image does not open, the image is given up,
    whatever entries follow. *)
Theorem unreadable_entry_page_and_image (lib : Lib) (w : World) (pre post : list zip.File)
    (f : zip.File) (name : string) :
  Forall (fun g => zip.Name g <> name) pre ->
  zip.Name f = name ->
  (zip.Open f ≫= io.ReadAll = None ->
   forall srcs, page_loop lib (pre ++ f :: post) name srcs = page_loop lib post name srcs)
  /\ (zip.Open f = None ->
      forall zipw imageIndex total,
        addImageToZip w zipw (pre ++ f :: post) name imageIndex total = zipw).
Proof.
  intros Hpre Hf. apply String.eqb_eq in Hf. split.
  - intros Hread srcs. rewrite page_loop_app by exact Hpre. cbn [page_loop]. rewrite Hf.
    destruct (zip.Open f) as [file|]; [|reflexivity].
    cbn [mbind option_bind] in Hread. now rewrite Hread.
  - intros Hopen zipw imageIndex total. rewrite addImageToZip_app by exact Hpre.
    cbn [addImageToZip]. now rewrite Hf, Hopen.
Qed.

Lemma unreadable_entry_page_and_image_witness :
  page_loop Samples.lib
    [Samples.damaged "OEBPS/p1.xhtml" "<html>"; Fixture.file "OEBPS/p1.xhtml" Fixture.page_one_image]
    "OEBPS/p1.xhtml" []
  = ["OEBPS/images/c.PNG"]
  /\ addImageToZip (Fixture.world []) []
       [Samples.locked "OEBPS/images/c.PNG"; Fixture.file "OEBPS/images/c.PNG" "C"]
       "OEBPS/images/c.PNG" 0 1
     = [].
Proof.
  split.
  - destruct (unreadable_entry_page_and_image Samples.lib (Fixture.world []) []
                [Fixture.file "OEBPS/p1.xhtml" Fixture.page_one_image]
                (Samples.damaged "OEBPS/p1.xhtml" "<html>") "OEBPS/p1.xhtml")
      as [Hpage _]; [constructor | reflexivity |].
    cbn [app] in Hpage. rewrite Hpage by reflexivity. reflexivity.
  - destruct (unreadable_entry_page_and_image Samples.lib (Fixture.world []) []
                [Fixture.file "OEBPS/images/c.PNG" "C"]
                (Samples.locked "OEBPS/images/c.PNG") "OEBPS/images/c.PNG")
      as [_ Himage]; [constructor | reflexivity |].
    apply Himage. reflexivity.
Defined.

(** ** The manifest and the spine *)

Lemma manifest_loop_lookup items id : forall m : gmap string string,
  manifest_loop items m !! id
  = match last (List.filter (fun item => String.eqb (ID item) id) items) with
    | Some item => Some (Href item)
    | None => m !! id
    end.
Proof.
  induction items as [|item items IH]; intros m; cbn [manifest_loop List.filter]; [reflexivity|].
  rewrite IH. destruct (String.eqb_spec (ID item) id) as [He|Hne].
  - rewrite last_cons.
    destruct (last (List.filter _ items)); [reflexivity|].
    subst id. apply lookup_insert_eq.
  - destruct (last (List.filter _ items)); [reflexivity|]. now apply lookup_insert_ne.
Qed.

(** X9: the manifest maps an id to the href of the last item that declares
    it, and to nothing when no item does. *)
Theorem manifest_last_declaration_wins (items : list Item) (id : string) :
  manifest_loop items ∅ !! id
  = Href <$> last (List.filter (fun item => String.eqb (ID item) id) items).
Proof.
  rewrite manifest_loop_lookup.
  destruct (last (List.filter _ items)); [reflexivity | apply lookup_empty].
Qed.

(** X10: the collected image references of a spine are those of its first
    part followed by those of the rest: collecting goes through the spine
    once, in order, and what is collected for an item-ref does not depend
    on the item-refs around it. *)
Theorem collection_follows_spine (lib : Lib) (files : list zip.File)
    (pageMap : gmap string string) (volOPFPath : string) (refs1 refs2 : list Itemref) :
  pages_loop lib files (spine_loop pageMap volOPFPath (refs1 ++ refs2) []) []
  = pages_loop lib files (spine_loop pageMap volOPFPath refs1 []) []
    ++ pages_loop lib files (spine_loop pageMap volOPFPath refs2 []) [].
Proof.
  rewrite !pages_loop_spec, !spine_loop_spec. cbn [app].
  unfold resolved_pages. now rewrite omap_app, map_app, concat_app.
Qed.

(** ** The names of the archive *)

Lemma pad0_length width ds : length ds <= width -> length (fmt.pad0 width ds) = width.
Proof. intros H. unfold fmt.pad0. rewrite length_app, length_replicate. lia. Qed.

Lemma pad0_Itoa_inj width i j :
  fmt.pad0 width (bytes (strconv.Itoa i)) = fmt.pad0 width (bytes (strconv.Itoa j)) -> i = j.
Proof.
  intros H. apply (f_equal (fun ds => strconv.atoi_digits ds 0)) in H.
  unfold fmt.pad0 in H. rewrite !atoi_digits_zeros, !atoi_digits_Itoa in H.
  injection H as H. lia.
Qed.

(** Two positions of the same sequence never give the same name. *)
Lemma normalizeImageName_inj a b i j N :
  i <= N -> j <= N ->
  normalizeImageName a i N = normalizeImageName b j N -> i = j.
Proof.
  intros Hi Hj Heq. unfold normalizeImageName in Heq.
  apply (f_equal bytes) in Heq. rewrite !Sprintf_page_bytes in Heq.
  apply app_inv_head in Heq.
  apply app_inj_1 in Heq as [Hpad _].
  - now apply pad0_Itoa_inj in Hpad.
  - rewrite !pad0_length; [reflexivity| |]; rewrite length_bytes; now apply Itoa_length_mono.
Qed.

Lemma image_entries_index files total srcs e : forall start,
  e ∈ omap (fun p => image_entry files total (fst p) (snd p)) (indexed start srcs) ->
  exists j src, start <= j < start + length srcs
                /\ zip.entry_name e = normalizeImageName src j total.
Proof.
  unfold indexed. intros start Hin.
  apply list_elem_of_omap in Hin as ([j src] & Hp & He). cbn [fst snd] in He.
  apply list_elem_of_lookup in Hp as (i & Hi).
  apply lookup_zip_with_Some in Hi as (j' & src' & [= <- <-] & Hseq & _).
  apply lookup_seq in Hseq as [-> Hlt].
  apply image_entry_Some in He as (r & _ & ->).
  exists (start + i), src. split; [lia | reflexivity].
Qed.

Lemma image_entries_NoDup files total srcs : forall start,
  start + length srcs <= total ->
  NoDup (map zip.entry_name
           (omap (fun p => image_entry files total (fst p) (snd p)) (indexed start srcs))).
Proof.
  induction srcs as [|src srcs IH]; intros start Hlen; [constructor|].
  cbn [length] in Hlen.
  change (indexed start (src :: srcs)) with ((start, src) :: indexed (S start) srcs).
  cbn [omap list_omap fst snd].
  destruct (image_entry files total start src) as [e|] eqn:He; [|apply IH; lia].
  cbn [map]. constructor; [|apply IH; lia].
  intros Hin. apply list_elem_of_fmap in Hin as (e' & Hname & Hin).
  apply image_entries_index in Hin as (j & src' & Hj & Hname').
  apply image_entry_Some in He as (r & _ & ->). cbn [zip.entry_name] in Hname.
  rewrite Hname' in Hname. apply normalizeImageName_inj in Hname; lia.
Qed.

(** X11: no two entries of the archive that a conversion writes have the
    same name. *)
Theorem output_names_distinct (lib : Lib) (w : World) (epubPath outputPath : string)
    (files : list zip.File) (volOPFPath : string) (pkg : Package) :
  load_package lib w epubPath = Ok (files, volOPFPath, pkg) ->
  spine_pages volOPFPath pkg <> [] ->
  os_Create w (output_path epubPath outputPath) = true ->
  accepts_entries w ->
  exists out,
    processFile lib w epubPath outputPath = Ok out
    /\ NoDup (map zip.entry_name out).
Proof.
  intros Hload Hpages Hcreate Hacc.
  eexists. split.
  { apply (processFile_written lib w epubPath outputPath files volOPFPath pkg
             Hload Hpages Hcreate). }
  cbn zeta. rewrite images_loop_spec by exact Hacc. cbn [app].
  set (imgSrcs := collected_refs lib files volOPFPath pkg).
  pose proof (image_entries_NoDup files (length imgSrcs) imgSrcs 0 (le_n _)) as Himages.
  set (images := omap _ _) in *.
  unfold add_ComicInfo.
  destruct (hasMetadata _); [|exact Himages].
  destruct (xml_MarshalIndent lib _); [|exact Himages].
  destruct (zipw_Create w images "ComicInfo.xml"); [|exact Himages].
  rewrite map_app. apply NoDup_app. split; [exact Himages|]. split.
  - intros name Hin Hcomic. apply list_elem_of_fmap in Hin as (e & -> & Hin).
    apply image_entries_index in Hin as (j & src & _ & Hname).
    cbn in Hcomic. apply list_elem_of_singleton in Hcomic.
    rewrite Hname in Hcomic.
    pose proof (normalizeImageName_not_ComicInfo src j (length imgSrcs)) as Hne.
    apply String.eqb_neq in Hne. contradiction.
  - cbn. apply NoDup_singleton.
Qed.

Lemma output_names_distinct_witness :
  exists out,
    processFile Fixture.lib (Fixture.world Fixture.two_images) "book.epub" "" = Ok out
    /\ NoDup (map zip.entry_name out).
Proof.
  apply (output_names_distinct Fixture.lib (Fixture.world Fixture.two_images)
           "book.epub" "" Fixture.two_images "OEBPS/content.opf" Fixture.package_two_pages).
  - reflexivity.
  - vm_compute. discriminate.
  - reflexivity.
  - intros zipw name. reflexivity.
Defined.

(** X12: in the archive that a conversion writes the page entries come
    first and the metadata entry, if there is one, last; there is never
    more than one metadata entry. *)
Theorem metadata_entry_last (lib : Lib) (w : World) (epubPath outputPath : string)
    (files : list zip.File) (volOPFPath : string) (pkg : Package) :
  load_package lib w epubPath = Ok (files, volOPFPath, pkg) ->
  spine_pages volOPFPath pkg <> [] ->
  os_Create w (output_path epubPath outputPath) = true ->
  accepts_entries w ->
  exists out,
    processFile lib w epubPath outputPath = Ok out
    /\ out = page_entries out ++ metadata_entries out
    /\ length (metadata_entries out) <= 1.
Proof.
  intros Hload Hpages Hcreate Hacc.
  eexists. split.
  { apply (processFile_written lib w epubPath outputPath files volOPFPath pkg
             Hload Hpages Hcreate). }
  cbn zeta. rewrite images_loop_spec by exact Hacc. cbn [app].
  set (images := omap _ _).
  assert (Hp : page_entries images = images) by apply page_entries_images.
  assert (Hm : metadata_entries images = []) by apply metadata_entries_images.
  unfold add_ComicInfo.
  destruct (hasMetadata _); [|rewrite Hp, Hm, app_nil_r; split; [reflexivity|cbn; lia]].
  destruct (xml_MarshalIndent lib _);
    [|rewrite Hp, Hm, app_nil_r; split; [reflexivity|cbn; lia]].
  destruct (zipw_Create w images "ComicInfo.xml");
    [|rewrite Hp, Hm, app_nil_r; split; [reflexivity|cbn; lia]].
  rewrite page_entries_app, Hp. unfold metadata_entries in *.
  rewrite List.filter_app, Hm. cbn. rewrite app_nil_r. split; [reflexivity|lia].
Qed.

Lemma metadata_entry_last_witness :
  exists out,
    processFile Fixture.lib (Fixture.world Fixture.lost_image) "book.epub" "" = Ok out
    /\ map zip.entry_name (metadata_entries out) = ["ComicInfo.xml"]
    /\ out = page_entries out ++ metadata_entries out.
Proof.
  destruct (metadata_entry_last Fixture.lib (Fixture.world Fixture.lost_image)
              "book.epub" "" Fixture.lost_image "OEBPS/content.opf" Fixture.package_dangling)
    as (out & Hout & Hsplit & _).
  - reflexivity.
  - vm_compute. discriminate.
  - reflexivity.
  - intros zipw name. reflexivity.
  - exists out. split; [exact Hout|]. split; [|exact Hsplit].
    vm_compute in Hout. injection Hout as <-. reflexivity.
Defined.

(** ** What [processFile] returns *)

Lemma page_loop_absent lib files pageHref srcs :
  Forall (fun f => zip.Name f <> pageHref) files ->
  page_loop lib files pageHref srcs = srcs.
Proof.
  intros H. rewrite <- (app_nil_r files). now rewrite page_loop_app.
Qed.

Lemma pages_loop_absent lib files pages : forall srcs,
  Forall (fun pageHref => Forall (fun f => zip.Name f <> pageHref) files) pages ->
  pages_loop lib files pages srcs = srcs.
Proof.
  induction pages as [|p pages IH]; intros srcs Hall; [reflexivity|].
  apply Forall_cons in Hall as [Hp Hall]. cbn [pages_loop].
  rewrite page_loop_absent by exact Hp. now apply IH.
Qed.

(** X13: a conversion whose resolved pages are all absent from the archive
    still succeeds: it writes an archive without any page entry. *)
Theorem conversion_without_pages_succeeds (lib : Lib) (w : World)
    (epubPath outputPath : string) (files : list zip.File) (volOPFPath : string)
    (pkg : Package) :
  load_package lib w epubPath = Ok (files, volOPFPath, pkg) ->
  spine_pages volOPFPath pkg <> [] ->
  os_Create w (output_path epubPath outputPath) = true ->
  Forall (fun pageHref => Forall (fun f => zip.Name f <> pageHref) files)
    (spine_pages volOPFPath pkg) ->
  exists out,
    processFile lib w epubPath outputPath = Ok out /\ page_entries out = [].
Proof.
  intros Hload Hpages Hcreate Habsent.
  eexists. split.
  { apply (processFile_written lib w epubPath outputPath files volOPFPath pkg
             Hload Hpages Hcreate). }
  cbn zeta. unfold collected_refs. rewrite pages_loop_absent by exact Habsent.
  cbn [length images_loop]. now rewrite add_ComicInfo_page_entries.
Qed.

Lemma conversion_without_pages_succeeds_witness :
  processFile Samples.lib (Fixture.world (Samples.book Fixture.opf_two_pages []))
    "book.epub" "out.cbz" = Ok [].
Proof.
  destruct (conversion_without_pages_succeeds Samples.lib
              (Fixture.world (Samples.book Fixture.opf_two_pages [])) "book.epub" "out.cbz"
              (Samples.book Fixture.opf_two_pages []) "OEBPS/content.opf"
              Fixture.package_two_pages)
    as (out & Hout & _).
  - reflexivity.
  - vm_compute. discriminate.
  - reflexivity.
  - vm_compute. repeat constructor; discriminate.
  - rewrite Hout. vm_compute in Hout. now injection Hout as <-.
Defined.

(** X14: the conversion refuses its input for its extension exactly when
    the extension of the path is not [.epub], in these very letters. *)
Theorem extension_error (lib : Lib) (w : World) (epubPath outputPath : string) :
  processFile lib w epubPath outputPath = Err ErrExtension
  <-> filepath.Ext epubPath <> ".epub".
Proof.
  rewrite processFile_unfold. unfold load_package.
  destruct (String.eqb_spec (filepath.Ext epubPath) ".epub") as [He|Hne].
  - split; [|contradiction]. intros Herr. exfalso. revert Herr.
    cbn [check mbind result_bind].
    destruct (zip_OpenReader w epubPath) as [files|]; [|discriminate].
    cbn [orErr mbind result_bind].
    destruct (findAndOpenFile files "META-INF/container.xml") as [cf|]; [|discriminate].
    cbn [orErr mbind result_bind].
    destruct (decodeContainer lib cf) as [container|]; [|discriminate].
    cbn [orErr mbind result_bind].
    destruct (String.eqb (FullPath container) ""); [discriminate|].
    cbn [negb check mbind result_bind].
    destruct (findAndOpenFile files (FullPath container)) as [opf|]; [|discriminate].
    cbn [orErr mbind result_bind].
    destruct (decodePackage lib opf) as [pkg|]; [|discriminate].
    cbn [orErr mbind result_bind].
    destruct (length _ =? 0); [discriminate|].
    destruct (negb _); discriminate.
  - split; [intros _; exact Hne | reflexivity].
Qed.

(** X15: the errors of the input come before the output: a conversion that
    fails otherwise than in creating its output file fails in the same way
    for every output path and whatever the file system does with the
    output. *)
Theorem input_errors_ignore_output (lib : Lib) (w w' : World)
    (epubPath outputPath outputPath' : string) (e : error) :
  zip_OpenReader w' epubPath = zip_OpenReader w epubPath ->
  processFile lib w epubPath outputPath = Err e ->
  e <> ErrCreateZip ->
  processFile lib w' epubPath outputPath' = Err e.
Proof.
  intros Hopen Herr Hne. rewrite processFile_unfold in *.
  unfold load_package in *. rewrite Hopen.
  destruct (check _ ErrExtension ;; _) as [[[files vol] pkg]|e'] eqn:Hload.
  - destruct (length _ =? 0); [exact Herr|].
    destruct (negb (os_Create w _)); [congruence | discriminate Herr].
  - exact Herr.
Qed.

Lemma input_errors_ignore_output_witness :
  processFile Fixture.lib (Fixture.world_again [Fixture.file "mimetype" "application/epub+zip"])
    "book.epub" "elsewhere/out.cbz" = Err ErrFindContainer.
Proof.
  apply (input_errors_ignore_output Fixture.lib
           (Fixture.world [Fixture.file "mimetype" "application/epub+zip"])
           (Fixture.world_again [Fixture.file "mimetype" "application/epub+zip"])
           "book.epub" "" "elsewhere/out.cbz"); [reflexivity | reflexivity | discriminate].
Defined.

(** ** The extension and the output path *)

Lemma ext_scan_suffix rpath : forall acc,
  exists stem, rev rpath ++ acc = stem ++ filepath.ext_scan rpath acc.
Proof.
  induction rpath as [|c r IH]; intros acc; cbn [filepath.ext_scan rev].
  - exists acc. now rewrite app_nil_r.
  - destruct (filepath.IsPathSeparator c).
    + eexists. now rewrite app_nil_r.
    + destruct (byte_eqb c filepath.dot).
      * exists (rev r). now rewrite <- app_assoc.
      * destruct (IH (c :: acc)) as (stem & Hstem). exists stem.
        now rewrite <- app_assoc.
Qed.

(** The extension of a path is an end of the path. *)
Lemma Ext_suffix path : exists stem, path = stem +:+ filepath.Ext path.
Proof.
  unfold filepath.Ext.
  destruct (ext_scan_suffix (rev (bytes path)) []) as (stem & Hstem).
  rewrite rev_involutive, app_nil_r in Hstem.
  exists (str stem). rewrite <- str_app, <- Hstem. symmetry. apply str_bytes.
Qed.

(** X16: for an input path accepted for its extension, the output path
    that is made up when none is given is the input path with its [.epub]
    replaced by [.cbz]; an output path that is given is kept. *)
Theorem default_output_path (epubPath : string) :
  filepath.Ext epubPath = ".epub" ->
  (exists stem,
      epubPath = stem +:+ ".epub" /\ output_path epubPath "" = stem +:+ ".cbz")
  /\ forall outputPath, outputPath <> "" -> output_path epubPath outputPath = outputPath.
Proof.
  intros Hext. split.
  - destruct (Ext_suffix epubPath) as (stem & Hpath). rewrite Hext in Hpath.
    exists stem. split; [exact Hpath|].
    unfold output_path. cbn [String.eqb].
    rewrite Hpath at 1 2.
    assert (Hlen : String.length (stem +:+ ".epub") - String.length ".epub"
                   = String.length stem).
    { rewrite <- !length_bytes, bytes_app, length_app. lia. }
    now rewrite Hlen, substring_app_prefix.
  - intros outputPath Hne. unfold output_path.
    apply String.eqb_neq in Hne. now rewrite Hne.
Qed.

Lemma default_output_path_witness :
  output_path "comics/vol.1/book.epub" "" = "comics/vol.1/book.cbz".
Proof.
  destruct (default_output_path "comics/vol.1/book.epub" eq_refl) as [(stem & Hpath & Hout) _].
  rewrite Hout. f_equal.
  apply (f_equal bytes) in Hpath. rewrite bytes_app in Hpath.
  change (bytes "comics/vol.1/book.epub") with (bytes "comics/vol.1/book" ++ bytes ".epub") in Hpath.
  apply app_inv_tail in Hpath. rewrite <- (str_bytes stem), <- Hpath. reflexivity.
Defined.

(** X17: a number below [2 ^ 63] written with [Itoa] is read back by
    [Atoi]. *)
Theorem Atoi_Itoa (n : nat) :
  (Z.of_nat n < 2 ^ 63)%Z -> strconv.Atoi (strconv.Itoa n) = Some (Z.of_nat n).
Proof.
  intros Hn. rewrite <- (str_bytes (strconv.Itoa n)).
  apply Atoi_of_digits.
  - apply Itoa_nonempty.
  - apply Itoa_digits.
  - apply atoi_digits_Itoa.
  - exact Hn.
  - lia.
Qed.

Lemma Atoi_Itoa_witness : strconv.Atoi (strconv.Itoa 1984) = Some 1984%Z.
Proof. apply (Atoi_Itoa 1984). reflexivity. Defined.

(** ** The batch runner *)

Lemma strip_app p r : strings.strip p (p ++ r) = Some r.
Proof.
  induction p as [|a p IH]; cbn [app strings.strip]; [now destruct r|].
  unfold byte_eqb at 1. now rewrite Ascii.eqb_refl.
Qed.

Lemma HasSuffix_app stem suffix : strings.HasSuffix (stem +:+ suffix) suffix = true.
Proof.
  unfold strings.HasSuffix. now rewrite bytes_app, rev_app_distr, strip_app.
Qed.

Lemma TrimSuffix_app stem suffix : strings.TrimSuffix (stem +:+ suffix) suffix = stem.
Proof.
  unfold strings.TrimSuffix.
  now rewrite bytes_app, rev_app_distr, strip_app, rev_involutive, str_bytes.
Qed.

Lemma ToLower_ascii lower s :
  strings.isASCII (bytes s) = true ->
  strings.ToLower lower s = str (map strings.lower_byte (bytes s)).
Proof. intros H. unfold strings.ToLower. now rewrite H. Qed.

Lemma isASCII_app a b :
  strings.isASCII (a ++ b) = strings.isASCII a && strings.isASCII b.
Proof. apply forallb_app. Qed.

(** The scan of [Ext] stops at the first dot from the end. *)
Lemma ext_scan_dot l : forall r acc,
  Forall (fun c => filepath.IsPathSeparator c = false /\ byte_eqb c filepath.dot = false) l ->
  filepath.ext_scan (l ++ filepath.dot :: r) acc = filepath.dot :: rev l ++ acc.
Proof.
  induction l as [|c l IH]; intros r acc Hl; cbn [app filepath.ext_scan rev].
  - reflexivity.
  - apply Forall_cons in Hl as [[Hs Hd] Hl]. rewrite Hs, Hd, IH by exact Hl.
    now rewrite <- app_assoc.
Qed.

Lemma Ext_capital stem : filepath.Ext (stem +:+ ".EPUB") = ".EPUB".
Proof.
  unfold filepath.Ext. rewrite bytes_app, rev_app_distr.
  change (rev (bytes ".EPUB")) with (rev (bytes "EPUB") ++ [filepath.dot]).
  rewrite <- app_assoc. cbn [app].
  rewrite ext_scan_dot; [reflexivity|].
  repeat constructor.
Qed.

Lemma walk_loop_spec dl visited : forall epubFiles,
  walk_loop dl visited epubFiles
  = epubFiles ++ map de_Name (List.filter (selected dl) visited).
Proof.
  induction visited as [|info visited IH]; intros epubFiles; cbn [walk_loop List.filter].
  - now rewrite app_nil_r.
  - unfold selected at 1. destruct (negb (de_IsDir info) && _); rewrite IH; [|reflexivity].
    cbn [map]. now rewrite <- app_assoc.
Qed.

Lemma readdir_loop_spec dl sourceDir entries : forall epubFiles,
  readdir_loop dl sourceDir entries epubFiles
  = epubFiles
    ++ map (fun entry => filepath.Join [sourceDir; de_Name entry])
         (List.filter (selected dl) entries).
Proof.
  induction entries as [|entry entries IH]; intros epubFiles;
    cbn [readdir_loop List.filter].
  - now rewrite app_nil_r.
  - unfold selected at 1. destruct (negb (de_IsDir entry) && _); rewrite IH; [|reflexivity].
    cbn [map]. now rewrite <- app_assoc.
Qed.

Lemma selected_capital dl stem :
  strings.isASCII (bytes stem) = true ->
  selected dl {| de_Name := stem +:+ ".EPUB"; de_IsDir := false |} = true.
Proof.
  intros Hascii. unfold selected. cbn [de_Name de_IsDir negb andb].
  rewrite ToLower_ascii by (rewrite bytes_app, isASCII_app, Hascii; reflexivity).
  rewrite bytes_app, map_app, str_app.
  change (str (map strings.lower_byte (bytes ".EPUB"))) with ".epub".
  apply HasSuffix_app.
Qed.

(** X18: the batch runner and the conversion do not look at the extension
    alike. A file whose name, of ASCII bytes, ends in [.EPUB] in capitals is
    among the files that the recursive walk selects, since the walk lowers
    the path before it compares; the conversion of that file, which compares
    the extension as it is written, then fails with the extension error,
    in both modes when no output directory is given. *)
Theorem capital_extension_selected_then_refused (lib : Lib) (w : World) (dl : DirLib)
    (sourceDir : string) (visited : list DirEntry) (stem : string) :
  strings.isASCII (bytes stem) = true ->
  {| de_Name := stem +:+ ".EPUB"; de_IsDir := false |} ∈ visited ->
  (stem +:+ ".EPUB") ∈ walk_loop dl visited []
  /\ forall recursive,
       directory_job lib w dl sourceDir "" recursive (stem +:+ ".EPUB")
       = Some (Err ErrExtension).
Proof.
  intros Hascii Hin. split.
  - rewrite walk_loop_spec. cbn [app]. apply list_elem_of_fmap.
    eexists. split; [|apply list_elem_of_In, List.filter_In; split;
                       [apply list_elem_of_In; exact Hin|]]; [reflexivity|].
    now apply selected_capital.
  - intros recursive. unfold directory_job, final_output_path. cbn [String.eqb negb].
    f_equal. unfold processFile.
    destruct (String.eqb_spec (filepath.Ext (stem +:+ ".EPUB")) ".epub") as [He|_];
      [|reflexivity].
    rewrite Ext_capital in He. discriminate He.
Qed.

Lemma capital_extension_selected_then_refused_witness :
  "Book.EPUB" ∈ walk_loop Samples.dirlib
                   [{| de_Name := "lib"; de_IsDir := true |};
                    {| de_Name := "Book.EPUB"; de_IsDir := false |}] []
  /\ forall recursive,
       directory_job Samples.lib (Fixture.world []) Samples.dirlib "lib" "" recursive
         "Book.EPUB"
       = Some (Err ErrExtension).
Proof.
  apply (capital_extension_selected_then_refused Samples.lib (Fixture.world [])
           Samples.dirlib "lib" _ "Book").
  - reflexivity.
  - apply list_elem_of_In. right. left. reflexivity.
Defined.

Section BatchPaths.

Import filepath.

Lemma clean_loop_enough rooted fuel path out dotdot :
  length path <= fuel ->
  clean_loop fuel rooted path out dotdot = clean_loop (length path) rooted path out dotdot.
Proof.
  intros Hle. replace fuel with (length path + (fuel - length path)) by lia.
  now apply clean_loop_fuel.
Qed.

(** The loop of [Clean] copies the plain names that a path starts with and
    goes on with what follows them. *)
Lemma clean_loop_names_then ns tail :
  Forall plain ns -> ns <> [] -> at_elem_end tail = true ->
  forall fuel out dotdot,
    length (join_bytes ns ++ tail) <= fuel ->
    clean_loop fuel false (join_bytes ns ++ tail) out dotdot
    = clean_loop (length tail) false tail
        (rev (join_bytes ns) ++ (if length out =? 0 then out else Separator :: out)) dotdot.
Proof.
  intros Hns. induction Hns as [|n ns Hn Hns IH]; intros Hne Htail fuel out dotdot Hfuel;
    [contradiction|].
  destruct ns as [|n' ns].
  - cbn [join_bytes] in *. destruct fuel as [|fuel].
    { destruct Hn as (Hn & _). destruct n; [contradiction | cbn in Hfuel; lia]. }
    rewrite clean_loop_name by assumption.
    apply clean_loop_enough. rewrite length_app in Hfuel.
    destruct Hn as (Hn & _). destruct n; [contradiction | cbn in Hfuel; lia].
  - change (join_bytes (n :: n' :: ns)) with (n ++ Separator :: join_bytes (n' :: ns)) in *.
    rewrite <- app_assoc in *. cbn [app] in *.
    rewrite length_app in Hfuel. cbn [length] in Hfuel.
    assert (Hlen : 1 <= length n).
    { destruct Hn as (Hn & _). destruct n; [contradiction | cbn; lia]. }
    destruct fuel as [|[|fuel]]; [lia | lia |].
    rewrite clean_loop_name; [|exact Hn|reflexivity].
    cbn [clean_loop]. change (IsPathSeparator Separator) with true. cbn iota.
    rewrite IH; [|discriminate|exact Htail|lia].
    rewrite length_app, length_rev.
    destruct (length n + _ =? 0) eqn:Hz; [apply Nat.eqb_eq in Hz; lia|].
    rewrite rev_app_distr. cbn [rev]. now rewrite <- !app_assoc.
Qed.

(** [Clean] drops a last element [.] after plain names. *)
Lemma clean_bytes_names_dot ns :
  Forall plain ns -> ns <> [] ->
  clean_bytes (join_bytes ns ++ [Separator; dot]) = join_bytes ns.
Proof.
  intros Hns Hne.
  destruct (join_bytes_head ns Hns Hne) as (c & t & Hj & Hc).
  unfold clean_bytes.
  destruct (join_bytes ns ++ [Separator; dot]) as [|c' rest] eqn:Hpath.
  { rewrite Hj in Hpath. discriminate Hpath. }
  assert (c' = c) as -> by (rewrite Hj in Hpath; now injection Hpath).
  rewrite Hc, <- Hpath.
  rewrite clean_loop_names_then; [|exact Hns|exact Hne|reflexivity|lia].
  cbn [length Nat.eqb clean_loop]. change (IsPathSeparator Separator) with true. cbn iota.
  change (IsPathSeparator dot) with false. change (byte_eqb dot dot) with true.
  cbn [at_elem_end andb]. cbn iota.
  rewrite app_nil_r, length_rev, Hj. cbn [length Nat.eqb].
  now rewrite <- Hj, rev_involutive.
Qed.

Lemma last_elem_app n : forall x acc,
  no_sep n -> last_elem (n ++ Separator :: x) acc = rev n ++ acc.
Proof.
  induction n as [|c n IH]; intros x acc Hn; cbn [app last_elem rev].
  - reflexivity.
  - inversion Hn as [|? ? Hc Hn']; subst. rewrite Hc, IH by exact Hn'.
    now rewrite <- app_assoc.
Qed.

(** The base of a path of plain names is its last name. *)
Lemma Base_names dirs f :
  plain f -> Base (str (join_bytes (dirs ++ [f]))) = str f.
Proof.
  intros (Hne & Hsep & _).
  destruct dirs as [|d dirs]; [now apply Base_no_sep|].
  unfold Base. rewrite join_bytes_app by discriminate.
  change (join_bytes [f]) with f.
  destruct (String.eqb_spec (str (join_bytes (d :: dirs) ++ Separator :: f)) "") as [He|_].
  { apply (f_equal bytes) in He. rewrite bytes_str in He.
    apply (f_equal (@length _)) in He. rewrite length_app in He. cbn in He. lia. }
  rewrite bytes_str, rev_app_distr. cbn [rev]. rewrite <- app_assoc. cbn [app].
  assert (Hstrip : forall x, strip_trailing (rev f ++ x) = rev f ++ x).
  { intros x. pose proof (no_sep_rev f Hsep) as Hr.
    assert (Hrne : rev f <> []).
    { intros He. apply (f_equal (@rev _)) in He. rewrite rev_involutive in He. now cbn in He. }
    destruct (rev f) as [|c r]; [contradiction|].
    inversion Hr as [|? ? Hc _]; subst. cbn [app strip_trailing]. now rewrite Hc. }
  rewrite Hstrip, last_elem_app by now apply no_sep_rev.
  rewrite rev_involutive, app_nil_r. destruct f; [contradiction | reflexivity].
Qed.

(** A name that ends in [.epub] gives a plain name when the ending is
    replaced by [.cbz]. *)
Lemma plain_cbz stem :
  plain (bytes (stem +:+ ".epub")) -> plain (bytes (stem +:+ ".cbz")).
Proof.
  rewrite !bytes_app. intros (_ & Hsep & _).
  apply Forall_app in Hsep as [Hstem _].
  assert (Hlen : 4 <= length (bytes stem ++ bytes ".cbz")).
  { rewrite length_app. cbn. lia. }
  repeat split.
  - intros He. rewrite He in Hlen. cbn in Hlen. lia.
  - apply Forall_app. split; [exact Hstem|]. repeat constructor.
  - intros He. rewrite He in Hlen. cbn in Hlen. lia.
  - intros He. rewrite He in Hlen. cbn in Hlen. lia.
Qed.

(** Joining a directory of plain names and a plain name puts a slash
    between them. *)
Lemma Join_names ns f :
  Forall plain ns -> ns <> [] -> plain f ->
  Join [str (join_bytes ns); str f] = str (join_bytes (ns ++ [f])).
Proof.
  intros Hns Hne Hf.
  destruct (join_bytes_head ns Hns Hne) as (c & t & Hj & _).
  cbn [Join].
  destruct (String.eqb_spec (str (join_bytes ns)) "") as [He|_].
  { apply (f_equal bytes) in He. rewrite bytes_str, Hj in He. discriminate He. }
  cbn [join_sep]. rewrite !bytes_str.
  change (join_bytes ns ++ Separator :: f) with (join_bytes ns ++ Separator :: join_bytes [f]).
  rewrite <- join_bytes_app by (assumption || discriminate).
  rewrite clean_bytes_names_only; [reflexivity| |destruct ns; discriminate].
  apply Forall_app. split; [exact Hns|]. now constructor.
Qed.

Lemma Join_names_Dir ns dirs f :
  Forall plain ns -> ns <> [] -> Forall plain dirs -> plain f ->
  Join [str (join_bytes ns); Dir (str (join_bytes (dirs ++ [f])))]
  = str (join_bytes (ns ++ dirs)).
Proof.
  intros Hns Hne Hdirs Hf. rewrite Dir_names by assumption.
  destruct (join_bytes_head ns Hns Hne) as (c & t & Hj & _).
  cbn [Join].
  destruct (String.eqb_spec (str (join_bytes ns)) "") as [He|_].
  { apply (f_equal bytes) in He. rewrite bytes_str, Hj in He. discriminate He. }
  cbn [join_sep]. rewrite !bytes_str.
  destruct dirs as [|d dirs].
  - rewrite app_nil_r. f_equal. now apply clean_bytes_names_dot.
  - rewrite <- join_bytes_app by (assumption || discriminate).
    rewrite clean_bytes_names_only; [reflexivity| |destruct ns; discriminate].
    now apply Forall_app.
Qed.

End BatchPaths.

Lemma str_concat ns : String.concat "/" ns = str (join_bytes (map bytes ns)).
Proof. now rewrite <- bytes_concat, str_bytes. Qed.

(** X19: the output path of a file in directory mode, for a source path, an
    output directory and a relative path made of plain names. Without
    recursion the archive is put in the output directory itself, under the
    name of the file with [.cbz] for [.epub], whatever the directory of the
    file. With recursion it is put below the output directory in the
    directories of the path relative to the source directory. *)
Theorem directory_output_paths (dl : DirLib) (sourceDir : string)
    (odirs sdirs : list string) (stem : string) :
  odirs <> [] ->
  forallb plain_name odirs = true ->
  forallb plain_name sdirs = true ->
  plain_name (stem +:+ ".epub") = true ->
  let outputDir := String.concat "/" odirs in
  let path := String.concat "/" (sdirs ++ [stem +:+ ".epub"]) in
  final_output_path dl sourceDir outputDir false path
  = Some (String.concat "/" (odirs ++ [stem +:+ ".cbz"]))
  /\ forall (rdirs : list string) (f : string),
       forallb plain_name rdirs = true ->
       plain_name f = true ->
       filepath_Rel dl sourceDir path = Some (String.concat "/" (rdirs ++ [f])) ->
       os_MkdirAll dl (String.concat "/" (odirs ++ rdirs)) = true ->
       final_output_path dl sourceDir outputDir true path
       = Some (String.concat "/" (odirs ++ rdirs ++ [stem +:+ ".cbz"])).
Proof.
  intros Hne Hodirs Hsdirs Hname outputDir path.
  apply plain_names in Hodirs. apply plain_names in Hsdirs.
  apply plain_name_plain in Hname.
  pose proof (plain_cbz stem Hname) as Hcbz.
  assert (Hone : map bytes odirs <> []) by (destruct odirs; [contradiction | discriminate]).
  assert (Hout : String.eqb outputDir "" = false).
  { apply String.eqb_neq. intros He. apply (f_equal bytes) in He.
    unfold outputDir in He. rewrite bytes_concat in He.
    destruct (join_bytes_head _ Hodirs Hone) as (c & t & Hj & _).
    rewrite Hj in He. discriminate He. }
  assert (Hbase : strings.TrimSuffix (filepath.Base path) ".epub" = stem).
  { unfold path. rewrite str_concat, map_app. cbn [map].
    rewrite Base_names by exact Hname. rewrite str_bytes. apply TrimSuffix_app. }
  unfold final_output_path. rewrite Hout. cbn [negb]. cbv iota. rewrite Hbase. split.
  - f_equal. unfold outputDir. rewrite !str_concat, map_app. cbn [map].
    rewrite <- (str_bytes (stem +:+ ".cbz")) at 1. now apply Join_names.
  - intros rdirs f Hrdirs Hf Hrel Hmk. apply plain_names in Hrdirs.
    apply plain_name_plain in Hf. rewrite Hrel.
    assert (Hdir : filepath.Join [outputDir; filepath.Dir (String.concat "/" (rdirs ++ [f]))]
                   = String.concat "/" (odirs ++ rdirs)).
    { unfold outputDir. rewrite !str_concat, !map_app. cbn [map].
      now apply Join_names_Dir. }
    rewrite Hdir, Hmk. cbn [negb]. f_equal.
    rewrite !str_concat, !map_app. cbn [map]. rewrite app_assoc.
    rewrite <- (str_bytes (stem +:+ ".cbz")) at 1. apply Join_names.
    + now apply Forall_app.
    + destruct odirs; [contradiction | discriminate].
    + exact Hcbz.
Qed.

Lemma directory_output_paths_witness :
  final_output_path Samples.dirlib "lib" "out" false "lib/a/b.epub" = Some "out/b.cbz"
  /\ final_output_path Samples.dirlib "lib" "out" true "lib/a/b.epub" = Some "out/a/b.cbz".
Proof.
  destruct (directory_output_paths Samples.dirlib "lib" ["out"] ["lib"; "a"] "b")
    as [Hflat Hdeep]; [discriminate | reflexivity | reflexivity | reflexivity |].
  split; [exact Hflat|].
  apply (Hdeep ["a"] "b.epub"); reflexivity.
Defined.

(** X20: without recursion the files to convert are, in the order of the
    listing of the source directory, the selected entries, each below the
    source directory: for a source directory and entries of plain names,
    [Join] puts the one after the other with a slash between them. *)
Theorem top_level_listing (dl : DirLib) (sdirs : list string) (entries : list DirEntry) :
  sdirs <> [] ->
  forallb plain_name sdirs = true ->
  forallb (fun entry => plain_name (de_Name entry)) entries = true ->
  readdir_loop dl (String.concat "/" sdirs) entries []
  = map (fun entry => String.concat "/" (sdirs ++ [de_Name entry]))
      (List.filter (selected dl) entries).
Proof.
  intros Hne Hsdirs Hentries. rewrite readdir_loop_spec. cbn [app].
  apply plain_names in Hsdirs.
  assert (Hone : map bytes sdirs <> []) by (destruct sdirs; [contradiction | discriminate]).
  apply map_ext_in. intros entry Hin. apply List.filter_In in Hin as [Hin _].
  rewrite forallb_forall in Hentries. apply Hentries, plain_name_plain in Hin.
  rewrite !str_concat, map_app. cbn [map].
  rewrite <- (str_bytes (de_Name entry)) at 1. now apply Join_names.
Qed.

Lemma top_level_listing_witness :
  readdir_loop Samples.dirlib "lib/new"
    [{| de_Name := "a.epub"; de_IsDir := false |};
     {| de_Name := "b.epub"; de_IsDir := true |};
     {| de_Name := "notes.txt"; de_IsDir := false |};
     {| de_Name := "c.Epub"; de_IsDir := false |}] []
  = ["lib/new/a.epub"; "lib/new/c.Epub"].
Proof.
  apply (top_level_listing Samples.dirlib ["lib"; "new"]); [discriminate | reflexivity..].
Defined.
